(** * Violin intonation tracker: a shallow embedding of the pitch pipeline

    The development follows the JavaScript sources module by module:

    - [JS]         the number values the program computes with;
    - [Yin]        [src/yin.js], the YIN estimator;
    - [AutoGain]   the automatic gain controller ([./autogain.js]);
    - [Pitch]      the tracking engine ([./pitch.js]);
    - [Note]       the note mapper ([./note.js]);
    - [App]        the polling callback of the page script (the stabilizer);
    - [Visualizer] [src/visualizer.js], the scrolling pitch trace;
    - [Rounded]    the amplitude analyser of [./pitch.js] once more, over
                   rounded operations.

    Numbers.  A JavaScript number is modelled by [JS.num]: a finite value, one
    of the two infinities, or NaN.  Finite values are real numbers and the
    arithmetic on them is exact: rounding to binary64 (and to binary32 when a
    value is stored in a [Float32Array]), overflow of finite results and the
    sign of zero are not modelled.  Everything that the code decides through
    NaN or an infinity (division by zero, [Number.isFinite], comparisons that
    fail on NaN, truthiness) is modelled.

    Rounding.  The properties proved over [JS.num] are about what the code
    decides by its comparisons, clamps and branches, and about values that
    no rounding touches (zero sums, magnitudes, integers).  How the RMS of a
    frame compares with its peak does depend on rounding.  It is settled on
    [Rounded], where [_analyseAmplitude] is written over the operations it
    uses: with the binary64 operations of [PrimFloat] the function runs as
    the program does, and with real operations followed by a rounding
    function it is reasoned about under the properties of rounding to
    nearest ([binary64Rounding]).  With nothing rounded it is the exact
    model again ([analyseAmplitude_unrounded]). *)

From Stdlib Require Import Reals Lra Lia List ZArith Bool String DecimalString.
From Stdlib Require Floats.
Import ListNotations.

Open Scope R_scope.

(* ================================================================= *)
(** ** JavaScript numbers *)

Module JS.

Inductive num : Type :=
| Fin (r : R)
| PInf
| NInf
| NaN.

Definition ltR (a b : R) : bool := if Rlt_dec a b then true else false.
Definition leR (a b : R) : bool := if Rle_dec a b then true else false.
Definition eqR (a b : R) : bool := if Req_dec_T a b then true else false.

(** The value of an operation whose result is an infinity signed like [r],
    and NaN when [r] is zero. *)
Definition bySign (r : R) (pos neg : num) : num :=
  if ltR 0 r then pos else if ltR r 0 then neg else NaN.

Definition neg (a : num) : num :=
  match a with
  | Fin r => Fin (- r)
  | PInf => NInf
  | NInf => PInf
  | NaN => NaN
  end.

Definition add (a b : num) : num :=
  match a, b with
  | NaN, _ | _, NaN => NaN
  | Fin x, Fin y => Fin (x + y)
  | PInf, NInf | NInf, PInf => NaN
  | PInf, _ | _, PInf => PInf
  | NInf, _ | _, NInf => NInf
  end.

Definition sub (a b : num) : num := add a (neg b).

Definition mul (a b : num) : num :=
  match a, b with
  | NaN, _ | _, NaN => NaN
  | Fin x, Fin y => Fin (x * y)
  | PInf, Fin y | Fin y, PInf => bySign y PInf NInf
  | NInf, Fin y | Fin y, NInf => bySign y NInf PInf
  | PInf, PInf | NInf, NInf => PInf
  | PInf, NInf | NInf, PInf => NInf
  end.

(** Division.  A finite non-zero value divided by zero is an infinity (zero is
    taken as positive zero); zero by zero and infinity by infinity are NaN. *)
Definition div (a b : num) : num :=
  match a, b with
  | NaN, _ | _, NaN => NaN
  | Fin x, Fin y => if eqR y 0 then bySign x PInf NInf else Fin (x / y)
  | Fin _, (PInf | NInf) => Fin 0
  | PInf, Fin y => if ltR y 0 then NInf else PInf
  | NInf, Fin y => if ltR y 0 then PInf else NInf
  | (PInf | NInf), (PInf | NInf) => NaN
  end.

(** Comparisons: every comparison with NaN is false. *)
Definition lt (a b : num) : bool :=
  match a, b with
  | NaN, _ | _, NaN => false
  | Fin x, Fin y => ltR x y
  | NInf, NInf | PInf, _ | _, NInf => false
  | NInf, _ | _, PInf => true
  end.

Definition le (a b : num) : bool :=
  match a, b with
  | NaN, _ | _, NaN => false
  | Fin x, Fin y => leR x y
  | NInf, _ | _, PInf => true
  | PInf, _ | _, NInf => false
  end.

Definition gt (a b : num) : bool := lt b a.
Definition ge (a b : num) : bool := le b a.

(** Strict equality [===] on numbers. *)
Definition eq (a b : num) : bool :=
  match a, b with
  | Fin x, Fin y => eqR x y
  | PInf, PInf | NInf, NInf => true
  | _, _ => false
  end.

Definition neq (a b : num) : bool := negb (eq a b).

(** [Math.max] and [Math.min] of two arguments. *)
Definition max (a b : num) : num :=
  match a, b with
  | NaN, _ | _, NaN => NaN
  | _, _ => if lt a b then b else a
  end.

Definition min (a b : num) : num :=
  match a, b with
  | NaN, _ | _, NaN => NaN
  | _, _ => if lt b a then b else a
  end.

Definition abs (a : num) : num :=
  match a with
  | Fin r => Fin (Rabs r)
  | PInf | NInf => PInf
  | NaN => NaN
  end.

Definition sqrt (a : num) : num :=
  match a with
  | Fin r => if ltR r 0 then NaN else Fin (R_sqrt.sqrt r)
  | PInf => PInf
  | NInf | NaN => NaN
  end.

Definition exp (a : num) : num :=
  match a with
  | Fin r => Fin (Rtrigo_def.exp r)
  | PInf => PInf
  | NInf => Fin 0
  | NaN => NaN
  end.

Definition log2 (a : num) : num :=
  match a with
  | Fin r => if ltR r 0 then NaN
             else if eqR r 0 then NInf
             else Fin (ln r / ln 2)
  | PInf => PInf
  | NInf | NaN => NaN
  end.

(** [Math.pow(2, e)]. *)
Definition pow2 (e : num) : num :=
  match e with
  | Fin r => Fin (Rpower 2 r)
  | PInf => PInf
  | NInf => Fin 0
  | NaN => NaN
  end.

Definition floor (a : num) : num :=
  match a with
  | Fin r => Fin (IZR (Zfloor r))
  | _ => a
  end.

(** [Math.round]: the nearest integer, halves rounded up. *)
Definition round (a : num) : num :=
  match a with
  | Fin r => Fin (IZR (Zfloor (r + / 2)))
  | _ => a
  end.

(** Truncation toward zero, for the remainder. *)
Definition Ztrunc (r : R) : Z :=
  if ltR r 0 then (- Zfloor (- r))%Z else Zfloor r.

(** The remainder operator [%]: the result has the sign of the dividend. *)
Definition rem (a b : num) : num :=
  match a, b with
  | NaN, _ | _, NaN => NaN
  | (PInf | NInf), _ => NaN
  | Fin x, (PInf | NInf) => Fin x
  | Fin x, Fin y => if eqR y 0 then NaN else Fin (x - y * IZR (Ztrunc (x / y)))
  end.

Definition isFinite (a : num) : bool :=
  match a with
  | Fin _ => true
  | _ => false
  end.

(** Truthiness of a number: zero and NaN are falsy. *)
Definition truthy (a : num) : bool :=
  match a with
  | Fin r => negb (eqR r 0)
  | PInf | NInf => true
  | NaN => false
  end.

Definition ofNat (n : nat) : num := Fin (INR n).
Definition ofZ (z : Z) : num := Fin (IZR z).

(** Reading an array at an index: out of range the read is [undefined],
    which every arithmetic operation turns into NaN. *)
Definition get (a : list num) (i : nat) : num := nth i a NaN.

End JS.

Declare Scope js_scope.
Delimit Scope js_scope with js.
Infix "+!" := JS.add (at level 50, left associativity) : js_scope.
Infix "-!" := JS.sub (at level 50, left associativity) : js_scope.
Infix "*!" := JS.mul (at level 40, left associativity) : js_scope.
Infix "/!" := JS.div (at level 40, left associativity) : js_scope.
Infix "<!" := JS.lt (at level 65, no associativity) : js_scope.
Infix "<=!" := JS.le (at level 65, no associativity) : js_scope.
Infix ">!" := JS.gt (at level 65, no associativity) : js_scope.
Infix ">=!" := JS.ge (at level 65, no associativity) : js_scope.
Open Scope js_scope.

Import JS (num, Fin, PInf, NInf, NaN).

(* ================================================================= *)
(** ** src/yin.js: the YIN estimator *)

Module Yin.

(** The detector's configuration.  The two scratch arrays [difference] and
    [cumulativeMean] of the class are written at every index by each call of
    [getPitch] before they are read, so they are values computed from the
    frame rather than state kept between calls. *)
Record YinPitchDetector : Type := {
  sampleRate : num;
  threshold : num;
  probabilityThreshold : num;
  bufferSize : nat;
  halfBuffer : nat
}.

(** [new YinPitchDetector(sampleRate, {threshold, probabilityThreshold,
    bufferSize})]. *)
Definition new (sampleRate threshold probabilityThreshold : num)
    (bufferSize : nat) : YinPitchDetector :=
  {| sampleRate := sampleRate;
     threshold := threshold;
     probabilityThreshold := probabilityThreshold;
     bufferSize := bufferSize;
     halfBuffer := Nat.div2 bufferSize |}.

Record estimate : Type := {
  frequency : num;
  probability : num
}.

(** The inner loop of [_difference]: the sum over [i] of the squared
    differences at lag [tau]. *)
Definition differenceAt (H : nat) (buffer : list num) (tau : nat) : num :=
  fold_left
    (fun sum i =>
       let delta := JS.get buffer i -! JS.get buffer (i + tau) in
       sum +! delta *! delta)
    (seq 0 H) (Fin 0).

(** Step 1.  The array has [halfBuffer] entries; a write outside a typed
    array is dropped, hence [firstn]. *)
Definition _difference (y : YinPitchDetector) (buffer : list num) : list num :=
  let H := halfBuffer y in
  firstn H (Fin 0 :: map (differenceAt H buffer) (seq 1 (H - 1))).

(** The loop of step 2 from lag [tau] on, over the remaining differences. *)
Fixpoint cumulativeLoop (tau : nat) (runningSum : num) (ds : list num)
  : list num :=
  match ds with
  | [] => []
  | d :: ds' =>
      let runningSum' := runningSum +! d in
      (if JS.neq runningSum' (Fin 0)
       then (d *! JS.ofNat tau) /! runningSum'
       else Fin 1)
      :: cumulativeLoop (S tau) runningSum' ds'
  end.

(** Step 2. *)
Definition _cumulativeMeanNormalizedDifference (difference : list num)
  : list num :=
  match difference with
  | [] => []
  | _ :: ds => Fin 1 :: cumulativeLoop 1 (Fin 0) ds
  end.

(** The inner [while] of step 3: walk down to the local minimum.  [fuel]
    bounds the number of iterations; [halfBuffer] is always enough. *)
Fixpoint descend (H : nat) (cumulativeMean : list num) (fuel tau : nat) : nat :=
  match fuel with
  | O => tau
  | S fuel' =>
      if (tau + 1 <? H)%nat
         && (JS.get cumulativeMean (tau + 1) <! JS.get cumulativeMean tau)
      then descend H cumulativeMean fuel' (tau + 1)
      else tau
  end.

(** The [for] loop of step 3 over the lags still to visit. *)
Fixpoint scan (H : nat) (threshold : num) (cumulativeMean : list num)
    (taus : list nat) : option nat :=
  match taus with
  | [] => None
  | tau :: rest =>
      if JS.get cumulativeMean tau <! threshold
      then Some (descend H cumulativeMean H tau)
      else scan H threshold cumulativeMean rest
  end.

(** Step 3.  [None] stands for the source's [-1]. *)
Definition _absoluteThreshold (y : YinPitchDetector) (cumulativeMean : list num)
  : option nat :=
  let H := halfBuffer y in
  scan H (threshold y) cumulativeMean (seq 2 (H - 2)).

(** Step 4. *)
Definition _parabolicInterpolation (y : YinPitchDetector)
    (cumulativeMean : list num) (tau : nat) : num :=
  if (tau <? 1)%nat || (halfBuffer y <=? tau + 1)%nat then JS.ofNat tau
  else
    let s0 := JS.get cumulativeMean (tau - 1) in
    let s1 := JS.get cumulativeMean tau in
    let s2 := JS.get cumulativeMean (tau + 1) in
    let betterTau :=
      JS.ofNat tau +! (s2 -! s0) /! (Fin 2 *! (Fin 2 *! s1 -! s2 -! s0)) in
    if JS.isFinite betterTau then betterTau else JS.ofNat tau.

Definition cumulativeMeanOf (y : YinPitchDetector) (buffer : list num)
  : list num :=
  _cumulativeMeanNormalizedDifference (_difference y buffer).

Definition getPitch (y : YinPitchDetector) (buffer : list num)
  : option estimate :=
  let cumulativeMean := cumulativeMeanOf y buffer in
  match _absoluteThreshold y cumulativeMean with
  | None => None
  | Some tau =>
      let betterTau := _parabolicInterpolation y cumulativeMean tau in
      let frequency := sampleRate y /! betterTau in
      let probability := Fin 1 -! JS.get cumulativeMean tau in
      if probability <! probabilityThreshold y then None
      else Some {| frequency := frequency; probability := probability |}
  end.

End Yin.

(* ================================================================= *)
(** ** ./autogain.js: the automatic gain controller *)

Module AutoGain.

(** The options object of the constructor. *)
Record options : Type := {
  opt_targetRms : num;
  opt_smoothingTime : num;
  opt_minGain : num;
  opt_maxGain : num;
  opt_gainSlew : num;
  opt_epsilon : num
}.

(** The defaults of the constructor's destructuring pattern. *)
Definition defaults : options :=
  {| opt_targetRms := Fin (2 / 10);
     opt_smoothingTime := Fin (6 / 10);
     opt_minGain := Fin (5 / 10);
     opt_maxGain := Fin 50;
     opt_gainSlew := Fin (1 / 10);
     opt_epsilon := Fin (1 / 1000000) |}.

(** A call [node.gain.setTargetAtTime(target, startTime, timeConstant)]. *)
Record automation : Type := {
  target : num;
  startTime : num;
  timeConstant : num
}.

(** The gain node: the value its gain was given and the automation calls
    made on it, latest first. *)
Record GainNode : Type := {
  gain_value : num;
  gain_schedule : list automation
}.

Record AutoGainController : Type := {
  targetRms : num;
  smoothingTime : num;
  minGain : num;
  maxGain : num;
  gainSlew : num;
  epsilon : num;
  node : GainNode;
  smoothedRms : option num;
  lastUpdateTime : option num;
  currentGain : num
}.

Definition new (o : options) : AutoGainController :=
  {| targetRms := opt_targetRms o;
     smoothingTime := JS.max (opt_smoothingTime o) (Fin (1 / 1000));
     minGain := opt_minGain o;
     maxGain := opt_maxGain o;
     gainSlew := JS.max (opt_gainSlew o) (Fin (1 / 1000));
     epsilon := opt_epsilon o;
     node := {| gain_value := Fin 1; gain_schedule := [] |};
     smoothedRms := None;
     lastUpdateTime := None;
     currentGain := Fin 1 |}.

(** The object [update] returns. *)
Record metrics : Type := {
  m_smoothedRms : num;
  m_gain : num
}.

Definition _clamp (c : AutoGainController) (value : num) : num :=
  JS.min (maxGain c) (JS.max (minGain c) value).

Definition setTargetAtTime (n : GainNode) (target startTime timeConstant : num)
  : GainNode :=
  {| gain_value := gain_value n;
     gain_schedule :=
       {| target := target; startTime := startTime;
          timeConstant := timeConstant |} :: gain_schedule n |}.

(** [update(rms)].  [currentTime] is [this.audioContext.currentTime] as read
    by the call.  The result is the returned object and the controller after
    the call. *)
Definition update (c : AutoGainController) (currentTime rms : num)
  : metrics * AutoGainController :=
  let now := currentTime in
  if negb (JS.isFinite rms) then
    ({| m_smoothedRms := match smoothedRms c with
                         | Some s => s
                         | None => Fin 0
                         end;
        m_gain := currentGain c |}, c)
  else
    let smoothed :=
      match smoothedRms c with
      | None => rms
      | Some s =>
          let dt := match lastUpdateTime c with
                    | None => Fin 0
                    | Some last => JS.max (Fin 0) (now -! last)
                    end in
          let alpha :=
            if dt >! Fin 0
            then Fin 1 -! JS.exp (JS.neg dt /! smoothingTime c)
            else Fin 1 in
          (Fin 1 -! alpha) *! s +! alpha *! rms
      end in
    let desiredGain := _clamp c (targetRms c /! (smoothed +! epsilon c)) in
    let c' :=
      {| targetRms := targetRms c;
         smoothingTime := smoothingTime c;
         minGain := minGain c;
         maxGain := maxGain c;
         gainSlew := gainSlew c;
         epsilon := epsilon c;
         node := setTargetAtTime (node c) desiredGain now (gainSlew c);
         smoothedRms := Some smoothed;
         lastUpdateTime := Some now;
         currentGain := desiredGain |} in
    ({| m_smoothedRms := smoothed; m_gain := desiredGain |}, c').

End AutoGain.

(* ================================================================= *)
(** ** ./pitch.js: the pitch tracking engine *)

Module Pitch.

Inductive contextState : Type := Suspended | Running | Closed.

(** What the tracker reads of its [AudioContext]. *)
Record AudioContext : Type := {
  state : contextState;
  ctx_sampleRate : num
}.

Record AnalyserNode : Type := {
  fftSize : nat
}.

Record PitchTracker : Type := {
  bufferSize : nat;
  yinThreshold : num;
  probabilityThreshold : num;
  rmsThreshold : num;
  audioContext : option AudioContext;
  analyser : option AnalyserNode;
  yin : option Yin.YinPitchDetector;
  initialized : bool;
  _lastLowRmsLog : num;
  _lastNullPitchLog : num;
  _lastDetectionLog : num;
  autoGain : option AutoGain.AutoGainController;
  autoGainOptions : AutoGain.options
}.

(** The defaults the tracker's constructor spreads under [autoGainOptions]
    ([epsilon] is left to the controller's own default). *)
Definition defaultAutoGainOptions : AutoGain.options :=
  {| AutoGain.opt_targetRms := Fin (2 / 10);
     AutoGain.opt_smoothingTime := Fin (6 / 10);
     AutoGain.opt_minGain := Fin (5 / 10);
     AutoGain.opt_maxGain := Fin 200;
     AutoGain.opt_gainSlew := Fin (1 / 10);
     AutoGain.opt_epsilon := AutoGain.opt_epsilon AutoGain.defaults |}.

Definition new (bufferSize : nat)
    (yinThreshold probabilityThreshold rmsThreshold : num)
    (autoGainOptions : AutoGain.options) : PitchTracker :=
  {| bufferSize := bufferSize;
     yinThreshold := yinThreshold;
     probabilityThreshold := probabilityThreshold;
     rmsThreshold := rmsThreshold;
     audioContext := None;
     analyser := None;
     yin := None;
     initialized := false;
     _lastLowRmsLog := Fin 0;
     _lastNullPitchLog := Fin 0;
     _lastDetectionLog := Fin 0;
     autoGain := None;
     autoGainOptions := autoGainOptions |}.

(** [new PitchTracker()] with every default. *)
Definition newDefault : PitchTracker :=
  new 2048 (Fin (1 / 10)) (Fin (15 / 100)) (Fin (1 / 100))
      defaultAutoGainOptions.

(** The part of [init] that builds the tracker's objects, once the browser
    has delivered the microphone stream and the audio context [ctx]. *)
Definition init (t : PitchTracker) (ctx : AudioContext) : PitchTracker :=
  if initialized t then t
  else
    {| bufferSize := bufferSize t;
       yinThreshold := yinThreshold t;
       probabilityThreshold := probabilityThreshold t;
       rmsThreshold := rmsThreshold t;
       audioContext := Some ctx;
       analyser := Some {| fftSize := bufferSize t |};
       yin := Some (Yin.new (ctx_sampleRate ctx) (yinThreshold t)
                      (probabilityThreshold t) (bufferSize t));
       initialized := true;
       _lastLowRmsLog := _lastLowRmsLog t;
       _lastNullPitchLog := _lastNullPitchLog t;
       _lastDetectionLog := _lastDetectionLog t;
       autoGain := Some (AutoGain.new (autoGainOptions t));
       autoGainOptions := autoGainOptions t |}.

Record amplitude : Type := {
  a_rms : num;
  a_peak : num
}.

(** The body of the loop of [_analyseAmplitude] on the pair [(sum, peak)]. *)
Definition amplitudeStep (acc : num * num) (sample : num) : num * num :=
  let sum := fst acc +! sample *! sample in
  let magnitude := JS.abs sample in
  (sum, if magnitude >! snd acc then magnitude else snd acc).

Definition _analyseAmplitude (buffer : list num) : amplitude :=
  let acc := fold_left amplitudeStep buffer (Fin 0, Fin 0) in
  {| a_rms := JS.sqrt (fst acc /! JS.ofNat (List.length buffer));
     a_peak := snd acc |}.

(** The object [getPitch] returns; [frequency] is [None] for [null]. *)
Record reading : Type := {
  frequency : option num;
  probability : num;
  rms : num;
  peak : num;
  smoothedRms : num;
  gain : num
}.

(** The calls [getPitch] makes on the objects it owns, in order. *)
Inductive call : Type :=
| GetFloatTimeDomainData
| AutoGainUpdate (rms : num)
| YinGetPitch.

(** How a call of [getPitch] ends: it returns an object or [null], or the
    method call on a missing detector throws. *)
Inductive outcome : Type :=
| Returned (r : option reading)
| Threw.

Record result : Type := {
  res_outcome : outcome;
  res_tracker : PitchTracker;
  res_calls : list call
}.

Definition isRunning (t : PitchTracker) : bool :=
  match audioContext t with
  | Some {| state := Running |} => true
  | _ => false
  end.

(** The tracker after a call: only the gain controller and the three log
    timestamps change. *)
Definition withState (t : PitchTracker)
    (autoGain' : option AutoGain.AutoGainController)
    (lowRms nullPitch detection : num) : PitchTracker :=
  {| bufferSize := bufferSize t;
     yinThreshold := yinThreshold t;
     probabilityThreshold := probabilityThreshold t;
     rmsThreshold := rmsThreshold t;
     audioContext := audioContext t;
     analyser := analyser t;
     yin := yin t;
     initialized := initialized t;
     _lastLowRmsLog := lowRms;
     _lastNullPitchLog := nullPitch;
     _lastDetectionLog := detection;
     autoGain := autoGain';
     autoGainOptions := autoGainOptions t |}.

(** [getPitch()].  [frame] is what [getFloatTimeDomainData] writes into the
    tracker's buffer, [currentTime] the audio context's clock as the gain
    controller reads it, [now] the value of [performance.now()]. *)
Definition getPitch (t : PitchTracker) (frame : list num)
    (currentTime now : num) : result :=
  if negb (initialized t)
     || match analyser t with Some _ => false | None => true end
     || negb (isRunning t)
  then {| res_outcome := Returned None; res_tracker := t; res_calls := [] |}
  else
    let buffer := frame in
    let a := _analyseAmplitude buffer in
    let rms := a_rms a in
    let peak := a_peak a in
    let '(gainMetrics, autoGain', gainCalls) :=
      match autoGain t with
      | Some g =>
          let '(m, g') := AutoGain.update g currentTime rms in
          (m, Some g', [AutoGainUpdate rms])
      | None =>
          ({| AutoGain.m_smoothedRms := rms; AutoGain.m_gain := Fin 1 |},
           None, [])
      end in
    let calls := GetFloatTimeDomainData :: gainCalls in
    if rms <! rmsThreshold t then
      {| res_outcome :=
           Returned (Some {| frequency := None;
                             probability := Fin 0;
                             rms := rms;
                             peak := peak;
                             smoothedRms := AutoGain.m_smoothedRms gainMetrics;
                             gain := AutoGain.m_gain gainMetrics |});
         res_tracker :=
           withState t autoGain'
             (if now -! _lastLowRmsLog t >! Fin 500 then now
              else _lastLowRmsLog t)
             (_lastNullPitchLog t) (_lastDetectionLog t);
         res_calls := calls |}
    else
      match yin t with
      | None =>
          {| res_outcome := Threw;
             res_tracker :=
               withState t autoGain' (_lastLowRmsLog t) (_lastNullPitchLog t)
                 (_lastDetectionLog t);
             res_calls := calls |}
      | Some y =>
          match Yin.getPitch y buffer with
          | None =>
              {| res_outcome :=
                   Returned
                     (Some {| frequency := None;
                              probability := Fin 0;
                              rms := rms;
                              peak := peak;
                              smoothedRms :=
                                AutoGain.m_smoothedRms gainMetrics;
                              gain := AutoGain.m_gain gainMetrics |});
                 res_tracker :=
                   withState t autoGain' (_lastLowRmsLog t)
                     (if now -! _lastNullPitchLog t >! Fin 500 then now
                      else _lastNullPitchLog t)
                     (_lastDetectionLog t);
                 res_calls := calls ++ [YinGetPitch] |}
          | Some estimation =>
              {| res_outcome :=
                   Returned
                     (Some {| frequency := Some (Yin.frequency estimation);
                              probability := Yin.probability estimation;
                              rms := rms;
                              peak := peak;
                              smoothedRms :=
                                AutoGain.m_smoothedRms gainMetrics;
                              gain := AutoGain.m_gain gainMetrics |});
                 res_tracker :=
                   withState t autoGain' (_lastLowRmsLog t)
                     (_lastNullPitchLog t)
                     (if now -! _lastDetectionLog t >! Fin 500 then now
                      else _lastDetectionLog t);
                 res_calls := calls ++ [YinGetPitch] |}
          end
      end.

(** [stop()]: every object the tracker owns is released and the tracker is
    back to not initialised.  The calls made on the released objects
    (disconnect, stopping the tracks, closing the context) are outside the
    model. *)
Definition stop (t : PitchTracker) : PitchTracker :=
  {| bufferSize := bufferSize t;
     yinThreshold := yinThreshold t;
     probabilityThreshold := probabilityThreshold t;
     rmsThreshold := rmsThreshold t;
     audioContext := None;
     analyser := None;
     yin := None;
     initialized := false;
     _lastLowRmsLog := _lastLowRmsLog t;
     _lastNullPitchLog := _lastNullPitchLog t;
     _lastDetectionLog := _lastDetectionLog t;
     autoGain := None;
     autoGainOptions := autoGainOptions t |}.

End Pitch.

(* ================================================================= *)
(** ** ./note.js: the note mapper *)

Module Note.

Definition NOTE_NAMES : list string :=
  ["C"; "C#"; "D"; "D#"; "E"; "F"; "F#"; "G"; "G#"; "A"; "A#"; "B"]%string.

Record NoteData : Type := {
  frequency : num;
  midi : num;
  nearestMidi : num;
  cents : num;
  equalFrequency : num;
  noteName : string
}.

(** [NOTE_NAMES[i]]: a name when [i] is one of the integers 0..11, and
    [undefined] (here [None]) for any other number. *)
Definition nameAt (i : num) : option string :=
  match i with
  | Fin r =>
      let z := Zfloor r in
      if JS.eqR r (IZR z) && (0 <=? z)%Z then nth_error NOTE_NAMES (Z.to_nat z)
      else None
  | _ => None
  end.

(** How a template literal prints an integer-valued number (the octave). *)
Definition showInteger (a : num) : string :=
  match a with
  | Fin r => NilZero.string_of_int (Z.to_int (Zfloor r))
  | PInf => "Infinity"
  | NInf => "-Infinity"
  | NaN => "NaN"
  end.

(** The local [noteIndex] of [frequencyToNoteData]. *)
Definition noteIndexOf (nearestMidi : num) : num :=
  JS.rem (nearestMidi +! Fin 1200) (Fin 12).

Definition frequencyToNoteData (frequency : num) : option NoteData :=
  if negb (JS.truthy frequency) || (frequency <=! Fin 0) then None
  else
    let midi := Fin 69 +! Fin 12 *! JS.log2 (frequency /! Fin 440) in
    let nearestMidi := JS.round midi in
    let noteIndex := noteIndexOf nearestMidi in
    let octave := JS.floor (nearestMidi /! Fin 12) -! Fin 1 in
    let noteName :=
      ((match nameAt noteIndex with
        | Some name => name
        | None => "undefined"
        end) ++ showInteger octave)%string in
    let equalFrequency :=
      Fin 440 *! JS.pow2 ((nearestMidi -! Fin 69) /! Fin 12) in
    let cents := Fin 1200 *! JS.log2 (frequency /! equalFrequency) in
    Some {| frequency := frequency;
            midi := midi;
            nearestMidi := nearestMidi;
            cents := cents;
            equalFrequency := equalFrequency;
            noteName := noteName |}.

End Note.

(* ================================================================= *)
(** ** The page script: the polling callback (temporal stabilizer) *)

Module App.

Definition MIN_VALID_FREQ : num := Fin 110.
Definition MAX_VALID_FREQ : num := Fin 1660.
Definition MAX_JUMP_HZ : num := Fin 160.
Definition MAX_GAP_MS : num := Fin 200.
Definition UPDATE_INTERVAL_MS : num := Fin 20.
Definition MISS_THRESHOLD : nat := 4.

(** The module-level variables the polling callback reads and writes. *)
Record state : Type := {
  missCounter : nat;
  lastNoPitchLog : num;
  lastDetectionLog : num;
  lastDetectionTime : num;
  lastFrequency : option num
}.

(** The variables as the script initialises them. *)
Definition initial : state :=
  {| missCounter := 0;
     lastNoPitchLog := Fin 0;
     lastDetectionLog := Fin 0;
     lastDetectionTime := Fin 0;
     lastFrequency := None |}.

(** What a tick does to the page: the calls it makes on the readouts, the
    status line and the visualizer. *)
Inductive event : Type :=
| SetStatus (message : string)
| ResetReadouts
| RenderReadouts (noteData : Note.NoteData)
| VisualizerUpdate (frequency cents noteIndex : num).

(** The first test of the callback:
    [!estimation || !estimation.frequency ||
     !Number.isFinite(estimation.frequency)]. *)
Definition noPitch (estimation : option Pitch.reading) : bool :=
  match estimation with
  | None => true
  | Some e =>
      match Pitch.frequency e with
      | None => true
      | Some f => negb (JS.truthy f) || negb (JS.isFinite f)
      end
  end.

(** The frequency of a reading that passed [noPitch]. *)
Definition frequencyOf (estimation : option Pitch.reading) : num :=
  match estimation with
  | Some {| Pitch.frequency := Some f |} => f
  | _ => NaN
  end.

(** The lost-lock signal: the two calls made when the miss counter reaches
    the threshold. *)
Definition lostLock : list event :=
  [SetStatus "Listening… play a clear tone."; ResetReadouts].

(** The jump test of the callback, on the clamped frequency. *)
Definition jumpRejected (s : state) (timestamp frequency : num) : bool :=
  let timeSinceLast := timestamp -! lastDetectionTime s in
  match lastFrequency s with
  | Some last =>
      JS.neq (lastDetectionTime s) (Fin 0)
      && (timeSinceLast <! MAX_GAP_MS)
      && (JS.abs (frequency -! last) >! MAX_JUMP_HZ)
  | None => false
  end.

(** One run of the callback [startPolling] hands to [setInterval].
    [timestamp] is the clock value the callback reads, [estimation] what
    [tracker.getPitch()] returned. *)
Definition pollTick (s : state) (timestamp : num)
    (estimation : option Pitch.reading) : state * list event :=
  if noPitch estimation then
    let missCounter' := S (missCounter s) in
    ({| missCounter := missCounter';
        lastNoPitchLog :=
          if timestamp -! lastNoPitchLog s >! Fin 500 then timestamp
          else lastNoPitchLog s;
        lastDetectionLog := lastDetectionLog s;
        lastDetectionTime := lastDetectionTime s;
        lastFrequency := lastFrequency s |},
     if (missCounter' =? MISS_THRESHOLD)%nat then lostLock else [])
  else
    let s0 :=
      {| missCounter := 0;
         lastNoPitchLog := lastNoPitchLog s;
         lastDetectionLog := lastDetectionLog s;
         lastDetectionTime := lastDetectionTime s;
         lastFrequency := lastFrequency s |} in
    let frequency := frequencyOf estimation in
    if frequency <=! Fin 0 then (s0, [])
    else
      let frequency :=
        JS.min (JS.max frequency MIN_VALID_FREQ) MAX_VALID_FREQ in
      if jumpRejected s timestamp frequency then (s0, [])
      else
        let s1 :=
          {| missCounter := 0;
             lastNoPitchLog := lastNoPitchLog s;
             lastDetectionLog := lastDetectionLog s;
             lastDetectionTime := timestamp;
             lastFrequency := Some frequency |} in
        match Note.frequencyToNoteData frequency with
        | None => (s1, [])
        | Some noteData =>
            let s2 :=
              {| missCounter := 0;
                 lastNoPitchLog := lastNoPitchLog s;
                 lastDetectionLog :=
                   if timestamp -! lastDetectionLog s >! Fin 500
                   then timestamp else lastDetectionLog s;
                 lastDetectionTime := timestamp;
                 lastFrequency := Some frequency |} in
            let noteIndex :=
              JS.rem (Note.nearestMidi noteData +! Fin 1200) (Fin 12) in
            (s2, [RenderReadouts noteData;
                  VisualizerUpdate (Note.frequency noteData)
                    (Note.cents noteData) noteIndex])
        end.

(** The callback run over successive ticks; the events of each tick are
    kept apart. *)
Fixpoint run (s : state)
    (ticks : list (num * option Pitch.reading)) : state * list (list event) :=
  match ticks with
  | [] => (s, [])
  | (timestamp, estimation) :: rest =>
      let '(s', evs) := pollTick s timestamp estimation in
      let '(s'', evss) := run s' rest in
      (s'', evs :: evss)
  end.

(** What starting and stopping a session write to the variables of the
    callback.  [startListening] forgets the last accepted reading before it
    awaits the tracker, [startPolling] zeroes the miss counter before it
    arms the timer, and [stopListening] does both after it has cleared the
    timer.  Their calls on the tracker, the visualizer and the page are not
    part of the stabilizer's state and are left out. *)
Definition startListening (s : state) : state :=
  {| missCounter := missCounter s;
     lastNoPitchLog := lastNoPitchLog s;
     lastDetectionLog := lastDetectionLog s;
     lastDetectionTime := Fin 0;
     lastFrequency := None |}.

Definition startPolling (s : state) : state :=
  {| missCounter := 0;
     lastNoPitchLog := lastNoPitchLog s;
     lastDetectionLog := lastDetectionLog s;
     lastDetectionTime := lastDetectionTime s;
     lastFrequency := lastFrequency s |}.

Definition stopListening (s : state) : state :=
  {| missCounter := 0;
     lastNoPitchLog := lastNoPitchLog s;
     lastDetectionLog := lastDetectionLog s;
     lastDetectionTime := Fin 0;
     lastFrequency := None |}.

(** [colorForCents(cents)] of the page script. *)
Definition colorForCents (cents : num) : string :=
  let deviation := JS.abs cents in
  if negb (JS.isFinite deviation) || (deviation <=! Fin (5 / 10))
  then "#ffffff"%string
  else
    let ratio := JS.min deviation (Fin 50) /! Fin 50 in
    let channel := JS.round (Fin 255 *! (Fin 1 -! ratio)) in
    if cents >! Fin 0
    then ("rgb(255, " ++ Note.showInteger channel ++ ", "
            ++ Note.showInteger channel ++ ")")%string
    else ("rgb(" ++ Note.showInteger channel ++ ", "
            ++ Note.showInteger channel ++ ", 255)")%string.

End App.

(* ================================================================= *)
(** ** src/visualizer.js: the scrolling pitch trace *)

Module Visualizer.

Definition NOTE_ORDER : list string :=
  ["C"; "C#"; "D"; "D#"; "E"; "F"; "F#"; "G"; "G#"; "A"; "A#"; "B"]%string.

Definition CENTS_RANGE : num := Fin 50.

(** [NOTE_ORDER.length]. *)
Definition NOTE_COUNT : num := Fin 12.

Definition TIME_WINDOW : num := Fin 10000.

(** The object the page hands to [update]. *)
Record sample : Type := {
  frequency : num;
  cents : num;
  noteIndex : num
}.

(** An entry of [this.points]: the sample spread, with its time stamp. *)
Record point : Type := {
  p_frequency : num;
  p_cents : num;
  p_noteIndex : num;
  time : num
}.

Record PitchVisualizer : Type := {
  timeWindow : num;
  points : list point;
  axisMarginLeft : num;
  axisMarginRight : num;
  axisMarginTop : num;
  axisMarginBottom : num;
  width : num;
  height : num;
  plotWidth : num;
  plotHeight : num;
  rowHeight : num;
  isAnimating : bool
}.

Definition withPoints (v : PitchVisualizer) (points' : list point)
  : PitchVisualizer :=
  {| timeWindow := timeWindow v;
     points := points';
     axisMarginLeft := axisMarginLeft v;
     axisMarginRight := axisMarginRight v;
     axisMarginTop := axisMarginTop v;
     axisMarginBottom := axisMarginBottom v;
     width := width v;
     height := height v;
     plotWidth := plotWidth v;
     plotHeight := plotHeight v;
     rowHeight := rowHeight v;
     isAnimating := isAnimating v |}.

(** The [while] loop of [_trim]: drop points from the front while they are
    older than the threshold. *)
Fixpoint trimLoop (threshold : num) (points : list point) : list point :=
  match points with
  | [] => []
  | first :: rest =>
      if time first <! threshold then trimLoop threshold rest else points
  end.

Definition _trim (v : PitchVisualizer) (now : num) : PitchVisualizer :=
  let threshold := now -! timeWindow v in
  withPoints v (trimLoop threshold (points v)).

Definition _mapNoteToY (v : PitchVisualizer) (noteIndex cents : num) : num :=
  let clampedIndex :=
    JS.rem (JS.rem noteIndex NOTE_COUNT +! NOTE_COUNT) NOTE_COUNT in
  let clampedCents :=
    JS.max (JS.min cents CENTS_RANGE) (JS.neg CENTS_RANGE) in
  let rowCenter :=
    plotHeight v -! (clampedIndex +! Fin (5 / 10)) *! rowHeight v in
  let centsOffset :=
    (clampedCents /! CENTS_RANGE) *! (rowHeight v *! Fin (4 / 10)) in
  rowCenter -! centsOffset.

Definition _colorForCents (cents : num) : string :=
  let deviation := JS.abs cents in
  if negb (JS.isFinite deviation) || (deviation <=! Fin (5 / 10))
  then "#ffffff"%string
  else
    let ratio := JS.min deviation CENTS_RANGE /! CENTS_RANGE in
    let channel := JS.round (Fin 255 *! (Fin 1 -! ratio)) in
    if cents >! Fin 0
    then ("rgb(255, " ++ Note.showInteger channel ++ ", "
            ++ Note.showInteger channel ++ ")")%string
    else ("rgb(" ++ Note.showInteger channel ++ ", "
            ++ Note.showInteger channel ++ ", 255)")%string.

(** The point the trace loop of [draw] remembers. *)
Record lastPoint : Type := {
  lp_x : num;
  lp_y : num;
  lp_time : num;
  lp_noteIndex : num
}.

(** A stroked line of the trace: [strokeStyle], [moveTo], [lineTo]. *)
Record stroke : Type := {
  strokeStyle : string;
  from_x : num;
  from_y : num;
  to_x : num;
  to_y : num
}.

(** The loop of [draw] over [this.points]. *)
Fixpoint traceLoop (v : PitchVisualizer) (now pixelsPerMs : num)
    (points : list point) (last : option lastPoint) : list stroke :=
  match points with
  | [] => []
  | point :: rest =>
      let age := now -! time point in
      let x := plotWidth v -! age *! pixelsPerMs in
      if (x <! Fin 0) || (x >! plotWidth v)
      then traceLoop v now pixelsPerMs rest None
      else
        let y := _mapNoteToY v (p_noteIndex point) (p_cents point) in
        let color := _colorForCents (p_cents point) in
        let here :=
          {| lp_x := x; lp_y := y; lp_time := time point;
             lp_noteIndex := p_noteIndex point |} in
        match last with
        | Some lp =>
            if (time point -! lp_time lp <=! Fin 250)
               && JS.eq (lp_noteIndex lp) (p_noteIndex point)
            then {| strokeStyle := color;
                    from_x := lp_x lp; from_y := lp_y lp;
                    to_x := x; to_y := y |}
                 :: traceLoop v now pixelsPerMs rest (Some here)
            else traceLoop v now pixelsPerMs rest (Some here)
        | None => traceLoop v now pixelsPerMs rest (Some here)
        end
  end.

(** [draw()], with [now] the clock value it reads.  The result is the
    visualizer after the trim and the strokes of the pitch trace, in order;
    clearing the canvas and the background grid, which are drawn from the
    geometry alone, are outside the model. *)
Definition draw (v : PitchVisualizer) (now : num)
  : PitchVisualizer * list stroke :=
  let v' := _trim v now in
  match points v' with
  | [] => (v', [])
  | _ :: _ =>
      let pixelsPerMs := plotWidth v' /! timeWindow v' in
      (v', traceLoop v' now pixelsPerMs (points v') None)
  end.

(** [update(point)]: [now] is the clock value [update] reads, [drawNow] the
    one its call of [draw] reads. *)
Definition update (v : PitchVisualizer) (point : option sample)
    (now drawNow : num) : PitchVisualizer * list stroke :=
  match point with
  | None => (v, [])
  | Some p =>
      let pushed :=
        withPoints v
          (points v ++ [{| p_frequency := frequency p;
                           p_cents := cents p;
                           p_noteIndex := noteIndex p;
                           time := now |}]) in
      draw (_trim pushed now) drawNow
  end.

(** [clear()]. *)
Definition clear (v : PitchVisualizer) (now : num)
  : PitchVisualizer * list stroke :=
  draw (withPoints v []) now.

(** [resize()]: [clientWidth] and [clientHeight] are the canvas sizes it
    reads, [now] the clock value of its call of [draw]. *)
Definition resize (v : PitchVisualizer) (clientWidth clientHeight now : num)
  : PitchVisualizer * list stroke :=
  let plotHeight' :=
    JS.max (Fin 1) (clientHeight -! axisMarginTop v -! axisMarginBottom v) in
  draw
    {| timeWindow := timeWindow v;
       points := points v;
       axisMarginLeft := axisMarginLeft v;
       axisMarginRight := axisMarginRight v;
       axisMarginTop := axisMarginTop v;
       axisMarginBottom := axisMarginBottom v;
       width := clientWidth;
       height := clientHeight;
       plotWidth :=
         JS.max (Fin 1)
           (clientWidth -! axisMarginLeft v -! axisMarginRight v);
       plotHeight := plotHeight';
       rowHeight := plotHeight' /! NOTE_COUNT;
       isAnimating := isAnimating v |}
    now.

(** [new PitchVisualizer(canvas, {timeWindow})]: the fields as the
    constructor sets them, then its call of [resize]. *)
Definition new (timeWindow clientWidth clientHeight now : num)
  : PitchVisualizer :=
  fst (resize
         {| timeWindow := timeWindow;
            points := [];
            axisMarginLeft := Fin 64;
            axisMarginRight := Fin 12;
            axisMarginTop := Fin 12;
            axisMarginBottom := Fin 18;
            width := Fin 0;
            height := Fin 0;
            plotWidth := Fin 1;
            plotHeight := Fin 1;
            rowHeight := Fin 1;
            isAnimating := false |}
         clientWidth clientHeight now).

End Visualizer.

(* ================================================================= *)
(** ** ./pitch.js: the amplitude analyser with its rounding *)

(** [_analyseAmplitude] once more, written over the operations it uses
    rather than over exact numbers, so that it can be run in binary64 and
    reasoned about under rounding. *)
Module Rounded.

(** The operations of [_analyseAmplitude]: [buffer.length] as a number,
    [+], [*], [/], [Math.sqrt], [Math.abs] and [>]. *)
Record arithmetic (F : Type) : Type := {
  ofNat : nat -> F;
  add : F -> F -> F;
  mul : F -> F -> F;
  div : F -> F -> F;
  sqrt : F -> F;
  abs : F -> F;
  gt : F -> F -> bool
}.

Arguments ofNat {F} _ _.
Arguments add {F} _ _ _.
Arguments mul {F} _ _ _.
Arguments div {F} _ _ _.
Arguments sqrt {F} _ _.
Arguments abs {F} _ _.
Arguments gt {F} _ _ _.

Record amplitude (F : Type) : Type := {
  a_rms : F;
  a_peak : F
}.

Arguments a_rms {F} _.
Arguments a_peak {F} _.

(** The body of the loop on the pair [(sum, peak)]. *)
Definition amplitudeStep {F : Type} (A : arithmetic F)
    (acc : F * F) (sample : F) : F * F :=
  let sum := add A (fst acc) (mul A sample sample) in
  let magnitude := abs A sample in
  (sum, if gt A magnitude (snd acc) then magnitude else snd acc).

Definition _analyseAmplitude {F : Type} (A : arithmetic F)
    (buffer : list F) : amplitude F :=
  let acc := fold_left (amplitudeStep A) buffer (ofNat A 0, ofNat A 0) in
  {| a_rms := sqrt A (div A (fst acc) (ofNat A (List.length buffer)));
     a_peak := snd acc |}.

(** The numbers of the program: IEEE 754 binary64 with its own operations,
    each rounded to nearest, ties to even. *)
Definition binary64 : arithmetic PrimFloat.float :=
  {| ofNat := fun n => PrimFloat.of_uint63 (Uint63.of_Z (Z.of_nat n));
     add := PrimFloat.add;
     mul := PrimFloat.mul;
     div := PrimFloat.div;
     sqrt := PrimFloat.sqrt;
     abs := PrimFloat.abs;
     gt := fun a b => PrimFloat.ltb b a |}.

(** Finite numbers as reals, every arithmetic result rounded by [rnd];
    [Math.abs], the comparison and the length of the buffer are exact. *)
Definition rounded (rnd : R -> R) : arithmetic R :=
  {| ofNat := INR;
     add := fun a b => rnd (a + b);
     mul := fun a b => rnd (a * b);
     div := fun a b => rnd (a / b);
     sqrt := fun a => rnd (R_sqrt.sqrt a);
     abs := Rabs;
     gt := fun a b => JS.ltR b a |}.

End Rounded.

(* ================================================================= *)
(** ** Predicates used in the statements *)

Definition finiteOrNull (o : option num) : bool :=
  match o with
  | Some x => JS.isFinite x
  | None => true
  end.

(** The gain controllers the program can reach: a finite non-zero target
    level, finite [epsilon] and smoothing time, and a smoothed RMS and update
    time that are finite once they are set. *)
Definition wellFormed (c : AutoGain.AutoGainController) : Prop :=
  JS.isFinite (AutoGain.targetRms c) = true
  /\ JS.truthy (AutoGain.targetRms c) = true
  /\ JS.isFinite (AutoGain.epsilon c) = true
  /\ JS.isFinite (AutoGain.smoothingTime c) = true
  /\ finiteOrNull (AutoGain.smoothedRms c) = true
  /\ finiteOrNull (AutoGain.lastUpdateTime c) = true.

(** The stabilizer's state after a tick that saw a pitch but kept nothing of
    it: the miss counter is back at zero, everything else is as before. *)
Definition resetMisses (s : App.state) : App.state :=
  {| App.missCounter := 0;
     App.lastNoPitchLog := App.lastNoPitchLog s;
     App.lastDetectionLog := App.lastDetectionLog s;
     App.lastDetectionTime := App.lastDetectionTime s;
     App.lastFrequency := App.lastFrequency s |}.

(** The clamp of the callback. *)
Definition clampFrequency (frequency : num) : num :=
  JS.min (JS.max frequency App.MIN_VALID_FREQ) App.MAX_VALID_FREQ.

(** A tick discards its reading: nothing is rendered and the last accepted
    frequency and time stay. *)
Definition discarded (s : App.state) (timestamp : num)
    (estimation : option Pitch.reading) : Prop :=
  App.pollTick s timestamp estimation = (resetMisses s, []).

(** A tick accepts its reading: the clamped frequency and the tick's time
    become the last accepted ones, and the note of that frequency is
    rendered and sent to the visualizer. *)
Definition accepted (s : App.state) (timestamp : num)
    (estimation : option Pitch.reading) : Prop :=
  let f := clampFrequency (App.frequencyOf estimation) in
  let r := App.pollTick s timestamp estimation in
  exists noteData,
    Note.frequencyToNoteData f = Some noteData
    /\ App.lastFrequency (fst r) = Some f
    /\ App.lastDetectionTime (fst r) = timestamp
    /\ App.missCounter (fst r) = 0%nat
    /\ snd r = [App.RenderReadouts noteData;
                App.VisualizerUpdate (Note.frequency noteData)
                  (Note.cents noteData)
                  (JS.rem (Note.nearestMidi noteData +! Fin 1200) (Fin 12))].

(** ** Inputs of the examples *)

(** A frame of period two, eight samples long, and a detector for it at
    48 kHz with both thresholds at 0.1. *)
Definition squareFrame : list num :=
  [Fin 1; Fin (-1); Fin 1; Fin (-1); Fin 1; Fin (-1); Fin 1; Fin (-1)].

Definition smallDetector : Yin.YinPitchDetector :=
  Yin.new (Fin 48000) (Fin (1 / 10)) (Fin (1 / 10)) 8.

Definition smallTracker : Pitch.PitchTracker :=
  Pitch.init
    (Pitch.new 8 (Fin (1 / 10)) (Fin (1 / 10)) (Fin (1 / 100))
       Pitch.defaultAutoGainOptions)
    {| Pitch.state := Pitch.Running; Pitch.ctx_sampleRate := Fin 48000 |}.

(** What the tracker of the examples hears in the square frame: full
    confidence, unit level, and the gain held at its lower bound. *)
Definition squareReading : Pitch.reading :=
  {| Pitch.frequency := Some (Fin (480000 / 19));
     Pitch.probability := Fin 1;
     Pitch.rms := Fin 1;
     Pitch.peak := Fin 1;
     Pitch.smoothedRms := Fin 1;
     Pitch.gain := Fin (1 / 2) |}.

(** A tracker reading with the given frequency ([None] for [null]). *)
Definition readingAt (frequency : option num) : option Pitch.reading :=
  Some {| Pitch.frequency := frequency;
          Pitch.probability :=
            match frequency with Some _ => Fin (9 / 10) | None => Fin 0 end;
          Pitch.rms := Fin (1 / 10);
          Pitch.peak := Fin (2 / 10);
          Pitch.smoothedRms := Fin (1 / 10);
          Pitch.gain := Fin 2 |}.

(** The stabilizer with a frequency accepted at a given time. *)
Definition lockedAt (timestamp frequency : num) : App.state :=
  {| App.missCounter := 0;
     App.lastNoPitchLog := Fin 0;
     App.lastDetectionLog := Fin 0;
     App.lastDetectionTime := timestamp;
     App.lastFrequency := Some frequency |}.

(** A positive frequency 110 octaves below A4, 440 * 2^-110 Hz (about
    3.4e-31), which binary64 represents exactly. *)
Definition tinyFrequency : num := Fin (440 * / 2 ^ 110).

(** ** Predicates of the further properties *)

(** A sum of squares: a non-negative number, [+Infinity] or NaN. *)
Definition sumOfSquares (a : num) : Prop :=
  match a with
  | Fin r => 0 <= r
  | PInf | NaN => True
  | NInf => False
  end.

(** A non-negative finite number or NaN. *)
Definition nonNegativeOrNaN (a : num) : Prop :=
  match a with
  | Fin r => 0 <= r
  | NaN => True
  | PInf | NInf => False
  end.

(** Zero or NaN, and one or NaN. *)
Definition zeroOrNaN (a : num) : Prop :=
  match a with
  | Fin r => r = 0
  | NaN => True
  | PInf | NInf => False
  end.

Definition oneOrNaN (a : num) : Prop :=
  match a with
  | Fin r => r = 1
  | NaN => True
  | PInf | NInf => False
  end.

(** The weight the exponential smoothing keeps on the old smoothed RMS at
    clock value [now]: [exp (- dt / smoothingTime)] when the clock has
    advanced by [dt > 0] since the last update, and 0 otherwise. *)
Definition decay (st now : R) (last : option num) : R :=
  match last with
  | Some (Fin l) => if Rlt_dec l now then exp (- (now - l) / st) else 0
  | _ => 0
  end.

(** The default controller after a first measurement of RMS 1 at clock
    value 0. *)
Definition heldController : AutoGain.AutoGainController :=
  {| AutoGain.targetRms := Fin (2 / 10);
     AutoGain.smoothingTime := Fin (6 / 10);
     AutoGain.minGain := Fin (5 / 10);
     AutoGain.maxGain := Fin 50;
     AutoGain.gainSlew := Fin (1 / 10);
     AutoGain.epsilon := Fin (1 / 1000000);
     AutoGain.node :=
       {| AutoGain.gain_value := Fin 1;
          AutoGain.gain_schedule :=
            [{| AutoGain.target := Fin (5 / 10);
                AutoGain.startTime := Fin 0;
                AutoGain.timeConstant := Fin (1 / 10) |}] |};
     AutoGain.smoothedRms := Some (Fin 1);
     AutoGain.lastUpdateTime := Some (Fin 0);
     AutoGain.currentGain := Fin (5 / 10) |}.

(** The sum of the squares and the largest magnitude of a list of reals. *)
Fixpoint sumSquares (xs : list R) : R :=
  match xs with
  | [] => 0
  | x :: rest => x * x + sumSquares rest
  end.

Fixpoint maxMagnitude (xs : list R) : R :=
  match xs with
  | [] => 0
  | x :: rest => Rmax (Rabs x) (maxMagnitude rest)
  end.

(** The unit roundoff of binary64, [2^-53]. *)
Definition unitRoundoff : R := / 9007199254740992.

(** What the proofs use of rounding to the nearest binary64 number: it is
    monotone, it leaves zero and the powers of two from [2^-1022] to
    [2^1023] as they are, and on the normal range, from [2^-1022] to
    [2^1023] in magnitude, it moves a value by at most the unit roundoff
    times its magnitude. *)
Record binary64Rounding (rnd : R -> R) : Prop := {
  rnd_monotone : forall x y, x <= y -> rnd x <= rnd y;
  rnd_zero : rnd 0 = 0;
  rnd_power_of_two :
    forall e : Z, (-1022 <= e <= 1023)%Z -> rnd (powerRZ 2 e) = powerRZ 2 e;
  rnd_error :
    forall x,
      powerRZ 2 (-1022) <= Rabs x <= powerRZ 2 1023 ->
      Rabs (rnd x - x) <= unitRoundoff * Rabs x
}.

(** The range of a finite element of a [Float32Array]: zero, or a magnitude
    from [2^-149] to [2^128]. *)
Definition binary32Range (x : R) : Prop :=
  x = 0 \/ powerRZ 2 (-149) <= Rabs x <= powerRZ 2 128.

(** The binary32 number nearest to 0.1, [13421773 * 2^-27], as the program
    reads it from a [Float32Array], and a frame of 51 such samples. *)
Definition tenth : PrimFloat.float :=
  PrimFloat.div (PrimFloat.of_uint63 (Uint63.of_Z 13421773))
                (PrimFloat.of_uint63 (Uint63.of_Z 134217728)).

Definition tenthFrame : list PrimFloat.float := repeat tenth 51.

(** The trackers a program can hold: built by the constructor, then taken
    through [init], [stop] and [getPitch] in any order. *)
Inductive lifecycle : Pitch.PitchTracker -> Prop :=
| lifecycle_new (bufferSize : nat)
    (yinThreshold probabilityThreshold rmsThreshold : num)
    (autoGainOptions : AutoGain.options) :
    lifecycle (Pitch.new bufferSize yinThreshold probabilityThreshold
                 rmsThreshold autoGainOptions)
| lifecycle_init (t : Pitch.PitchTracker) (ctx : Pitch.AudioContext) :
    lifecycle t -> lifecycle (Pitch.init t ctx)
| lifecycle_stop (t : Pitch.PitchTracker) :
    lifecycle t -> lifecycle (Pitch.stop t)
| lifecycle_getPitch (t : Pitch.PitchTracker) (frame : list num)
    (currentTime now : num) :
    lifecycle t ->
    lifecycle (Pitch.res_tracker (Pitch.getPitch t frame currentTime now)).

(** An initialised tracker holds its analyser, its detector and its gain
    controller. *)
Definition equipped (t : Pitch.PitchTracker) : Prop :=
  Pitch.initialized t = true ->
  Pitch.analyser t <> None /\ Pitch.yin t <> None
  /\ Pitch.autoGain t <> None.

(** The states of the stabilizer a page can be in: the variables as the
    script initialises them, taken through sessions started and stopped and
    through ticks of the callback.  The clock value a tick reads
    ([performance.now()], or [Date.now()]) is the time elapsed since the
    page was loaded (or since 1970), which is never 0 inside a timer
    callback. *)
Inductive reachable : App.state -> Prop :=
| reachable_initial : reachable App.initial
| reachable_startListening (s : App.state) :
    reachable s -> reachable (App.startListening s)
| reachable_startPolling (s : App.state) :
    reachable s -> reachable (App.startPolling s)
| reachable_stopListening (s : App.state) :
    reachable s -> reachable (App.stopListening s)
| reachable_pollTick (s : App.state) (timestamp : num)
    (estimation : option Pitch.reading) :
    reachable s -> timestamp <> Fin 0 ->
    reachable (fst (App.pollTick s timestamp estimation)).

(** Whether the events of a tick clear the readouts. *)
Definition clearsReadouts (events : list App.event) : bool :=
  existsb (fun ev => match ev with App.ResetReadouts => true | _ => false end)
    events.

(** The last accepted frequency, when there is one, is a finite number in
    the valid range. *)
Definition lastInRange (s : App.state) : Prop :=
  match App.lastFrequency s with
  | None => True
  | Some f => exists z, f = Fin z /\ 110 <= z <= 1660
  end.

(** Time stamps in the order the clock produced them. *)
Fixpoint nondecreasing (times : list R) : Prop :=
  match times with
  | [] => True
  | t :: rest =>
      match rest with
      | [] => True
      | u :: _ => t <= u
      end /\ nondecreasing rest
  end.

(** The points carry the finite time stamps [times], in this order. *)
Definition stampedWith (points : list Visualizer.point) (times : list R)
  : Prop :=
  map Visualizer.time points = map Fin times.

(** A stroke stays between the left and the right edge of the plot. *)
Definition insidePlot (v : Visualizer.PitchVisualizer)
    (st : Visualizer.stroke) : Prop :=
  Visualizer.from_x st <! Fin 0 = false
  /\ Visualizer.from_x st >! Visualizer.plotWidth v = false
  /\ Visualizer.to_x st <! Fin 0 = false
  /\ Visualizer.to_x st >! Visualizer.plotWidth v = false.

(** A visualizer as the constructor leaves it for a 640 x 360 canvas. *)
Definition smallVisualizer : Visualizer.PitchVisualizer :=
  {| Visualizer.timeWindow := Fin 10000;
     Visualizer.points := [];
     Visualizer.axisMarginLeft := Fin 64;
     Visualizer.axisMarginRight := Fin 12;
     Visualizer.axisMarginTop := Fin 12;
     Visualizer.axisMarginBottom := Fin 18;
     Visualizer.width := Fin 640;
     Visualizer.height := Fin 360;
     Visualizer.plotWidth := Fin 564;
     Visualizer.plotHeight := Fin 330;
     Visualizer.rowHeight := Fin (330 / 12);
     Visualizer.isAnimating := false |}.

(* ================================================================= *)
(** * Properties *)

(** ** Reasoning about JavaScript numbers *)

Section NumFacts.

Lemma ltR_spec (a b : R) : JS.ltR a b = true <-> a < b.
Proof. unfold JS.ltR; destruct (Rlt_dec a b); split; intros; try easy. Qed.

Lemma ltR_false (a b : R) : JS.ltR a b = false <-> b <= a.
Proof.
  unfold JS.ltR; destruct (Rlt_dec a b); split; intros; try easy; lra.
Qed.

Lemma leR_spec (a b : R) : JS.leR a b = true <-> a <= b.
Proof. unfold JS.leR; destruct (Rle_dec a b); split; intros; try easy. Qed.

Lemma leR_false (a b : R) : JS.leR a b = false <-> b < a.
Proof.
  unfold JS.leR; destruct (Rle_dec a b); split; intros; try easy; lra.
Qed.

Lemma eqR_spec (a b : R) : JS.eqR a b = true <-> a = b.
Proof. unfold JS.eqR; destruct (Req_dec_T a b); split; intros; try easy. Qed.

Lemma eqR_false (a b : R) : JS.eqR a b = false <-> a <> b.
Proof. unfold JS.eqR; destruct (Req_dec_T a b); split; intros; try easy. Qed.

End NumFacts.

Ltac js_simpl :=
  unfold JS.gt, JS.ge, JS.neq, JS.sub, JS.ofNat, JS.ofZ, JS.bySign in *;
  cbn [JS.lt JS.le JS.eq JS.add JS.neg JS.mul JS.div JS.max JS.min JS.abs
       JS.isFinite JS.truthy JS.sqrt JS.exp JS.floor JS.round JS.rem
       JS.log2 JS.pow2 negb andb orb fst snd] in *.

(** Decide every comparison of reals in sight, then finish by linear
    arithmetic. *)
Ltac decide_reals :=
  repeat first
    [ progress js_simpl
    | progress unfold JS.ltR, JS.leR, JS.eqR in *
    | match goal with
      | |- context [Rlt_dec ?a ?b] => destruct (Rlt_dec a b)
      | |- context [Rle_dec ?a ?b] => destruct (Rle_dec a b)
      | |- context [Req_dec_T ?a ?b] => destruct (Req_dec_T a b)
      | H : context [Rlt_dec ?a ?b] |- _ => destruct (Rlt_dec a b)
      | H : context [Rle_dec ?a ?b] |- _ => destruct (Rle_dec a b)
      | H : context [Req_dec_T ?a ?b] |- _ => destruct (Req_dec_T a b)
      end ];
  try discriminate; try reflexivity; try lra.

Section NumOrder.

Lemma lt_not_NaN_l (a b : num) : a <! b = true -> a <> NaN.
Proof. destruct a; simpl; congruence. Qed.

Lemma lt_not_NaN_r (a b : num) : a <! b = true -> b <> NaN.
Proof. destruct a, b; simpl; congruence. Qed.

Lemma not_lt_le (a b : num) :
  a <> NaN -> b <> NaN -> a <! b = false -> b <=! a = true.
Proof.
  destruct a, b; simpl; try congruence; intros _ _ H.
  apply ltR_false in H. now apply leR_spec.
Qed.

Lemma gt_not_lt (a b : num) : a >! b = true -> a <! b = false.
Proof.
  unfold JS.gt. destruct a, b; simpl; try congruence.
  intros H. apply ltR_spec in H. apply ltR_false. lra.
Qed.

(** [Math.min(hi, Math.max(lo, v))] lies between [lo] and [hi] as soon as
    [lo <= hi] and [v] is a number. *)
Lemma clamp_in_range (lo hi v : num) :
  lo <=! hi = true -> v <> NaN ->
  lo <=! JS.min hi (JS.max lo v) = true
  /\ JS.min hi (JS.max lo v) <=! hi = true.
Proof.
  destruct lo, hi, v; simpl; try congruence; intros H _;
    decide_reals; split; decide_reals.
Qed.

End NumOrder.

(* ================================================================= *)
(** ** The amplitude analyser *)

Section Amplitude.

Lemma amplitude_silent_loop (n : nat) :
  fold_left Pitch.amplitudeStep (repeat (Fin 0) n) (Fin 0, Fin 0)
  = (Fin 0, Fin 0).
Proof.
  induction n as [|n IH]; [reflexivity|].
  cbn [repeat fold_left]. rewrite <- IH at 2. f_equal.
  unfold Pitch.amplitudeStep. js_simpl. rewrite Rabs_R0.
  f_equal; [f_equal; lra | decide_reals].
Qed.

Lemma analyseAmplitude_silent (n : nat) :
  (0 < n)%nat ->
  Pitch._analyseAmplitude (repeat (Fin 0) n)
  = {| Pitch.a_rms := Fin 0; Pitch.a_peak := Fin 0 |}.
Proof.
  intros Hn. unfold Pitch._analyseAmplitude.
  rewrite amplitude_silent_loop, repeat_length. js_simpl.
  assert (Hpos : 0 < INR n) by (apply lt_0_INR; lia).
  assert (Hz : 0 / INR n = 0) by (unfold Rdiv; lra).
  assert (He : JS.eqR (INR n) 0 = false) by (apply eqR_false; lra).
  rewrite He. cbn [JS.sqrt]. rewrite Hz.
  assert (Hl : JS.ltR 0 0 = false) by (apply ltR_false; lra).
  rewrite Hl, sqrt_0. reflexivity.
Qed.

(** Why the frame must not be empty: the mean of no samples is 0/0. *)
Lemma analyseAmplitude_empty :
  Pitch._analyseAmplitude []
  = {| Pitch.a_rms := NaN; Pitch.a_peak := Fin 0 |}.
Proof.
  unfold Pitch._analyseAmplitude. cbn [fold_left List.length fst snd].
  unfold JS.ofNat. cbn [INR JS.div].
  rewrite (proj2 (eqR_spec 0 0) eq_refl). unfold JS.bySign.
  rewrite (proj2 (ltR_false 0 0)) by lra. reflexivity.
Qed.

End Amplitude.

(* ================================================================= *)
(** ** The amplitude analyser under rounding *)

Section RoundingFacts.

Lemma unitRoundoff_pos : 0 < unitRoundoff.
Proof. unfold unitRoundoff. apply Rinv_0_lt_compat. lra. Qed.

Lemma power_of_two_pos (e : Z) : 0 < powerRZ 2 e.
Proof. apply powerRZ_lt. lra. Qed.

Lemma power_of_two_le (a b : Z) :
  (a <= b)%Z -> powerRZ 2 a <= powerRZ 2 b.
Proof.
  intros H. rewrite !powerRZ_Rpower by lra.
  apply Rle_Rpower; [lra | now apply IZR_le].
Qed.

Lemma power_of_two_mult (a b : Z) :
  powerRZ 2 a * powerRZ 2 b = powerRZ 2 (a + b).
Proof. symmetry. apply powerRZ_add. lra. Qed.

Lemma power_of_two_32 : powerRZ 2 32 = 4294967296.
Proof. rewrite <- Zpower_pos_powerRZ. reflexivity. Qed.

Lemma maxMagnitude_nonneg (xs : list R) : 0 <= maxMagnitude xs.
Proof.
  destruct xs as [|x xs]; cbn; [lra|].
  apply Rle_trans with (Rabs x); [apply Rabs_pos | apply Rmax_l].
Qed.

(** [m] roundings in a row enlarge a value by less than a factor
    [1 + 2 m u], as long as that factor is at most 2. *)
Lemma roundoff_growth (m : nat) :
  2 * INR m * unitRoundoff <= 1 ->
  (1 + unitRoundoff) ^ m <= 1 + 2 * INR m * unitRoundoff.
Proof.
  pose proof unitRoundoff_pos as Hu.
  induction m as [|m IH]; intros Hm.
  - cbn. lra.
  - rewrite S_INR in *. pose proof (pos_INR m) as Hpos.
    assert (H : (1 + unitRoundoff) ^ m <= 1 + 2 * INR m * unitRoundoff)
      by (apply IH; nra).
    cbn [pow]. nra.
Qed.

Lemma roundoff_growth_2 (m : nat) :
  INR m <= 4294967296 + 3 -> (1 + unitRoundoff) ^ m <= 2.
Proof.
  intros Hm. pose proof (pos_INR m) as Hpos.
  assert (H : 2 * INR m * unitRoundoff <= 1).
  { unfold unitRoundoff. lra. }
  apply Rle_trans with (1 + 2 * INR m * unitRoundoff);
    [now apply roundoff_growth | lra].
Qed.

Lemma roundoff_ge_1 (m : nat) : 1 <= (1 + unitRoundoff) ^ m.
Proof. apply pow_R1_Rle. pose proof unitRoundoff_pos. lra. Qed.

Lemma roundoff_le (a b : nat) :
  (a <= b)%nat -> (1 + unitRoundoff) ^ a <= (1 + unitRoundoff) ^ b.
Proof. apply Rle_pow. pose proof unitRoundoff_pos. lra. Qed.

End RoundingFacts.

Section RoundedAmplitude.

Variable rnd : R -> R.
Hypothesis rounding : binary64Rounding rnd.

(** Rounding a non-negative value that is zero or at least a power of two,
    below the overflow range: the result is again zero or at least that
    power of two, and larger than the value by the unit roundoff at most. *)
Lemma rnd_bounds (a : Z) (t : R) :
  (-1022 <= a <= 1023)%Z ->
  t = 0 \/ powerRZ 2 a <= t ->
  t <= powerRZ 2 1023 ->
  (rnd t = 0 \/ powerRZ 2 a <= rnd t)
  /\ 0 <= rnd t <= t * (1 + unitRoundoff).
Proof.
  intros Ha [Ht | Ht] Hhi.
  - subst t. rewrite (rnd_zero rnd rounding). split; [now left | lra].
  - pose proof (power_of_two_pos a) as Hpos.
    assert (Hlow : powerRZ 2 a <= rnd t).
    { rewrite <- (rnd_power_of_two rnd rounding a Ha).
      now apply (rnd_monotone rnd rounding). }
    split; [now right|]. split; [lra|].
    assert (Habs : Rabs t = t) by (apply Rabs_right; lra).
    pose proof (rnd_error rnd rounding t) as He. rewrite Habs in He.
    assert (Hr : Rabs (rnd t - t) <= unitRoundoff * t).
    { apply He. split; [|exact Hhi].
      apply Rle_trans with (powerRZ 2 a); [apply power_of_two_le; lia | exact Ht]. }
    pose proof (Rle_abs (rnd t - t)). lra.
Qed.

(** The square of a binary32 sample, rounded. *)
Lemma rounded_square (x : R) :
  binary32Range x ->
  (rnd (x * x) = 0 \/ powerRZ 2 (-298) <= rnd (x * x))
  /\ 0 <= rnd (x * x) <= Rabs x * Rabs x * (1 + unitRoundoff).
Proof.
  intros Hx.
  assert (Hsq : x * x = Rabs x * Rabs x).
  { unfold Rabs. destruct (Rcase_abs x); lra. }
  rewrite Hsq. apply rnd_bounds; [lia| |].
  - destruct Hx as [-> | [Hlo _]].
    + left. rewrite Rabs_R0. lra.
    + right. change (-298)%Z with (-149 + -149)%Z.
      rewrite <- power_of_two_mult.
      pose proof (power_of_two_pos (-149)). nra.
  - apply Rle_trans with (powerRZ 2 256); [|apply power_of_two_le; lia].
    change 256%Z with (128 + 128)%Z. rewrite <- power_of_two_mult.
    pose proof (Rabs_pos x). pose proof (power_of_two_pos 128).
    destruct Hx as [-> | [_ Hhi]]; [rewrite Rabs_R0|]; nra.
Qed.

(** The loop of [_analyseAmplitude] on binary32 samples.  After [k] samples
    the running peak [p] is the largest magnitude seen, and the running sum
    is zero or at least [2^-298] and at most [k * p^2 * (1 + u)^(k + 1)]:
    it neither underflows nor overflows. *)
Lemma rounded_loop (xs : list R) :
  Forall binary32Range xs ->
  forall (k : nat) (s p : R),
    INR (k + List.length xs) <= 4294967296 ->
    0 <= p <= powerRZ 2 128 ->
    s = 0 \/ powerRZ 2 (-298) <= s ->
    s <= INR k * (p * p) * (1 + unitRoundoff) ^ (k + 1) ->
    exists s' p',
      fold_left (Rounded.amplitudeStep (Rounded.rounded rnd)) xs (s, p)
      = (s', p')
      /\ p' = Rmax p (maxMagnitude xs)
      /\ 0 <= p' <= powerRZ 2 128
      /\ (s' = 0 \/ powerRZ 2 (-298) <= s')
      /\ s' <= INR (k + List.length xs) * (p' * p')
               * (1 + unitRoundoff) ^ (k + List.length xs + 1).
Proof.
  pose proof unitRoundoff_pos as Hu.
  induction 1 as [|x xs Hx _ IH]; intros k s p Hlen Hp Hs Hbound.
  - exists s, p. cbn [fold_left List.length maxMagnitude].
    rewrite Nat.add_0_r. rewrite Rmax_left by lra. auto.
  - cbn [fold_left List.length]. cbn [List.length] in Hlen.
    unfold Rounded.amplitudeStep at 2.
    cbn [fst snd Rounded.add Rounded.mul Rounded.abs Rounded.gt
         Rounded.rounded].
    set (m := Rabs x).
    set (p1 := if JS.ltR p m then m else p).
    assert (Hm : 0 <= m) by apply Rabs_pos.
    assert (Hmhi : m <= powerRZ 2 128).
    { destruct Hx as [-> | [_ H]]; [|exact H].
      subst m. rewrite Rabs_R0. left. apply power_of_two_pos. }
    assert (Hp1 : p1 = Rmax p m).
    { subst p1. destruct (Rlt_dec p m) as [Hlt | Hge].
      - rewrite (proj2 (ltR_spec _ _) Hlt). rewrite Rmax_right; lra.
      - rewrite (proj2 (ltR_false _ _)) by lra. rewrite Rmax_left; lra. }
    assert (Hpp : p <= p1) by (rewrite Hp1; apply Rmax_l).
    assert (Hmp : m <= p1) by (rewrite Hp1; apply Rmax_r).
    assert (Hp1hi : p1 <= powerRZ 2 128).
    { rewrite Hp1. apply Rmax_lub; lra. }
    destruct (rounded_square x Hx) as [Hq0 [Hq Hqhi]]. fold m in Hqhi.
    set (q := rnd (x * x)) in *.
    assert (Hs0 : 0 <= s).
    { destruct Hs as [-> | Hs]; [lra|].
      pose proof (power_of_two_pos (-298)). lra. }
    assert (Hk : 0 <= INR k) by apply pos_INR.
    assert (Hk1 : INR (S k) <= 4294967296).
    { apply Rle_trans with (INR (k + S (List.length xs))); [|exact Hlen].
      apply le_INR. lia. }
    assert (Hg1 : 1 <= (1 + unitRoundoff) ^ (k + 1)) by apply roundoff_ge_1.
    assert (Hg2 : (1 + unitRoundoff) ^ (k + 1) <= 2).
    { apply roundoff_growth_2. replace (k + 1)%nat with (S k) by lia. lra. }
    assert (Hsq : p * p <= p1 * p1) by nra.
    assert (Hmsq : m * m <= p1 * p1) by nra.
    assert (Hp1sq : 0 <= p1 * p1) by nra.
    (* the sum before it is rounded *)
    assert (Ht : s + q <= INR (S k) * (p1 * p1) * (1 + unitRoundoff) ^ (k + 1)).
    { rewrite S_INR.
      assert (H1 : s <= INR k * (p1 * p1) * (1 + unitRoundoff) ^ (k + 1)).
      { apply Rle_trans with (1 := Hbound).
        apply Rmult_le_compat_r; [lra|].
        apply Rmult_le_compat_l; assumption. }
      assert (H2 : q <= p1 * p1 * (1 + unitRoundoff) ^ (k + 1)).
      { apply Rle_trans with (m * m * (1 + unitRoundoff)); [lra|].
        apply Rle_trans with (p1 * p1 * (1 + unitRoundoff)).
        - apply Rmult_le_compat_r; lra.
        - apply Rmult_le_compat_l; [lra|].
          replace (1 + unitRoundoff) with ((1 + unitRoundoff) ^ 1) at 1
            by (cbn; lra).
          apply roundoff_le. lia. }
      lra. }
    assert (Hthi : s + q <= powerRZ 2 1023).
    { apply Rle_trans with (1 := Ht).
      apply Rle_trans with (powerRZ 2 32 * powerRZ 2 256 * powerRZ 2 1).
      - assert (E1 : powerRZ 2 1 = 2) by exact (powerRZ_1 2).
        rewrite E1, power_of_two_32.
        assert (Hp1sq' : p1 * p1 <= powerRZ 2 256).
        { change 256%Z with (128 + 128)%Z. rewrite <- power_of_two_mult.
          pose proof (power_of_two_pos 128). nra. }
        pose proof (power_of_two_pos 256) as H256.
        pose proof (pos_INR (S k)) as HSk.
        apply Rle_trans with (4294967296 * powerRZ 2 256
                              * (1 + unitRoundoff) ^ (k + 1)).
        + apply Rmult_le_compat_r; [lra|].
          apply Rmult_le_compat; lra.
        + apply Rmult_le_compat_l; [nra | exact Hg2].
      - rewrite !power_of_two_mult. apply power_of_two_le. lia. }
    assert (Htlo : s + q = 0 \/ powerRZ 2 (-298) <= s + q).
    { destruct Hs as [-> | Hs]; destruct Hq0 as [Hq0 | Hq0].
      - left. lra.
      - right. lra.
      - right. lra.
      - right. lra. }
    destruct (rnd_bounds (-298) (s + q) ltac:(lia) Htlo Hthi)
      as [Hr0 [Hr Hrhi]].
    destruct (IH (S k) (rnd (s + q)) p1) as (s' & p' & E & Ep & Hp' & Hs' & Hb').
    + replace (S k + List.length xs)%nat
        with (k + S (List.length xs))%nat by lia. exact Hlen.
    + split; [lra | exact Hp1hi].
    + exact Hr0.
    + apply Rle_trans with (1 := Hrhi).
      apply Rle_trans
        with (INR (S k) * (p1 * p1) * (1 + unitRoundoff) ^ (k + 1)
              * (1 + unitRoundoff)).
      * apply Rmult_le_compat_r; lra.
      * replace (S k + 1)%nat with (S (k + 1)) by lia. cbn [pow]. lra.
    + exists s', p'. split; [exact E|]. split.
      * rewrite Ep, Hp1. cbn [maxMagnitude]. fold m.
        now rewrite Rmax_assoc.
      * split; [exact Hp'|]. split; [exact Hs'|].
        replace (k + S (List.length xs))%nat
          with (S k + List.length xs)%nat by lia. exact Hb'.
Qed.

(** C10 (as the code has it).  For a non-empty frame of at most [2^32]
    finite binary32 samples, computed in binary64: [rms] and [peak] are
    both non-negative, and [rms] is at most [peak * (1 + u)^(n + 3)], where
    [n] is the length of the frame and [u = 2^-53] the unit roundoff.  The
    RMS can exceed the peak, but only by the rounding of the operations
    that compute it. *)
Theorem rms_within_rounding_of_peak (buffer : list R) :
  buffer <> [] ->
  (Z.of_nat (List.length buffer) <= 2 ^ 32)%Z ->
  Forall binary32Range buffer ->
  let a := Rounded._analyseAmplitude (Rounded.rounded rnd) buffer in
  0 <= Rounded.a_rms a
  /\ 0 <= Rounded.a_peak a
  /\ Rounded.a_rms a
     <= Rounded.a_peak a * (1 + unitRoundoff) ^ (List.length buffer + 3).
Proof.
  intros Hne Hlen Hall a. pose proof unitRoundoff_pos as Hu.
  set (n := List.length buffer) in *.
  assert (Hn : INR n <= 4294967296).
  { rewrite INR_IZR_INZ. apply IZR_le in Hlen. exact Hlen. }
  assert (Hn1 : 1 <= INR n).
  { change 1 with (INR 1). apply le_INR. subst n.
    destruct buffer; [congruence | cbn; lia]. }
  destruct (rounded_loop buffer Hall 0 0 0) as (s & p & E & _ & Hp & Hs & Hb).
  { exact Hn. }
  { pose proof (power_of_two_pos 128). lra. }
  { now left. }
  { cbn [INR]. lra. }
  fold n in Hb. cbn [Nat.add] in Hb.
  subst a. unfold Rounded._analyseAmplitude.
  cbn [Rounded.ofNat Rounded.sqrt Rounded.div Rounded.rounded
       Rounded.a_rms Rounded.a_peak].
  change (INR 0) with 0. rewrite E. cbn [fst snd]. fold n.
  assert (Hs0 : 0 <= s).
  { destruct Hs as [-> | Hs]; [lra|].
    pose proof (power_of_two_pos (-298)). lra. }
  assert (Hpp : 0 <= p * p) by nra.
  assert (Hp256 : p * p <= powerRZ 2 256).
  { change 256%Z with (128 + 128)%Z. rewrite <- power_of_two_mult.
    pose proof (power_of_two_pos 128). nra. }
  assert (Hinv : / 4294967296 <= / INR n <= 1).
  { split.
    - apply Rinv_le_contravar; lra.
    - rewrite <- Rinv_1. apply Rinv_le_contravar; lra. }
  assert (Hg : forall j, (j <= 3)%nat -> (1 + unitRoundoff) ^ (n + j) <= 2).
  { intros j Hj. apply roundoff_growth_2. rewrite plus_INR.
    assert (INR j <= INR 3) by (apply le_INR; lia).
    cbn [INR] in *. lra. }
  (* the mean of the squares *)
  assert (Hmean : s / INR n <= p * p * (1 + unitRoundoff) ^ (n + 1)).
  { apply Rmult_le_reg_r with (INR n); [lra|].
    unfold Rdiv. rewrite Rmult_assoc, Rinv_l by lra. lra. }
  assert (Hmean0 : s / INR n = 0 \/ powerRZ 2 (-330) <= s / INR n).
  { destruct Hs as [-> | Hs]; [left; unfold Rdiv; lra|]. right.
    change (-330)%Z with (-298 + - (32))%Z.
    rewrite <- power_of_two_mult, powerRZ_neg', power_of_two_32.
    pose proof (power_of_two_pos (-298)). unfold Rdiv. nra. }
  assert (Hmeanhi : s / INR n <= powerRZ 2 1023).
  { apply Rle_trans with (1 := Hmean).
    apply Rle_trans with (powerRZ 2 256 * powerRZ 2 1).
    - assert (E1 : powerRZ 2 1 = 2) by exact (powerRZ_1 2). rewrite E1.
      pose proof (Hg 1%nat ltac:(lia)). pose proof (roundoff_ge_1 (n + 1)).
      apply Rmult_le_compat; lra.
    - rewrite power_of_two_mult. apply power_of_two_le. lia. }
  destruct (rnd_bounds (-330) (s / INR n) ltac:(lia) Hmean0 Hmeanhi)
    as [Hd0 [Hd Hdhi]].
  set (d := rnd (s / INR n)) in *.
  assert (Hd2 : d <= p * p * (1 + unitRoundoff) ^ (n + 2)).
  { apply Rle_trans with (1 := Hdhi).
    replace (n + 2)%nat with (S (n + 1)) by lia. cbn [pow].
    apply Rle_trans
      with (p * p * (1 + unitRoundoff) ^ (n + 1) * (1 + unitRoundoff)).
    - apply Rmult_le_compat_r; lra.
    - lra. }
  (* its square root *)
  set (g := (1 + unitRoundoff) ^ (n + 2)) in *.
  assert (Hg1 : 1 <= g) by apply roundoff_ge_1.
  assert (Hg2 : g <= 2) by (apply (Hg 2%nat); lia).
  assert (Hroot : sqrt d <= p * g).
  { rewrite <- (sqrt_square (p * g)) by nra.
    apply sqrt_le_1_alt. apply Rle_trans with (1 := Hd2). nra. }
  assert (Hroot0 : sqrt d = 0 \/ powerRZ 2 (-165) <= sqrt d).
  { destruct Hd0 as [Hd0 | Hd0]; [left; rewrite Hd0; apply sqrt_0|].
    right. pose proof (power_of_two_pos (-165)) as H165.
    rewrite <- (sqrt_square (powerRZ 2 (-165))) by lra.
    apply sqrt_le_1_alt. rewrite power_of_two_mult. exact Hd0. }
  assert (Hroothi : sqrt d <= powerRZ 2 1023).
  { apply Rle_trans with (1 := Hroot).
    apply Rle_trans with (powerRZ 2 128 * powerRZ 2 1).
    - assert (E1 : powerRZ 2 1 = 2) by exact (powerRZ_1 2). rewrite E1.
      apply Rmult_le_compat; lra.
    - rewrite power_of_two_mult. apply power_of_two_le. lia. }
  destruct (rnd_bounds (-165) (sqrt d) ltac:(lia) Hroot0 Hroothi)
    as [_ [Hr Hrhi]].
  split; [exact Hr|]. split; [lra|].
  apply Rle_trans with (1 := Hrhi).
  replace (n + 3)%nat with (S (n + 2)) by lia. cbn [pow]. fold g.
  apply Rle_trans with (p * g * (1 + unitRoundoff)).
  - apply Rmult_le_compat_r; lra.
  - lra.
Qed.

End RoundedAmplitude.

Section RoundedAmplitudeExamples.

(** Exact arithmetic is one of the roundings the hypotheses admit. *)
Lemma exact_rounding : binary64Rounding (fun x => x).
Proof.
  constructor.
  - intros x y H. exact H.
  - reflexivity.
  - reflexivity.
  - intros x _. replace (x - x) with 0 by lra. rewrite Rabs_R0.
    apply Rmult_le_pos; [left; apply unitRoundoff_pos | apply Rabs_pos].
Qed.

Lemma binary32Range_integer (x : R) :
  1 <= Rabs x <= 4294967296 -> binary32Range x.
Proof.
  intros [Hlo Hhi]. right. split.
  - apply Rle_trans with (powerRZ 2 0); [apply power_of_two_le; lia|].
    exact Hlo.
  - apply Rle_trans with (powerRZ 2 32); [|apply power_of_two_le; lia].
    rewrite power_of_two_32. exact Hhi.
Qed.

Lemma rms_within_rounding_of_peak_witness :
  let a := Rounded._analyseAmplitude (Rounded.rounded (fun x => x)) [1; -2] in
  0 <= Rounded.a_rms a
  /\ 0 <= Rounded.a_peak a
  /\ Rounded.a_rms a
     <= Rounded.a_peak a * (1 + unitRoundoff) ^ (List.length [1; -2] + 3).
Proof.
  apply (rms_within_rounding_of_peak (fun x => x) exact_rounding [1; -2]).
  - discriminate.
  - cbn. lia.
  - apply Forall_cons; [|apply Forall_cons; [|apply Forall_nil]];
      apply binary32Range_integer.
    + rewrite Rabs_right; lra.
    + rewrite Rabs_left; lra.
Defined.

(** C10, counterexample.  A frame of 51 samples that all hold the binary32
    number nearest to 0.1, as the program computes on it in binary64: the
    peak is the sample value, 0.10000000149011612, and the RMS is the next
    binary64 number above it, 0.10000000149011613, so that [rms <= peak]
    fails. *)
Lemma rms_exceeds_peak_in_binary64 :
  let a := Rounded._analyseAmplitude Rounded.binary64 tenthFrame in
  Rounded.a_peak a = tenth
  /\ Rounded.a_rms a = PrimFloat.next_up tenth
  /\ PrimFloat.ltb (Rounded.a_peak a) (Rounded.a_rms a) = true
  /\ PrimFloat.leb (Rounded.a_rms a) (Rounded.a_peak a) = false.
Proof. vm_compute. repeat split. Qed.

(** Without rounding the loop is the loop of the exact model. *)
Lemma unrounded_loop (xs : list R) :
  forall s p : R,
    fold_left Pitch.amplitudeStep (map Fin xs) (Fin s, Fin p)
    = (let acc := fold_left
                    (Rounded.amplitudeStep (Rounded.rounded (fun x => x)))
                    xs (s, p) in
       (Fin (fst acc), Fin (snd acc))).
Proof.
  induction xs as [|x xs IH]; intros s p; cbn [map fold_left]; [reflexivity|].
  change (Rounded.amplitudeStep (Rounded.rounded (fun x => x)) (s, p) x)
    with (s + x * x, if JS.ltR p (Rabs x) then Rabs x else p).
  unfold Pitch.amplitudeStep at 2. js_simpl.
  destruct (JS.ltR p (Rabs x)); apply IH.
Qed.

Lemma unrounded_sum_nonneg (xs : list R) :
  forall s p : R,
    0 <= s ->
    0 <= fst (fold_left
                (Rounded.amplitudeStep (Rounded.rounded (fun x => x)))
                xs (s, p)).
Proof.
  induction xs as [|x xs IH]; intros s p Hs; cbn [fold_left fst];
    [exact Hs|].
  change (Rounded.amplitudeStep (Rounded.rounded (fun x => x)) (s, p) x)
    with (s + x * x, if JS.ltR p (Rabs x) then Rabs x else p).
  apply IH. nra.
Qed.

(** On a non-empty frame of finite samples the exact model of
    [_analyseAmplitude] is the rounded one with nothing rounded. *)
Lemma analyseAmplitude_unrounded (xs : list R) :
  xs <> [] ->
  let a := Rounded._analyseAmplitude (Rounded.rounded (fun x => x)) xs in
  Pitch._analyseAmplitude (map Fin xs)
  = {| Pitch.a_rms := Fin (Rounded.a_rms a);
       Pitch.a_peak := Fin (Rounded.a_peak a) |}.
Proof.
  intros Hne a. subst a.
  pose proof (unrounded_sum_nonneg xs 0 0 (Rle_refl 0)) as Hsum.
  unfold Pitch._analyseAmplitude, Rounded._analyseAmplitude.
  rewrite unrounded_loop, length_map.
  cbn [Rounded.ofNat Rounded.sqrt Rounded.div Rounded.rounded
       Rounded.a_rms Rounded.a_peak]. change (INR 0) with 0.
  set (acc := fold_left _ xs (0, 0)) in *. cbn zeta. cbn [fst snd].
  unfold JS.ofNat.
  assert (Hn : 0 < INR (List.length xs)).
  { apply lt_0_INR. destruct xs; [congruence | cbn; lia]. }
  cbn [JS.div]. rewrite (proj2 (eqR_false _ _)) by lra. cbn [JS.sqrt].
  assert (Hq : 0 <= fst acc / INR (List.length xs)).
  { apply Rmult_le_pos; [exact Hsum|]. left. now apply Rinv_0_lt_compat. }
  rewrite (proj2 (ltR_false _ _)) by lra. reflexivity.
Qed.

(** The running peak is the largest magnitude seen, whatever the rounding
    of the sum. *)
Lemma rounded_loop_peak (rnd : R -> R) (xs : list R) :
  forall s p : R,
    0 <= p ->
    snd (fold_left (Rounded.amplitudeStep (Rounded.rounded rnd)) xs (s, p))
    = Rmax p (maxMagnitude xs).
Proof.
  induction xs as [|x xs IH]; intros s p Hp; cbn [fold_left maxMagnitude snd].
  - rewrite Rmax_left; lra.
  - unfold Rounded.amplitudeStep at 2.
    cbn [fst snd Rounded.add Rounded.mul Rounded.abs Rounded.gt
         Rounded.rounded].
    pose proof (Rabs_pos x) as Ha. rewrite Rmax_assoc.
    destruct (Rlt_dec p (Rabs x)) as [Hlt | Hge].
    + rewrite (proj2 (ltR_spec _ _) Hlt), IH by exact Ha.
      f_equal. rewrite Rmax_right; lra.
    + rewrite (proj2 (ltR_false _ _)) by lra. rewrite IH by exact Hp.
      f_equal. rewrite Rmax_left; lra.
Qed.

(** X11.  On a frame of finite samples the peak the analyser returns is
    exactly the largest absolute value of the samples (0 for the empty
    frame): no rounding enters it, whatever the rounding of the sum of
    squares does to the RMS. *)
Theorem analyseAmplitude_peak_exact (rnd : R -> R) (buffer : list R) :
  Rounded.a_peak (Rounded._analyseAmplitude (Rounded.rounded rnd) buffer)
  = maxMagnitude buffer.
Proof.
  unfold Rounded._analyseAmplitude. cbn [Rounded.a_peak Rounded.ofNat
    Rounded.rounded]. change (INR 0) with 0.
  rewrite rounded_loop_peak by lra.
  apply Rmax_right, maxMagnitude_nonneg.
Qed.

End RoundedAmplitudeExamples.

Section AmplitudeClaims.

(** C7.  On an all-zero frame the analyser returns [rms = 0] and
    [peak = 0]; a running tracker whose [rmsThreshold] is positive then
    returns a reading with a null frequency and probability 0 through the
    RMS gate, and makes no call to the YIN estimator. *)
Theorem silent_frame_stops_at_rms_gate
    (t : Pitch.PitchTracker) (n : nat) (currentTime now : num) :
  (0 < n)%nat ->
  Pitch.initialized t = true ->
  Pitch.analyser t <> None ->
  Pitch.isRunning t = true ->
  Fin 0 <! Pitch.rmsThreshold t = true ->
  let frame := repeat (Fin 0) n in
  Pitch._analyseAmplitude frame
  = {| Pitch.a_rms := Fin 0; Pitch.a_peak := Fin 0 |}
  /\ exists r,
      Pitch.res_outcome (Pitch.getPitch t frame currentTime now)
      = Pitch.Returned (Some r)
      /\ Pitch.frequency r = None
      /\ Pitch.probability r = Fin 0
      /\ Pitch.rms r = Fin 0
      /\ Pitch.peak r = Fin 0
      /\ ~ In Pitch.YinGetPitch
             (Pitch.res_calls (Pitch.getPitch t frame currentTime now)).
Proof.
  intros Hn Hinit Han Hrun Hth frame.
  assert (Ha := analyseAmplitude_silent n Hn). fold frame in Ha.
  split; [exact Ha|].
  unfold Pitch.getPitch. rewrite Hinit, Hrun, Ha.
  destruct (Pitch.analyser t) as [an|]; [|congruence].
  cbn [negb orb Pitch.a_rms Pitch.a_peak].
  destruct (Pitch.autoGain t) as [g|].
  - destruct (AutoGain.update g currentTime (Fin 0)) as [m g'].
    rewrite Hth. eexists. cbn. repeat split.
    intros [H|[H|[]]]; discriminate.
  - rewrite Hth. eexists. cbn. repeat split.
    intros [H|[]]; discriminate.
Qed.

Lemma silent_frame_stops_at_rms_gate_witness :
  let t := Pitch.init Pitch.newDefault
             {| Pitch.state := Pitch.Running;
                Pitch.ctx_sampleRate := Fin 48000 |} in
  let frame := repeat (Fin 0) 2048 in
  Pitch._analyseAmplitude frame
  = {| Pitch.a_rms := Fin 0; Pitch.a_peak := Fin 0 |}
  /\ exists r,
      Pitch.res_outcome (Pitch.getPitch t frame (Fin 0) (Fin 0))
      = Pitch.Returned (Some r)
      /\ Pitch.frequency r = None
      /\ Pitch.probability r = Fin 0
      /\ Pitch.rms r = Fin 0
      /\ Pitch.peak r = Fin 0
      /\ ~ In Pitch.YinGetPitch
             (Pitch.res_calls (Pitch.getPitch t frame (Fin 0) (Fin 0))).
Proof.
  intros t.
  apply (silent_frame_stops_at_rms_gate t 2048 (Fin 0) (Fin 0)).
  - lia.
  - reflexivity.
  - discriminate.
  - reflexivity.
  - cbn. apply ltR_spec. lra.
Defined.

End AmplitudeClaims.

(* ================================================================= *)
(** ** The automatic gain controller *)

Section AutoGainFacts.

Lemma finite_inv (a : num) : JS.isFinite a = true -> exists r, a = Fin r.
Proof. destruct a; try discriminate. eauto. Qed.

Lemma finiteOrNull_inv (o : option num) :
  finiteOrNull o = true -> o = None \/ exists r, o = Some (Fin r).
Proof.
  destruct o as [a|]; [|auto]. intros H. apply finite_inv in H.
  destruct H as [r ->]. eauto.
Qed.

(** On a finite measurement the smoothed RMS stays finite, and [update]
    stores and returns the clamped quotient. *)
Lemma update_finite (c : AutoGain.AutoGainController) (now rms : R) :
  wellFormed c ->
  exists s,
    AutoGain.update c (Fin now) (Fin rms)
    = ({| AutoGain.m_smoothedRms := Fin s;
          AutoGain.m_gain :=
            AutoGain._clamp c
              (AutoGain.targetRms c /! (Fin s +! AutoGain.epsilon c)) |},
       {| AutoGain.targetRms := AutoGain.targetRms c;
          AutoGain.smoothingTime := AutoGain.smoothingTime c;
          AutoGain.minGain := AutoGain.minGain c;
          AutoGain.maxGain := AutoGain.maxGain c;
          AutoGain.gainSlew := AutoGain.gainSlew c;
          AutoGain.epsilon := AutoGain.epsilon c;
          AutoGain.node :=
            AutoGain.setTargetAtTime (AutoGain.node c)
              (AutoGain._clamp c
                 (AutoGain.targetRms c /! (Fin s +! AutoGain.epsilon c)))
              (Fin now) (AutoGain.gainSlew c);
          AutoGain.smoothedRms := Some (Fin s);
          AutoGain.lastUpdateTime := Some (Fin now);
          AutoGain.currentGain :=
            AutoGain._clamp c
              (AutoGain.targetRms c /! (Fin s +! AutoGain.epsilon c)) |}).
Proof.
  intros (_ & _ & _ & Hst & Hs & Hl).
  unfold AutoGain.update. cbn [JS.isFinite negb].
  apply finite_inv in Hst. destruct Hst as [st Est]. rewrite Est.
  apply finiteOrNull_inv in Hs. destruct Hs as [-> | [s ->]].
  { exists rms. reflexivity. }
  apply finiteOrNull_inv in Hl. destruct Hl as [-> | [l ->]].
  - decide_reals. eexists; reflexivity.
  - decide_reals; eexists; reflexivity.
Qed.

End AutoGainFacts.

Section AutoGainInvariant.

Lemma max_finite (a b : num) :
  JS.isFinite a = true -> JS.isFinite b = true ->
  JS.isFinite (JS.max a b) = true.
Proof.
  destruct a, b; try discriminate. intros _ _. simpl.
  destruct (JS.ltR r r0); reflexivity.
Qed.

(** A controller built from finite options with a non-zero target is well
    formed, *)
Lemma new_wellFormed (o : AutoGain.options) :
  JS.isFinite (AutoGain.opt_targetRms o) = true ->
  JS.truthy (AutoGain.opt_targetRms o) = true ->
  JS.isFinite (AutoGain.opt_epsilon o) = true ->
  JS.isFinite (AutoGain.opt_smoothingTime o) = true ->
  wellFormed (AutoGain.new o).
Proof.
  intros Ht Hnz He Hs. unfold wellFormed, AutoGain.new. cbn.
  repeat split; trivial. now apply max_finite.
Qed.

(** and every [update] at a finite clock value keeps it so. *)
Lemma update_wellFormed (c : AutoGain.AutoGainController) (now rms : num) :
  JS.isFinite now = true ->
  wellFormed c ->
  wellFormed (snd (AutoGain.update c now rms)).
Proof.
  intros Hnow Hwf.
  destruct (JS.isFinite rms) eqn:Hrms.
  - apply finite_inv in Hnow. destruct Hnow as [n ->].
    apply finite_inv in Hrms. destruct Hrms as [r ->].
    destruct (update_finite c n r Hwf) as [s ->].
    destruct Hwf as (H1 & H2 & H3 & H4 & _ & _).
    unfold wellFormed. cbn. repeat split; assumption || reflexivity.
  - unfold AutoGain.update. rewrite Hrms. exact Hwf.
Qed.

Lemma defaults_wellFormed : wellFormed (AutoGain.new AutoGain.defaults).
Proof.
  apply new_wellFormed; cbn; try reflexivity.
  apply Bool.negb_true_iff, eqR_false. lra.
Qed.

(** Why the target level must not be zero: with [targetRms] and [epsilon]
    both 0, a silent frame makes the desired gain 0/0, and the clamp passes
    NaN through. *)
Lemma update_gain_NaN_zero_target :
  let c := AutoGain.new
             {| AutoGain.opt_targetRms := Fin 0;
                AutoGain.opt_smoothingTime := Fin (6 / 10);
                AutoGain.opt_minGain := Fin (5 / 10);
                AutoGain.opt_maxGain := Fin 50;
                AutoGain.opt_gainSlew := Fin (1 / 10);
                AutoGain.opt_epsilon := Fin 0 |} in
  AutoGain.m_gain (fst (AutoGain.update c (Fin 0) (Fin 0))) = NaN.
Proof.
  cbn. unfold AutoGain._clamp. cbn.
  replace (0 + 0) with 0 by lra.
  rewrite (proj2 (eqR_spec 0 0) eq_refl). unfold JS.bySign.
  rewrite (proj2 (ltR_false 0 0)) by lra. reflexivity.
Qed.

End AutoGainInvariant.

Section AutoGainClaims.

(** C8.  When [update] is given an RMS that is not finite, the controller is
    left exactly as it was, and the call returns the smoothed RMS it holds
    (0 while none has been recorded) and its current gain. *)
Theorem update_nonfinite_rms_keeps_state
    (c : AutoGain.AutoGainController) (now rms : num) :
  JS.isFinite rms = false ->
  AutoGain.update c now rms
  = ({| AutoGain.m_smoothedRms :=
          match AutoGain.smoothedRms c with
          | Some s => s
          | None => Fin 0
          end;
        AutoGain.m_gain := AutoGain.currentGain c |}, c).
Proof.
  intros H. unfold AutoGain.update. rewrite H. reflexivity.
Qed.

Lemma update_nonfinite_rms_keeps_state_witness :
  AutoGain.update (AutoGain.new AutoGain.defaults) (Fin 1) NaN
  = ({| AutoGain.m_smoothedRms := Fin 0; AutoGain.m_gain := Fin 1 |},
     AutoGain.new AutoGain.defaults).
Proof.
  apply (update_nonfinite_rms_keeps_state
           (AutoGain.new AutoGain.defaults) (Fin 1) NaN).
  reflexivity.
Defined.

(** C9.  On a well-formed controller with [minGain <= maxGain], every
    [update] with a finite RMS (of any sign or size) at a finite clock value
    returns a gain within [[minGain, maxGain]] and stores that same gain. *)
Theorem update_gain_within_bounds
    (c : AutoGain.AutoGainController) (now rms : num) :
  wellFormed c ->
  AutoGain.minGain c <=! AutoGain.maxGain c = true ->
  JS.isFinite now = true ->
  JS.isFinite rms = true ->
  let r := AutoGain.update c now rms in
  AutoGain.minGain c <=! AutoGain.m_gain (fst r) = true
  /\ AutoGain.m_gain (fst r) <=! AutoGain.maxGain c = true
  /\ AutoGain.currentGain (snd r) = AutoGain.m_gain (fst r)
  /\ AutoGain.minGain (snd r) = AutoGain.minGain c
  /\ AutoGain.maxGain (snd r) = AutoGain.maxGain c.
Proof.
  intros Hwf Hle Hnow Hrms r. subst r.
  apply finite_inv in Hnow. destruct Hnow as [n ->].
  apply finite_inv in Hrms. destruct Hrms as [x ->].
  destruct (update_finite c n x Hwf) as [s ->].
  cbn [fst snd AutoGain.m_gain AutoGain.currentGain AutoGain.minGain
       AutoGain.maxGain].
  destruct Hwf as (Ht & Hnz & He & _).
  apply finite_inv in Ht. destruct Ht as [tr Et].
  apply finite_inv in He. destruct He as [e Ee].
  assert (Hv : AutoGain.targetRms c /! (Fin s +! AutoGain.epsilon c) <> NaN).
  { rewrite Et in *. rewrite Ee. decide_reals. }
  unfold AutoGain._clamp.
  destruct (clamp_in_range _ _ _ Hle Hv) as [H1 H2].
  repeat split; assumption.
Qed.

Lemma update_gain_within_bounds_witness :
  let c := AutoGain.new AutoGain.defaults in
  let r := AutoGain.update c (Fin 1) (Fin 0) in
  AutoGain.minGain c <=! AutoGain.m_gain (fst r) = true
  /\ AutoGain.m_gain (fst r) <=! AutoGain.maxGain c = true
  /\ AutoGain.currentGain (snd r) = AutoGain.m_gain (fst r)
  /\ AutoGain.minGain (snd r) = AutoGain.minGain c
  /\ AutoGain.maxGain (snd r) = AutoGain.maxGain c.
Proof.
  apply (update_gain_within_bounds
           (AutoGain.new AutoGain.defaults) (Fin 1) (Fin 0)).
  - exact defaults_wellFormed.
  - cbn. apply leR_spec. lra.
  - reflexivity.
  - reflexivity.
Defined.

End AutoGainClaims.

(* ================================================================= *)
(** ** The YIN estimator *)

Section YinSearch.

Variable H : nat.
Variable c : list num.

(** The walk down never moves left. *)
Lemma descend_ge (fuel tau : nat) : (tau <= Yin.descend H c fuel tau)%nat.
Proof.
  revert tau. induction fuel as [|fuel IH]; intros tau; cbn [Yin.descend];
    [lia|].
  destruct ((tau + 1 <? H)%nat && (JS.get c (tau + 1) <! JS.get c tau));
    [|lia].
  specialize (IH (tau + 1)%nat). lia.
Qed.

(** With enough fuel the walk stops only where the [while] condition
    fails: the fuel the search passes never cuts the loop short. *)
Lemma descend_exit (fuel tau : nat) :
  (H <= fuel + tau + 1)%nat ->
  let r := Yin.descend H c fuel tau in
  (r + 1 <? H)%nat && (JS.get c (r + 1) <! JS.get c r) = false.
Proof.
  revert tau. induction fuel as [|fuel IH]; intros tau Hf; cbn [Yin.descend].
  - replace (tau + 1 <? H)%nat with false; [reflexivity|].
    symmetry. apply Nat.ltb_ge. lia.
  - destruct ((tau + 1 <? H)%nat && (JS.get c (tau + 1) <! JS.get c tau))
      eqn:E; [|exact E].
    apply IH. lia.
Qed.

(** Where the walk has moved, the value it stops at is below its left
    neighbour. *)
Lemma descend_prev (fuel tau : nat) :
  let r := Yin.descend H c fuel tau in
  r = tau \/ ((tau < r)%nat /\ JS.get c r <! JS.get c (r - 1) = true).
Proof.
  revert tau. induction fuel as [|fuel IH]; intros tau; cbn [Yin.descend];
    [auto|].
  destruct ((tau + 1 <? H)%nat && (JS.get c (tau + 1) <! JS.get c tau))
    eqn:E; [|auto].
  apply andb_true_iff in E. destruct E as [_ E]. right.
  destruct (IH (tau + 1)%nat) as [-> | [Hlt Hv]].
  - split; [lia|]. now replace (tau + 1 - 1)%nat with tau by lia.
  - split; [lia | exact Hv].
Qed.

(** What the [for] loop returns over the lags [a, a + n): the walk started
    at the first lag whose value is under the threshold. *)
Lemma scan_seq (th : num) (n a r : nat) :
  Yin.scan H th c (seq a n) = Some r ->
  exists tc,
    (a <= tc < a + n)%nat
    /\ JS.get c tc <! th = true
    /\ (forall k, (a <= k < tc)%nat -> JS.get c k <! th = false)
    /\ r = Yin.descend H c H tc.
Proof.
  revert a. induction n as [|n IH]; intros a; cbn [seq Yin.scan];
    [discriminate|].
  destruct (JS.get c a <! th) eqn:E.
  - intros [= <-]. exists a. split; [lia|]. split; [exact E|].
    split; [|reflexivity]. intros k Hk. lia.
  - intros Hs. destruct (IH _ Hs) as (tc & Hr & Hc & Hbefore & ->).
    exists tc. split; [lia|]. split; [exact Hc|]. split; [|reflexivity].
    intros k Hk. destruct (Nat.eq_dec k a) as [-> | Hne]; [exact E|].
    apply Hbefore. lia.
Qed.

End YinSearch.

Section YinFacts.

(** What step 3 returns: a lag [tau >= 2] reached from the first lag [tc]
    under the threshold, below its left neighbour when the walk moved, and
    where the [while] condition fails. *)
Lemma absoluteThreshold_spec (y : Yin.YinPitchDetector) (c : list num)
    (tau : nat) :
  Yin._absoluteThreshold y c = Some tau ->
  exists tc,
    (2 <= tc <= tau)%nat
    /\ JS.get c tc <! Yin.threshold y = true
    /\ (forall k, (2 <= k < tc)%nat -> JS.get c k <! Yin.threshold y = false)
    /\ (tau = tc \/ JS.get c tau <! JS.get c (tau - 1) = true)
    /\ (tau + 1 <? Yin.halfBuffer y)%nat
       && (JS.get c (tau + 1) <! JS.get c tau) = false.
Proof.
  unfold Yin._absoluteThreshold. intros Hs.
  apply scan_seq in Hs. destruct Hs as (tc & Hr & Hc & Hbefore & ->).
  exists tc. split.
  { pose proof (descend_ge (Yin.halfBuffer y) c (Yin.halfBuffer y) tc). lia. }
  split; [exact Hc|]. split; [exact Hbefore|]. split.
  - destruct (descend_prev (Yin.halfBuffer y) c (Yin.halfBuffer y) tc)
      as [E | [_ E]]; auto.
  - apply descend_exit. lia.
Qed.

(** The value the search returns is a number: it compared below
    something. *)
Lemma absoluteThreshold_not_NaN (y : Yin.YinPitchDetector) (c : list num)
    (tau : nat) :
  Yin._absoluteThreshold y c = Some tau -> JS.get c tau <> NaN.
Proof.
  intros Hs. apply absoluteThreshold_spec in Hs.
  destruct Hs as (tc & _ & Hc & _ & [-> | Hp] & _).
  - exact (lt_not_NaN_l _ _ Hc).
  - exact (lt_not_NaN_l _ _ Hp).
Qed.

(** The entry at lag 1 of the normalised difference is 1 whenever it is a
    number. *)
Lemma cumulativeMean_at_1 (difference : list num) :
  let c := Yin._cumulativeMeanNormalizedDifference difference in
  JS.get c 1 = Fin 1 \/ JS.get c 1 = NaN.
Proof.
  destruct difference as [|d0 [|d ds]]; cbn; auto.
  unfold JS.get. cbn [nth Yin.cumulativeLoop].
  destruct d as [x| | |]; decide_reals; auto.
  all: left; f_equal; cbn [INR]; field; intros Hx; subst x; lra.
Qed.

Lemma lt_le_trans (a b d : num) :
  a <! b = true -> b <=! d = true -> a <! d = true.
Proof. destruct a, b, d; simpl; try congruence; intros; decide_reals. Qed.

Lemma below_threshold_below_left (a b th : num) :
  a <! th = true -> b <! th = false -> b = NaN \/ a <! b = true.
Proof.
  destruct a, b, th; simpl; try congruence; auto; intros; right;
    decide_reals.
Qed.

(** A value whose confidence [1 - a] passes a positive probability
    threshold is below 1. *)
Lemma confident_below_one (a th pt : num) :
  a <! th = true -> Fin 0 <! pt = true -> Fin 1 -! a <! pt = false ->
  a <! Fin 1 = true.
Proof.
  destruct a, th, pt; simpl; try congruence; intros; decide_reals.
Qed.

(** The parabola through three values around a local minimum, the left one
    strictly above: the refined lag, when it is finite, is less than half a
    sample to the left of [tau]. *)
Lemma parabola_vertex (tau : R) (s0 s1 s2 : num) :
  s0 = NaN \/ s1 <! s0 = true ->
  s2 <! s1 = false ->
  match Fin tau +! (s2 -! s0) /! (Fin 2 *! (Fin 2 *! s1 -! s2 -! s0)) with
  | Fin r => tau - / 2 < r
  | _ => True
  end.
Proof.
  intros [-> | H10] H21.
  { destruct s1, s2; decide_reals; exact I. }
  destruct s0 as [a| | |], s1 as [b| | |], s2 as [d| | |];
    try discriminate; try (decide_reals; exact I).
  apply ltR_spec in H10. apply ltR_false in H21. js_simpl.
  set (D := 2 * (2 * b + - d + - a)).
  assert (HD : D < 0) by (unfold D; lra).
  assert (E : JS.eqR D 0 = false) by (apply eqR_false; lra).
  rewrite E. cbn [JS.add].
  assert (Hinv : / D < 0) by now apply Rinv_lt_0_compat.
  assert (Hid : D * / D = 1) by (apply Rinv_r; lra).
  unfold Rdiv.
  assert (Hk : (d + - a) * / D + / 2 = (2 * (b - a)) * / D).
  { replace (/ 2) with ((D * / D) * / 2) by (rewrite Hid; lra).
    unfold D. field. fold D. lra. }
  assert (0 < (2 * (b - a)) * / D).
  { replace (2 * (b - a) * / D) with ((2 * (a - b)) * (- / D)) by ring.
    apply Rmult_lt_0_compat; lra. }
  lra.
Qed.

End YinFacts.

Section YinRefinement.

Variable y : Yin.YinPitchDetector.
Variable buffer : list num.

Let c : list num := Yin.cumulativeMeanOf y buffer.

(** The lag step 4 hands to the frequency computation is a positive finite
    number whenever the confidence at [tau] is not rejected. *)
Lemma refined_lag_positive (tau : nat) :
  Yin.threshold y <=! Fin 1 = true
  \/ Fin 0 <! Yin.probabilityThreshold y = true ->
  Yin._absoluteThreshold y c = Some tau ->
  Fin 1 -! JS.get c tau <! Yin.probabilityThreshold y = false ->
  exists r, Yin._parabolicInterpolation y c tau = Fin r /\ 0 < r.
Proof.
  intros Hcfg Hs Hprob.
  destruct (absoluteThreshold_spec y c tau Hs)
    as (tc & Hr & Hc & Hbefore & Hleft & Hexit).
  assert (Htau : 2 <= INR tau).
  { change 2 with (INR 2). apply le_INR. lia. }
  unfold Yin._parabolicInterpolation.
  destruct ((tau <? 1)%nat || (Yin.halfBuffer y <=? tau + 1)%nat) eqn:Hedge.
  { exists (INR tau). split; [reflexivity | lra]. }
  apply orb_false_iff in Hedge. destruct Hedge as [_ Hedge].
  apply Nat.leb_gt in Hedge.
  assert (H21 : JS.get c (tau + 1) <! JS.get c tau = false).
  { apply andb_false_iff in Hexit. destruct Hexit as [E | E]; [|exact E].
    apply Nat.ltb_ge in E. lia. }
  assert (H10 : JS.get c (tau - 1) = NaN
                \/ JS.get c tau <! JS.get c (tau - 1) = true).
  { destruct Hleft as [-> | Hl]; [|auto].
    destruct (Nat.eq_dec tc 2) as [-> | Hne].
    - cbn [Nat.sub].
      destruct (cumulativeMean_at_1 (Yin._difference y buffer)) as [E | E];
        fold (Yin.cumulativeMeanOf y buffer) in E; fold c in E;
        rewrite E; [right | now left].
      destruct Hcfg as [Hth | Hpt].
      + exact (lt_le_trans _ _ _ Hc Hth).
      + exact (confident_below_one _ _ _ Hc Hpt Hprob).
    - apply (below_threshold_below_left _ _ _ Hc). apply Hbefore. lia. }
  pose proof (parabola_vertex (INR tau) _ _ _ H10 H21) as Hv.
  unfold JS.ofNat.
  destruct (Fin (INR tau) +! _) as [r| | |] eqn:Eb; cbn [JS.isFinite].
  - exists r. split; [reflexivity | lra].
  - exists (INR tau). split; [reflexivity | lra].
  - exists (INR tau). split; [reflexivity | lra].
  - exists (INR tau). split; [reflexivity | lra].
Qed.

(** What [getPitch] returns, when it returns an estimate. *)
Lemma getPitch_inv (e : Yin.estimate) :
  Yin.getPitch y buffer = Some e ->
  exists tau,
    Yin._absoluteThreshold y c = Some tau
    /\ Fin 1 -! JS.get c tau <! Yin.probabilityThreshold y = false
    /\ Yin.frequency e
       = Yin.sampleRate y /! Yin._parabolicInterpolation y c tau
    /\ Yin.probability e = Fin 1 -! JS.get c tau.
Proof.
  unfold Yin.getPitch. fold c.
  destruct (Yin._absoluteThreshold y c) as [tau|]; [|discriminate].
  destruct (Fin 1 -! JS.get c tau <! Yin.probabilityThreshold y) eqn:E;
    [discriminate|].
  intros [= <-]. exists tau. auto.
Qed.

(** The confidence of a returned estimate is at least the probability
    threshold. *)
Lemma getPitch_probability (e : Yin.estimate) :
  Yin.probabilityThreshold y <> NaN ->
  Yin.getPitch y buffer = Some e ->
  Yin.probabilityThreshold y <=! Yin.probability e = true.
Proof.
  intros Hpt He. destruct (getPitch_inv e He) as (tau & Hs & Hp & _ & ->).
  apply not_lt_le; trivial.
  pose proof (absoluteThreshold_not_NaN y c tau Hs) as Hn.
  destruct (JS.get c tau); simpl; congruence.
Qed.

End YinRefinement.

Section YinClaims.

(** C3.  With a positive finite sample rate (and a detector whose threshold
    is at most 1 or whose probability threshold is positive), every estimate
    the YIN estimator returns has a frequency, [sampleRate] over the refined
    lag, that is finite and strictly positive. *)
Theorem yin_frequency_positive_finite
    (y : Yin.YinPitchDetector) (buffer : list num) (e : Yin.estimate)
    (sr : R) :
  Yin.sampleRate y = Fin sr ->
  0 < sr ->
  Yin.threshold y <=! Fin 1 = true
  \/ Fin 0 <! Yin.probabilityThreshold y = true ->
  Yin.getPitch y buffer = Some e ->
  exists tau f,
    Yin._absoluteThreshold y (Yin.cumulativeMeanOf y buffer) = Some tau
    /\ Yin.frequency e
       = Yin.sampleRate y
         /! Yin._parabolicInterpolation y (Yin.cumulativeMeanOf y buffer) tau
    /\ Yin.frequency e = Fin f
    /\ 0 < f.
Proof.
  intros Hsr Hpos Hcfg He.
  destruct (getPitch_inv y buffer e He) as (tau & Hs & Hp & Hf & _).
  destruct (refined_lag_positive y buffer tau Hcfg Hs Hp) as (r & Er & Hr).
  exists tau, (sr / r). split; [exact Hs|]. split; [exact Hf|].
  rewrite Hf, Er, Hsr. cbn [JS.div].
  assert (E : JS.eqR r 0 = false) by (apply eqR_false; lra).
  rewrite E. split; [reflexivity|].
  apply Rdiv_lt_0_compat; assumption.
Qed.

(** C5.  If the confidence [1 - cmnd[tau]] at the lag found by the threshold
    search is below [probabilityThreshold], the estimator returns nothing;
    and every reading the tracker returns with a non-null frequency has a
    probability of at least that threshold. *)
Theorem low_confidence_never_reaches_stabilizer
    (t : Pitch.PitchTracker) (y : Yin.YinPitchDetector) (frame : list num)
    (currentTime now : num) :
  Pitch.yin t = Some y ->
  Yin.probabilityThreshold y <> NaN ->
  (forall tau,
      Yin._absoluteThreshold y (Yin.cumulativeMeanOf y frame) = Some tau ->
      Fin 1 -! JS.get (Yin.cumulativeMeanOf y frame) tau
        <! Yin.probabilityThreshold y = true ->
      Yin.getPitch y frame = None)
  /\ (forall r f,
         Pitch.res_outcome (Pitch.getPitch t frame currentTime now)
         = Pitch.Returned (Some r) ->
         Pitch.frequency r = Some f ->
         Yin.probabilityThreshold y <=! Pitch.probability r = true).
Proof.
  intros Hy Hpt. split.
  - intros tau Hs Hlow. unfold Yin.getPitch. rewrite Hs, Hlow. reflexivity.
  - intros r f. unfold Pitch.getPitch. rewrite Hy.
    destruct (negb (Pitch.initialized t) || _ || _); [discriminate|].
    destruct (match Pitch.autoGain t with Some _ => _ | None => _ end)
      as [[m g'] calls].
    destruct (_ <! Pitch.rmsThreshold t).
    { cbn. intros [= <-]. discriminate. }
    destruct (Yin.getPitch y frame) as [e|] eqn:He.
    + cbn. intros [= <-] _. cbn. now apply (getPitch_probability y frame).
    + cbn. intros [= <-]. discriminate.
Qed.

End YinClaims.

(* ================================================================= *)
(** ** Running the model on concrete inputs *)

(** Evaluate the program on literal inputs: unfold the code, and settle each
    comparison of two real constants by linear arithmetic. *)
Ltac settle_comparisons :=
  repeat match goal with
         | |- context [JS.ltR ?a ?b] =>
             first [ rewrite (proj2 (ltR_spec a b)) by lra
                   | rewrite (proj2 (ltR_false a b)) by lra ]
         | |- context [JS.leR ?a ?b] =>
             first [ rewrite (proj2 (leR_spec a b)) by lra
                   | rewrite (proj2 (leR_false a b)) by lra ]
         | |- context [JS.eqR ?a ?b] =>
             first [ rewrite (proj2 (eqR_spec a b)) by lra
                   | rewrite (proj2 (eqR_false a b)) by lra ]
         end.

Ltac js_run :=
  repeat (progress
            (unfold JS.neq, JS.gt, JS.ge, JS.sub, JS.bySign, JS.ofNat, JS.get;
             cbn -[JS.ltR JS.leR JS.eqR IZR INR Rplus Rmult Ropp Rinv Rdiv
                   Rminus Rabs R_sqrt.sqrt Rtrigo_def.exp ln Rpower Zfloor];
             rewrite ?INR_IZR_INZ;
             cbn [Z.of_nat Pos.of_succ_nat Pos.succ];
             settle_comparisons)).

(** Close an equation between structures of evaluated numbers. *)
Ltac same_numbers :=
  repeat first
    [ reflexivity
    | match goal with
      | |- @eq R _ _ => first [ lra | field; lra ]
      | |- _ => progress f_equal
      end ].

Section YinExample.

Lemma squareFrame_difference :
  Yin._difference smallDetector squareFrame
  = [Fin 0; Fin 16; Fin 0; Fin 16].
Proof.
  unfold Yin._difference, Yin.differenceAt. js_run. same_numbers.
Qed.

Lemma squareFrame_cumulativeMean :
  Yin.cumulativeMeanOf smallDetector squareFrame
  = [Fin 1; Fin 1; Fin 0; Fin (3 / 2)].
Proof.
  unfold Yin.cumulativeMeanOf. rewrite squareFrame_difference.
  js_run. same_numbers.
Qed.

Lemma squareFrame_absoluteThreshold :
  Yin._absoluteThreshold smallDetector
    (Yin.cumulativeMeanOf smallDetector squareFrame) = Some 2%nat.
Proof.
  rewrite squareFrame_cumulativeMean. unfold Yin._absoluteThreshold.
  js_run. reflexivity.
Qed.

Lemma squareFrame_interpolation :
  Yin._parabolicInterpolation smallDetector
    (Yin.cumulativeMeanOf smallDetector squareFrame) 2 = Fin (19 / 10).
Proof.
  rewrite squareFrame_cumulativeMean. unfold Yin._parabolicInterpolation.
  js_run. same_numbers.
Qed.

(** The estimator hears a period of 1.9 samples with full confidence. *)
Lemma squareFrame_getPitch :
  Yin.getPitch smallDetector squareFrame
  = Some {| Yin.frequency := Fin (480000 / 19);
            Yin.probability := Fin 1 |}.
Proof.
  unfold Yin.getPitch.
  rewrite squareFrame_absoluteThreshold, squareFrame_interpolation,
    squareFrame_cumulativeMean.
  js_run. same_numbers.
Qed.

End YinExample.

Section YinWitnesses.

Lemma yin_frequency_positive_finite_witness :
  let e := {| Yin.frequency := Fin (480000 / 19);
              Yin.probability := Fin 1 |} in
  exists tau f,
    Yin._absoluteThreshold smallDetector
      (Yin.cumulativeMeanOf smallDetector squareFrame) = Some tau
    /\ Yin.frequency e
       = Yin.sampleRate smallDetector
         /! Yin._parabolicInterpolation smallDetector
              (Yin.cumulativeMeanOf smallDetector squareFrame) tau
    /\ Yin.frequency e = Fin f
    /\ 0 < f.
Proof.
  apply (yin_frequency_positive_finite smallDetector squareFrame _ 48000).
  - reflexivity.
  - lra.
  - left. cbn. apply leR_spec. lra.
  - exact squareFrame_getPitch.
Defined.

End YinWitnesses.

(* ================================================================= *)
(** ** The temporal stabilizer *)

Section Stabilizer.

(** The mapper returns a note for every truthy positive number. *)
Lemma frequencyToNoteData_some (f : num) :
  JS.truthy f = true -> f <=! Fin 0 = false ->
  exists noteData,
    Note.frequencyToNoteData f = Some noteData
    /\ Note.frequency noteData = f.
Proof.
  intros Ht Hp. unfold Note.frequencyToNoteData. rewrite Ht, Hp.
  cbn [negb orb]. eexists. split; reflexivity.
Qed.

(** A reading that passed the first test has a finite non-zero frequency. *)
Lemma noPitch_false_inv (e : option Pitch.reading) :
  App.noPitch e = false ->
  exists x, App.frequencyOf e = Fin x /\ x <> 0.
Proof.
  destruct e as [[[f|] p r k sm g]|]; cbn; try discriminate.
  intros H. apply orb_false_iff in H. destruct H as [Ht Hf].
  destruct f as [x| | |]; try discriminate.
  exists x. split; [reflexivity|].
  cbn in Ht. apply Bool.negb_false_iff, Bool.negb_true_iff in Ht.
  now apply eqR_false.
Qed.

(** The clamped frequency of a positive reading lies in the valid range. *)
Lemma clampFrequency_range (x : R) :
  exists z, clampFrequency (Fin x) = Fin z /\ 110 <= z <= 1660.
Proof.
  unfold clampFrequency, App.MIN_VALID_FREQ, App.MAX_VALID_FREQ.
  decide_reals; eexists; (split; [reflexivity | lra]).
Qed.

(** A tick without a pitch: the miss counter goes up by one, and the
    lost-lock calls are made when it reaches the threshold. *)
Lemma pollTick_miss (s : App.state) (timestamp : num)
    (e : option Pitch.reading) :
  App.noPitch e = true ->
  App.pollTick s timestamp e
  = ({| App.missCounter := S (App.missCounter s);
        App.lastNoPitchLog :=
          if timestamp -! App.lastNoPitchLog s >! Fin 500 then timestamp
          else App.lastNoPitchLog s;
        App.lastDetectionLog := App.lastDetectionLog s;
        App.lastDetectionTime := App.lastDetectionTime s;
        App.lastFrequency := App.lastFrequency s |},
     if (S (App.missCounter s) =? App.MISS_THRESHOLD)%nat
     then App.lostLock else []).
Proof. intros H. unfold App.pollTick. rewrite H. reflexivity. Qed.

(** A tick whose reading the jump test rejects. *)
Lemma pollTick_rejected (s : App.state) (timestamp : num)
    (e : option Pitch.reading) :
  App.noPitch e = false ->
  App.jumpRejected s timestamp (clampFrequency (App.frequencyOf e)) = true ->
  App.pollTick s timestamp e = (resetMisses s, []).
Proof.
  intros Hn Hj. unfold App.pollTick. rewrite Hn.
  destruct (App.frequencyOf e <=! Fin 0); [reflexivity|].
  fold (clampFrequency (App.frequencyOf e)). rewrite Hj. reflexivity.
Qed.

(** A tick whose positive reading passes the jump test. *)
Lemma pollTick_passed (s : App.state) (timestamp : num)
    (e : option Pitch.reading) :
  App.noPitch e = false ->
  App.frequencyOf e <=! Fin 0 = false ->
  App.jumpRejected s timestamp (clampFrequency (App.frequencyOf e)) = false ->
  accepted s timestamp e.
Proof.
  intros Hn Hp Hj. unfold accepted, App.pollTick. rewrite Hn, Hp.
  fold (clampFrequency (App.frequencyOf e)). rewrite Hj.
  destruct (noPitch_false_inv e Hn) as (x & Ex & Hx). rewrite Ex in *.
  destruct (clampFrequency_range x) as (z & Ez & Hz). rewrite Ez.
  destruct (frequencyToNoteData_some (Fin z)) as (nd & End & _).
  { cbn. apply Bool.negb_true_iff, eqR_false. lra. }
  { cbn. apply leR_false. lra. }
  rewrite End. exists nd. cbn. repeat split; reflexivity.
Qed.

(** Misses in a row: the counter counts them, and tick number [i] of the
    row makes the lost-lock calls exactly when the counter reaches the
    threshold there. *)
Lemma run_of_misses (ticks : list (num * option Pitch.reading)) :
  Forall (fun tick => App.noPitch (snd tick) = true) ticks ->
  forall s,
    snd (App.run s ticks)
    = map (fun i => if (i =? App.MISS_THRESHOLD)%nat
                    then App.lostLock else [])
          (seq (S (App.missCounter s)) (List.length ticks))
    /\ App.missCounter (fst (App.run s ticks))
       = (App.missCounter s + List.length ticks)%nat.
Proof.
  induction 1 as [|[timestamp e] ticks Hmiss _ IH]; intros s.
  - cbn. split; [reflexivity | lia].
  - cbn [App.run List.length seq map]. cbn [snd] in Hmiss.
    rewrite (pollTick_miss s timestamp e Hmiss).
    set (s' := {| App.missCounter := S (App.missCounter s) |}).
    specialize (IH s'). destruct (App.run s' ticks) as [s'' evss].
    cbn [fst snd] in *. destruct IH as [-> ->].
    subst s'. cbn [App.missCounter]. split; [reflexivity | lia].
Qed.

End Stabilizer.

Section StabilizerExamples.

Lemma clampFrequency_440 : clampFrequency (Fin 440) = Fin 440.
Proof.
  unfold clampFrequency, App.MIN_VALID_FREQ, App.MAX_VALID_FREQ.
  js_run. reflexivity.
Qed.

Lemma clampFrequency_700 : clampFrequency (Fin 700) = Fin 700.
Proof.
  unfold clampFrequency, App.MIN_VALID_FREQ, App.MAX_VALID_FREQ.
  js_run. reflexivity.
Qed.

Lemma reading_has_pitch (x : R) :
  x <> 0 -> App.noPitch (readingAt (Some (Fin x))) = false.
Proof.
  intros Hx. cbn. rewrite (proj2 (eqR_false x 0) Hx). reflexivity.
Qed.

Lemma reading_positive (x : R) :
  0 < x -> App.frequencyOf (readingAt (Some (Fin x))) <=! Fin 0 = false.
Proof. intros Hx. cbn. apply leR_false. exact Hx. Qed.

(** A rendered tick is not a discarded one. *)
Lemma accepted_not_discarded (s : App.state) (timestamp : num)
    (e : option Pitch.reading) :
  accepted s timestamp e -> ~ discarded s timestamp e.
Proof.
  unfold accepted, discarded. intros (nd & _ & _ & _ & _ & Hev) Hd.
  rewrite Hd in Hev. discriminate.
Qed.

End StabilizerExamples.

Section StabilizerClaims.

(** Past the threshold no tick of a row of misses clears the readouts. *)
Lemma no_signal_past_threshold (signal : list App.event) (n a : nat) :
  (4 < a)%nat ->
  filter clearsReadouts
    (map (fun i => if (i =? 4)%nat then signal else []) (seq a n)) = [].
Proof.
  revert a. induction n as [|n IH]; intros a Ha; [reflexivity|].
  cbn [seq map]. destruct (Nat.eqb_spec a 4) as [E|_]; [lia|].
  cbn [filter clearsReadouts existsb]. apply IH. lia.
Qed.

(** C6.  Over a run of consecutive ticks without a pitch, started with the
    miss counter at zero, the fourth tick sets the status line to the
    listening prompt and clears the readouts, and every other tick of the
    run makes no call at all: the readouts are cleared exactly once when
    the run has four ticks or more, and never when it is shorter. *)
Theorem lost_lock_signalled_once
    (s : App.state) (ticks : list (num * option Pitch.reading)) :
  App.missCounter s = 0%nat ->
  Forall (fun tick => App.noPitch (snd tick) = true) ticks ->
  let signal :=
    [App.SetStatus "Listening… play a clear tone."; App.ResetReadouts] in
  snd (App.run s ticks)
  = map (fun i => if (i =? 4)%nat then signal else [])
        (seq 1 (List.length ticks))
  /\ List.length (filter clearsReadouts (snd (App.run s ticks)))
     = (if (4 <=? List.length ticks)%nat then 1 else 0)%nat
  /\ App.missCounter (fst (App.run s ticks)) = List.length ticks.
Proof.
  intros Hz Hmiss signal.
  destruct (run_of_misses ticks Hmiss s) as [Hev Hcount].
  rewrite Hz in *. unfold App.lostLock, App.MISS_THRESHOLD in Hev.
  fold signal in Hev. split; [exact Hev|]. split; [|exact Hcount].
  rewrite Hev.
  destruct (List.length ticks) as [|[|[|[|n]]]]; try reflexivity.
  cbn [seq map Nat.eqb Nat.leb]. subst signal.
  cbn [filter clearsReadouts existsb orb List.length].
  rewrite no_signal_past_threshold by lia. reflexivity.
Qed.

Lemma lost_lock_signalled_once_witness :
  let ticks :=
    [(Fin 20, None);
     (Fin 40, readingAt None);
     (Fin 60, readingAt (Some NaN));
     (Fin 80, readingAt (Some (Fin 0)));
     (Fin 100, readingAt (Some PInf))] in
  let signal :=
    [App.SetStatus "Listening… play a clear tone."; App.ResetReadouts] in
  snd (App.run App.initial ticks) = [[]; []; []; signal; []]
  /\ List.length (filter clearsReadouts (snd (App.run App.initial ticks)))
     = 1%nat
  /\ App.missCounter (fst (App.run App.initial ticks)) = 5%nat.
Proof.
  intros ticks.
  apply (lost_lock_signalled_once App.initial ticks).
  - reflexivity.
  - repeat constructor. cbn.
    rewrite (proj2 (eqR_spec 0 0) eq_refl). reflexivity.
Defined.

(** C1 (as the code has it).  On a tick whose reading carries a positive
    numeric frequency that the jump test rejects (a previous reading was
    accepted at a non-zero time less than MAX_GAP_MS ago, and the clamped
    frequency is more than MAX_JUMP_HZ away from it), the miss counter is
    set to zero, as on every tick with a pitch, and is not incremented; the
    last accepted frequency and time stay unchanged and nothing is
    rendered. *)
Theorem jump_rejected_tick_keeps_last_accepted
    (s : App.state) (timestamp : num) (e : option Pitch.reading)
    (last : num) :
  App.noPitch e = false ->
  App.frequencyOf e <=! Fin 0 = false ->
  App.lastFrequency s = Some last ->
  JS.neq (App.lastDetectionTime s) (Fin 0) = true ->
  timestamp -! App.lastDetectionTime s <! App.MAX_GAP_MS = true ->
  JS.abs (clampFrequency (App.frequencyOf e) -! last) >! App.MAX_JUMP_HZ
  = true ->
  let r := App.pollTick s timestamp e in
  App.missCounter (fst r) = 0%nat
  /\ App.missCounter (fst r) <> S (App.missCounter s)
  /\ App.lastFrequency (fst r) = App.lastFrequency s
  /\ App.lastDetectionTime (fst r) = App.lastDetectionTime s
  /\ snd r = [].
Proof.
  intros Hn _ Hl Ht Hgap Hjump r. subst r.
  rewrite (pollTick_rejected s timestamp e Hn).
  - cbn. repeat split; auto.
  - unfold App.jumpRejected. rewrite Hl, Ht, Hgap, Hjump. reflexivity.
Qed.

Lemma jump_rejected_tick_keeps_last_accepted_witness :
  let s := lockedAt (Fin 1000) (Fin 440) in
  let r := App.pollTick s (Fin 1050) (readingAt (Some (Fin 700))) in
  App.missCounter (fst r) = 0%nat
  /\ App.missCounter (fst r) <> S (App.missCounter s)
  /\ App.lastFrequency (fst r) = App.lastFrequency s
  /\ App.lastDetectionTime (fst r) = App.lastDetectionTime s
  /\ snd r = [].
Proof.
  apply (jump_rejected_tick_keeps_last_accepted
           (lockedAt (Fin 1000) (Fin 440)) (Fin 1050)
           (readingAt (Some (Fin 700))) (Fin 440)).
  - apply reading_has_pitch. lra.
  - apply reading_positive. lra.
  - reflexivity.
  - cbn. apply Bool.negb_true_iff, eqR_false. lra.
  - cbn. apply ltR_spec. lra.
  - change (App.frequencyOf (readingAt (Some (Fin 700)))) with (Fin 700).
    rewrite clampFrequency_700. cbn. apply ltR_spec.
    rewrite Rabs_right; lra.
Defined.

(** C1, counterexample.  From the initial state: 440 Hz accepted at
    1000 ms, two ticks without a pitch, then 700 Hz at 1060 ms.  The last
    reading meets every condition of the jump test and is rejected, and the
    miss counter, which stood at 2, is reset to 0. *)
Lemma jump_rejected_tick_resets_missCounter :
  let s := fst (App.run App.initial
                  [(Fin 1000, readingAt (Some (Fin 440)));
                   (Fin 1020, readingAt None);
                   (Fin 1040, readingAt None)]) in
  let e := readingAt (Some (Fin 700)) in
  App.missCounter s = 2%nat
  /\ App.lastFrequency s = Some (Fin 440)
  /\ App.lastDetectionTime s = Fin 1000
  /\ App.noPitch e = false
  /\ Fin 1060 -! App.lastDetectionTime s <! App.MAX_GAP_MS = true
  /\ JS.abs (clampFrequency (App.frequencyOf e) -! Fin 440)
       >! App.MAX_JUMP_HZ = true
  /\ App.pollTick s (Fin 1060) e = (resetMisses s, [])
  /\ App.missCounter (fst (App.pollTick s (Fin 1060) e)) = 0%nat
  /\ App.missCounter (fst (App.pollTick s (Fin 1060) e))
     <> App.missCounter s.
Proof.
  intros s e.
  assert (Hs : s = {| App.missCounter := 2;
                      App.lastNoPitchLog := Fin 1020;
                      App.lastDetectionLog := Fin 1000;
                      App.lastDetectionTime := Fin 1000;
                      App.lastFrequency := Some (Fin 440) |}).
  { subst s. unfold App.run, App.pollTick, Note.frequencyToNoteData,
      App.jumpRejected, App.initial, App.MIN_VALID_FREQ, App.MAX_VALID_FREQ.
    js_run. reflexivity. }
  clearbody s. subst s.
  assert (Hn : App.noPitch e = false) by (apply reading_has_pitch; lra).
  assert (Hjump : JS.abs (clampFrequency (App.frequencyOf e) -! Fin 440)
                    >! App.MAX_JUMP_HZ = true).
  { change (App.frequencyOf e) with (Fin 700). rewrite clampFrequency_700.
    cbn. apply ltR_spec. rewrite Rabs_right; lra. }
  cbn [App.missCounter App.lastFrequency App.lastDetectionTime].
  assert (Hgap : Fin 1060 -! Fin 1000 <! App.MAX_GAP_MS = true).
  { cbn. apply ltR_spec. lra. }
  rewrite pollTick_rejected.
  - cbn. repeat split; trivial; discriminate.
  - exact Hn.
  - unfold App.jumpRejected.
    cbn [App.lastFrequency App.lastDetectionTime].
    rewrite Hgap, Hjump. unfold JS.neq. cbn.
    rewrite (proj2 (eqR_false 1000 0)) by lra. reflexivity.
Qed.

End StabilizerClaims.

Section JumpGate.

(** A reading later than MAX_GAP_MS after the last accepted one is not
    rejected by the jump test. *)
Lemma jumpRejected_after_gap (s : App.state) (timestamp f : num) :
  timestamp -! App.lastDetectionTime s >! App.MAX_GAP_MS = true ->
  App.jumpRejected s timestamp f = false.
Proof.
  intros Hgap. unfold App.jumpRejected. rewrite (gt_not_lt _ _ Hgap).
  destruct (App.lastFrequency s); [|reflexivity].
  rewrite andb_false_r. reflexivity.
Qed.

(** No reading is rejected by the jump test while the last accepted time
    is 0. *)
Lemma jumpRejected_at_time_zero (s : App.state) (timestamp f : num) :
  App.lastDetectionTime s = Fin 0 ->
  App.jumpRejected s timestamp f = false.
Proof.
  intros Hz. unfold App.jumpRejected. rewrite Hz.
  destruct (App.lastFrequency s); [|reflexivity].
  unfold JS.neq. cbn. rewrite (proj2 (eqR_spec 0 0) eq_refl). reflexivity.
Qed.

(** A clock value other than 0 passes the guard [lastDetectionTime !== 0]. *)
Lemma nonzero_clock (timestamp : num) :
  timestamp <> Fin 0 -> JS.neq timestamp (Fin 0) = true.
Proof.
  intros Ht. destruct timestamp as [t| | |]; try reflexivity.
  unfold JS.neq. cbn. apply Bool.negb_true_iff, eqR_false.
  intros E. apply Ht. now rewrite E.
Qed.

(** A tick either leaves the last accepted reading as it was or replaces it
    by a reading accepted at the tick's own clock value. *)
Lemma pollTick_last_accepted (s : App.state) (timestamp : num)
    (e : option Pitch.reading) :
  let s' := fst (App.pollTick s timestamp e) in
  (App.lastFrequency s' = App.lastFrequency s
   /\ App.lastDetectionTime s' = App.lastDetectionTime s)
  \/ App.lastDetectionTime s' = timestamp.
Proof.
  unfold App.pollTick.
  destruct (App.noPitch e); [left; split; reflexivity|].
  destruct (App.frequencyOf e <=! Fin 0); [left; split; reflexivity|].
  destruct (App.jumpRejected s timestamp _); [left; split; reflexivity|].
  destruct (Note.frequencyToNoteData _); right; reflexivity.
Qed.

(** On a reachable state a last accepted reading always carries a non-zero
    acceptance time, so the guard of the jump test never hides it. *)
Lemma reachable_acceptance_time (s : App.state) :
  reachable s ->
  forall last, App.lastFrequency s = Some last ->
               JS.neq (App.lastDetectionTime s) (Fin 0) = true.
Proof.
  induction 1 as [|s _ _|s _ IH|s _ _|s timestamp e _ IH Ht];
    intros last Hl; try discriminate.
  - exact (IH last Hl).
  - destruct (pollTick_last_accepted s timestamp e) as [[Ef Et]|Et].
    + rewrite Et. apply (IH last). now rewrite <- Ef.
    + rewrite Et. now apply nonzero_clock.
Qed.

(** C2.  On every state the page can reach where a previous accepted
    reading exists: a numeric reading arriving less than MAX_GAP_MS after
    the last acceptance whose clamped frequency is more than MAX_JUMP_HZ
    away from the last accepted one is discarded, and a (positive) reading
    arriving more than MAX_GAP_MS after it is accepted without the jump
    test.  In particular, with 440 Hz accepted from the initial state at
    clock value [t0] (the time origin of the scenario), 700 Hz is discarded
    50 ms later and accepted 300 ms later. *)
Theorem jump_gate_on_reachable_states :
  (forall (s : App.state) (timestamp : num) (e : option Pitch.reading)
          (last : num),
      reachable s ->
      App.lastFrequency s = Some last ->
      App.noPitch e = false ->
      (timestamp -! App.lastDetectionTime s <! App.MAX_GAP_MS = true ->
       JS.abs (clampFrequency (App.frequencyOf e) -! last)
         >! App.MAX_JUMP_HZ = true ->
       discarded s timestamp e)
      /\ (App.frequencyOf e <=! Fin 0 = false ->
          timestamp -! App.lastDetectionTime s >! App.MAX_GAP_MS = true ->
          accepted s timestamp e))
  /\ (forall t0 : R,
         t0 <> 0 ->
         let s := fst (App.pollTick App.initial (Fin t0)
                         (readingAt (Some (Fin 440)))) in
         reachable s
         /\ App.lastFrequency s = Some (Fin 440)
         /\ App.lastDetectionTime s = Fin t0
         /\ discarded s (Fin (t0 + 50)) (readingAt (Some (Fin 700)))
         /\ accepted s (Fin (t0 + 300)) (readingAt (Some (Fin 700)))).
Proof.
  assert (General :
    forall s timestamp e last,
      reachable s -> App.lastFrequency s = Some last ->
      App.noPitch e = false ->
      (timestamp -! App.lastDetectionTime s <! App.MAX_GAP_MS = true ->
       JS.abs (clampFrequency (App.frequencyOf e) -! last)
         >! App.MAX_JUMP_HZ = true ->
       discarded s timestamp e)
      /\ (App.frequencyOf e <=! Fin 0 = false ->
          timestamp -! App.lastDetectionTime s >! App.MAX_GAP_MS = true ->
          accepted s timestamp e)).
  { intros s timestamp e last Hr Hl Hn. split.
    - intros Hgap Hjump. apply pollTick_rejected; [exact Hn|].
      unfold App.jumpRejected.
      rewrite Hl, (reachable_acceptance_time s Hr last Hl), Hgap, Hjump.
      reflexivity.
    - intros Hp Hgap. apply pollTick_passed; trivial.
      now apply jumpRejected_after_gap. }
  split; [exact General|].
  intros t0 Ht0 s.
  assert (Hclock : Fin t0 <> Fin 0) by (intros E; apply Ht0; now injection E).
  assert (Hr : reachable s).
  { apply reachable_pollTick; [apply reachable_initial | exact Hclock]. }
  assert (Hn440 : App.noPitch (readingAt (Some (Fin 440))) = false)
    by (apply reading_has_pitch; lra).
  assert (Hp440 : App.frequencyOf (readingAt (Some (Fin 440))) <=! Fin 0
                  = false) by (apply reading_positive; lra).
  destruct (pollTick_passed App.initial (Fin t0) _ Hn440 Hp440)
    as (nd & _ & Hf & Ht & _ & _).
  { reflexivity. }
  fold s in Hf, Ht.
  change (App.frequencyOf (readingAt (Some (Fin 440)))) with (Fin 440) in Hf.
  rewrite clampFrequency_440 in Hf.
  assert (Hn : App.noPitch (readingAt (Some (Fin 700))) = false)
    by (apply reading_has_pitch; lra).
  assert (Hp : App.frequencyOf (readingAt (Some (Fin 700))) <=! Fin 0
               = false) by (apply reading_positive; lra).
  split; [exact Hr|]. split; [exact Hf|]. split; [exact Ht|].
  destruct (General s (Fin (t0 + 50)) (readingAt (Some (Fin 700))) (Fin 440)
              Hr Hf Hn) as [Hdiscard _].
  destruct (General s (Fin (t0 + 300)) (readingAt (Some (Fin 700))) (Fin 440)
              Hr Hf Hn) as [_ Haccept].
  split.
  - apply Hdiscard.
    + rewrite Ht. cbn. apply ltR_spec. lra.
    + change (App.frequencyOf (readingAt (Some (Fin 700)))) with (Fin 700).
      rewrite clampFrequency_700. cbn. apply ltR_spec.
      rewrite Rabs_right; lra.
  - apply Haccept; [exact Hp|]. rewrite Ht. cbn. apply ltR_spec. lra.
Qed.

Lemma jump_gate_on_reachable_states_witness :
  let s := fst (App.pollTick App.initial (Fin 1000)
                  (readingAt (Some (Fin 440)))) in
  reachable s
  /\ App.lastFrequency s = Some (Fin 440)
  /\ App.lastDetectionTime s = Fin 1000
  /\ discarded s (Fin (1000 + 50)) (readingAt (Some (Fin 700)))
  /\ accepted s (Fin (1000 + 300)) (readingAt (Some (Fin 700))).
Proof.
  apply (proj2 jump_gate_on_reachable_states 1000). lra.
Defined.

End JumpGate.

(* ================================================================= *)
(** ** The note mapper *)

Section NoteMapper.

Lemma Zfloor_div12 (m : Z) : Zfloor (IZR m / 12) = (m / 12)%Z.
Proof.
  apply Zfloor_eq.
  pose proof (Z.div_mod m 12 ltac:(lia)) as Hdm.
  pose proof (Z.mod_pos_bound m 12 ltac:(lia)) as Hb.
  assert (E : IZR m = 12 * IZR (m / 12) + IZR (m mod 12)).
  { rewrite Hdm at 1. rewrite plus_IZR, mult_IZR. reflexivity. }
  assert (H0 : 0 <= IZR (m mod 12)) by (apply IZR_le; lia).
  assert (H1 : IZR (m mod 12) < 12) by (apply IZR_lt; lia).
  rewrite E. split; lra.
Qed.

(** From MIDI number -1200 upward the index the code computes is the
    non-negative residue modulo 12. *)
Lemma noteIndexOf_from_minus_1200 (n : Z) :
  (-1200 <= n)%Z ->
  Note.noteIndexOf (Fin (IZR n)) = Fin (IZR (n mod 12))
  /\ (0 <= n mod 12 < 12)%Z
  /\ (n mod 12 = Z.rem (Z.rem n 12 + 12) 12)%Z.
Proof.
  intros Hn. split; [|split].
  - unfold Note.noteIndexOf. cbn [JS.add JS.rem].
    rewrite (proj2 (eqR_false 12 0)) by lra. f_equal.
    change 1200 with (IZR 1200). rewrite <- plus_IZR.
    assert (Hq : 0 <= IZR (n + 1200) / 12).
    { apply Rmult_le_pos; [apply IZR_le; lia | lra]. }
    unfold JS.Ztrunc. rewrite (proj2 (ltR_false _ _)) by lra.
    rewrite Zfloor_div12.
    pose proof (Z.div_mod (n + 1200) 12 ltac:(lia)) as Hdm.
    replace (n mod 12)%Z with ((n + 1200) mod 12)%Z.
    + replace (IZR ((n + 1200) mod 12))
        with (IZR (n + 1200) - 12 * IZR ((n + 1200) / 12)); [reflexivity|].
      rewrite Hdm at 1. rewrite plus_IZR, mult_IZR. lra.
    + replace (n + 1200)%Z with (n + 100 * 12)%Z by lia.
      apply Z.mod_add. lia.
  - apply Z.mod_pos_bound. lia.
  - Z.to_euclidean_division_equations. lia.
Qed.

End NoteMapper.

Section NoteMapperTiny.

Lemma pow2_110_pos : 0 < 2 ^ 110.
Proof. apply pow_lt. lra. Qed.

Lemma tinyFrequency_positive :
  exists x, tinyFrequency = Fin x /\ 0 < x.
Proof.
  exists (440 * / 2 ^ 110). split; [reflexivity|].
  apply Rmult_lt_0_compat; [lra|]. apply Rinv_0_lt_compat, pow2_110_pos.
Qed.

Lemma log2_tinyFrequency :
  JS.log2 (tinyFrequency /! Fin 440) = Fin (-110).
Proof.
  unfold tinyFrequency. cbn [JS.div].
  rewrite (proj2 (eqR_false 440 0)) by lra.
  pose proof pow2_110_pos as Hp.
  assert (Hi : 0 < / 2 ^ 110) by now apply Rinv_0_lt_compat.
  assert (E : 440 * / 2 ^ 110 / 440 = / 2 ^ 110) by (field; lra).
  rewrite E. cbn [JS.log2].
  rewrite (proj2 (ltR_false _ _)) by lra.
  rewrite (proj2 (eqR_false _ _)) by lra.
  f_equal. rewrite ln_Rinv by assumption. rewrite ln_pow by lra.
  assert (Hl : 0 < ln 2) by (pose proof ln_lt_2; lra).
  rewrite INR_IZR_INZ. cbn [Z.of_nat Pos.of_succ_nat Pos.succ].
  field. lra.
Qed.

Lemma nearestMidi_tinyFrequency :
  JS.round (Fin 69 +! Fin 12 *! Fin (-110)) = Fin (-1251).
Proof.
  cbn [JS.mul JS.add JS.round]. f_equal. f_equal.
  apply Zfloor_eq. split; lra.
Qed.

Lemma noteIndexOf_minus_1251 : Note.noteIndexOf (Fin (-1251)) = Fin (-3).
Proof.
  unfold Note.noteIndexOf. cbn [JS.add JS.rem].
  rewrite (proj2 (eqR_false 12 0)) by lra. f_equal.
  unfold JS.Ztrunc. rewrite (proj2 (ltR_spec _ _)) by lra.
  rewrite (Zfloor_eq 4) by (split; lra). simpl IZR. lra.
Qed.

Lemma nameAt_minus_3 : Note.nameAt (Fin (-3)) = None.
Proof.
  unfold Note.nameAt. rewrite ZfloorZ.
  rewrite (proj2 (eqR_spec _ _) eq_refl). reflexivity.
Qed.

Lemma octave_minus_1251 :
  JS.floor (Fin (-1251) /! Fin 12) -! Fin 1 = Fin (-106).
Proof.
  cbn [JS.div]. rewrite (proj2 (eqR_false 12 0)) by lra.
  cbn [JS.floor]. rewrite (Zfloor_eq (-105)) by (split; lra).
  unfold JS.sub. cbn [JS.neg JS.add]. f_equal. lra.
Qed.

Lemma showInteger_minus_106 : Note.showInteger (Fin (-106)) = "-106"%string.
Proof. unfold Note.showInteger. rewrite ZfloorZ. reflexivity. Qed.

End NoteMapperTiny.

Section NoteMapperClaims.

(** C4, at the failing input.  For the positive finite frequency
    440 * 2^-110 Hz the mapper computes [nearestMidi = -1251] as specified,
    but its note index, [(nearestMidi + 1200) % 12], is -3: it is
    negative, it differs from [((nearestMidi % 12) + 12) % 12 = 9], and the
    name table has no entry for it, so the note name starts with
    [undefined]. *)
Theorem noteIndex_negative_below_midi_minus_1200 :
  exists noteData,
    Note.frequencyToNoteData tinyFrequency = Some noteData
    /\ Note.midi noteData = Fin 69 +! Fin 12 *! Fin (-110)
    /\ Note.nearestMidi noteData = Fin (-1251)
    /\ Note.noteIndexOf (Note.nearestMidi noteData) = Fin (-3)
    /\ Z.rem (Z.rem (-1251) 12 + 12) 12 = 9%Z
    /\ Note.nameAt (Note.noteIndexOf (Note.nearestMidi noteData)) = None
    /\ Note.noteName noteData = "undefined-106"%string.
Proof.
  destruct tinyFrequency_positive as (x & Ex & Hx).
  unfold Note.frequencyToNoteData.
  rewrite log2_tinyFrequency, nearestMidi_tinyFrequency,
    noteIndexOf_minus_1251, nameAt_minus_3, octave_minus_1251,
    showInteger_minus_106.
  rewrite Ex. cbn [JS.truthy JS.le].
  rewrite (proj2 (eqR_false x 0)) by lra.
  rewrite (proj2 (leR_false x 0)) by lra.
  cbn [negb orb]. eexists. split; [reflexivity|].
  cbn [Note.midi Note.nearestMidi Note.noteName].
  rewrite noteIndexOf_minus_1251, nameAt_minus_3.
  repeat split; reflexivity.
Qed.

End NoteMapperClaims.

(* ================================================================= *)
(** ** The tracker hands its thresholds to the estimator *)

Section TrackerInit.

Lemma init_builds_detector (t : Pitch.PitchTracker) (ctx : Pitch.AudioContext) :
  Pitch.initialized t = false ->
  Pitch.yin (Pitch.init t ctx)
  = Some (Yin.new (Pitch.ctx_sampleRate ctx) (Pitch.yinThreshold t)
            (Pitch.probabilityThreshold t) (Pitch.bufferSize t))
  /\ Pitch.probabilityThreshold (Pitch.init t ctx)
     = Pitch.probabilityThreshold t.
Proof.
  intros Hi. unfold Pitch.init. rewrite Hi. split; reflexivity.
Qed.

(** A call of [getPitch] leaves the detector and the thresholds alone. *)
Lemma getPitch_keeps_detector (t : Pitch.PitchTracker) (frame : list num)
    (currentTime now : num) :
  let t' := Pitch.res_tracker (Pitch.getPitch t frame currentTime now) in
  Pitch.yin t' = Pitch.yin t
  /\ Pitch.probabilityThreshold t' = Pitch.probabilityThreshold t
  /\ Pitch.rmsThreshold t' = Pitch.rmsThreshold t.
Proof.
  unfold Pitch.getPitch.
  destruct (negb (Pitch.initialized t) || _ || _); [cbn; auto|].
  destruct (match Pitch.autoGain t with Some _ => _ | None => _ end)
    as [[m g'] calls].
  destruct (_ <! Pitch.rmsThreshold t); [cbn; auto|].
  destruct (Pitch.yin t) as [y|] eqn:Ey; [|cbn; auto].
  destruct (Yin.getPitch y frame); cbn; auto.
Qed.

End TrackerInit.

(* ================================================================= *)
(** ** One frame through the whole pipeline *)

Section PipelineExample.

Lemma amplitudeStep_unit (s p x : R) :
  x = 1 \/ x = -1 -> 0 <= p <= 1 ->
  Pitch.amplitudeStep (Fin s, Fin p) (Fin x) = (Fin (s + 1), Fin 1).
Proof.
  intros Hx Hp. unfold Pitch.amplitudeStep. js_simpl.
  assert (Ha : Rabs x = 1).
  { destruct Hx as [-> | ->]; [apply Rabs_R1|].
    rewrite Rabs_left by lra. lra. }
  assert (Hsq : x * x = 1) by (destruct Hx as [-> | ->]; lra).
  rewrite Ha, Hsq. f_equal.
  destruct (Rlt_dec p 1) as [Hlt|Hge].
  - now rewrite (proj2 (ltR_spec p 1) Hlt).
  - rewrite (proj2 (ltR_false p 1)) by lra. f_equal. lra.
Qed.

Lemma squareFrame_amplitude :
  exists s,
    fold_left Pitch.amplitudeStep squareFrame (Fin 0, Fin 0) = (Fin s, Fin 1)
    /\ s = 8.
Proof.
  unfold squareFrame. cbn [fold_left].
  repeat (rewrite amplitudeStep_unit by (auto; lra)).
  eexists. split; [reflexivity | lra].
Qed.

Lemma squareFrame_analyseAmplitude :
  Pitch._analyseAmplitude squareFrame
  = {| Pitch.a_rms := Fin 1; Pitch.a_peak := Fin 1 |}.
Proof.
  unfold Pitch._analyseAmplitude.
  destruct squareFrame_amplitude as (s & -> & ->).
  js_run. replace (8 / 8) with 1 by lra. now rewrite sqrt_1.
Qed.

Lemma first_update_metrics :
  fst (AutoGain.update (AutoGain.new Pitch.defaultAutoGainOptions)
         (Fin 0) (Fin 1))
  = {| AutoGain.m_smoothedRms := Fin 1; AutoGain.m_gain := Fin (1 / 2) |}.
Proof.
  unfold AutoGain.update, AutoGain.new, AutoGain._clamp,
    Pitch.defaultAutoGainOptions, AutoGain.defaults.
  js_run. same_numbers.
Qed.

Lemma smallTracker_getPitch :
  let r := Pitch.getPitch smallTracker squareFrame (Fin 0) (Fin 20) in
  Pitch.res_outcome r = Pitch.Returned (Some squareReading)
  /\ Pitch.res_calls r
     = [Pitch.GetFloatTimeDomainData; Pitch.AutoGainUpdate (Fin 1);
        Pitch.YinGetPitch].
Proof.
  assert (Hi : Pitch.initialized smallTracker = true) by reflexivity.
  assert (Ha : Pitch.analyser smallTracker = Some {| Pitch.fftSize := 8 |})
    by reflexivity.
  assert (Hr : Pitch.isRunning smallTracker = true) by reflexivity.
  assert (Hg : Pitch.autoGain smallTracker
               = Some (AutoGain.new Pitch.defaultAutoGainOptions))
    by reflexivity.
  assert (Hy : Pitch.yin smallTracker = Some smallDetector) by reflexivity.
  assert (Ht : Pitch.rmsThreshold smallTracker = Fin (1 / 100))
    by reflexivity.
  unfold Pitch.getPitch. rewrite Hi, Ha, Hr, Hg, Hy, Ht.
  cbn [negb orb]. rewrite squareFrame_analyseAmplitude.
  cbn [Pitch.a_rms Pitch.a_peak].
  pose proof first_update_metrics as Hm.
  destruct (AutoGain.update _ (Fin 0) (Fin 1)) as [m g'].
  cbn [fst] in Hm. subst m.
  rewrite squareFrame_getPitch.
  assert (Hgate : Fin 1 <! Fin (1 / 100) = false)
    by (cbn; apply ltR_false; lra).
  rewrite Hgate. cbn. split; reflexivity.
Qed.

(** The stabilizer accepts that reading from its initial state, clamped to
    the top of the valid range. *)
Lemma squareReading_accepted :
  accepted App.initial (Fin 20) (Some squareReading)
  /\ App.lastFrequency
       (fst (App.pollTick App.initial (Fin 20) (Some squareReading)))
     = Some (Fin 1660).
Proof.
  assert (Hn : App.noPitch (Some squareReading) = false).
  { cbn. rewrite (proj2 (eqR_false _ _)) by lra. reflexivity. }
  assert (Hacc : accepted App.initial (Fin 20) (Some squareReading)).
  { apply pollTick_passed; [exact Hn | | reflexivity].
    cbn. apply leR_false. lra. }
  split; [exact Hacc|].
  destruct Hacc as (nd & _ & -> & _). f_equal.
  unfold clampFrequency, App.MIN_VALID_FREQ, App.MAX_VALID_FREQ.
  js_run. reflexivity.
Qed.

Lemma low_confidence_never_reaches_stabilizer_witness :
  Yin.probabilityThreshold smallDetector <=! Pitch.probability squareReading
  = true.
Proof.
  apply (proj2 (low_confidence_never_reaches_stabilizer
                  smallTracker smallDetector squareFrame (Fin 0) (Fin 20)
                  eq_refl ltac:(discriminate))
               squareReading (Fin (480000 / 19))).
  - exact (proj1 smallTracker_getPitch).
  - reflexivity.
Defined.

End PipelineExample.

(* ================================================================= *)
(** * Further properties of the code *)

(** ** The threshold search *)

Section YinSearchMore.

Variable H : nat.
Variable c : list num.

Lemma lt_trans_num (a b d : num) :
  a <! b = true -> b <! d = true -> a <! d = true.
Proof. destruct a, b, d; simpl; try congruence; intros; decide_reals. Qed.

(** The walk down stays inside the array. *)
Lemma descend_lt (fuel tau : nat) :
  (tau < H)%nat -> (Yin.descend H c fuel tau < H)%nat.
Proof.
  revert tau. induction fuel as [|fuel IH]; intros tau Ht;
    cbn [Yin.descend]; [exact Ht|].
  destruct ((tau + 1 <? H)%nat && (JS.get c (tau + 1) <! JS.get c tau))
    eqn:E; [|exact Ht].
  apply IH. apply andb_true_iff in E. destruct E as [E _].
  now apply Nat.ltb_lt in E.
Qed.

(** The walk down only reaches lower values. *)
Lemma descend_below (th : num) (fuel tau : nat) :
  JS.get c tau <! th = true ->
  JS.get c (Yin.descend H c fuel tau) <! th = true.
Proof.
  revert tau. induction fuel as [|fuel IH]; intros tau Ht;
    cbn [Yin.descend]; [exact Ht|].
  destruct ((tau + 1 <? H)%nat && (JS.get c (tau + 1) <! JS.get c tau))
    eqn:E; [|exact Ht].
  apply IH. apply andb_true_iff in E. destruct E as [_ E].
  exact (lt_trans_num _ _ _ E Ht).
Qed.

(** The [for] loop finds nothing exactly when no lag it visits is under the
    threshold. *)
Lemma scan_none (th : num) (taus : list nat) :
  Yin.scan H th c taus = None
  <-> forall k, In k taus -> JS.get c k <! th = false.
Proof.
  induction taus as [|tau taus IH]; cbn [Yin.scan].
  - split; [intros _ k [] | reflexivity].
  - destruct (JS.get c tau <! th) eqn:E.
    + split; [discriminate|]. intros Hall.
      rewrite (Hall tau (or_introl eq_refl)) in E. discriminate.
    + rewrite IH. split.
      * intros Hall k [<- | Hk]; auto.
      * intros Hall k Hk. apply Hall. now right.
Qed.

End YinSearchMore.

Section YinSearchClaims.

(** X1.  The lag step 3 returns lies in [2, halfBuffer), its normalised
    difference is under the threshold, and it is a local minimum to the
    right: the next entry, when there is one, is not smaller. *)
Theorem absoluteThreshold_lag_in_range
    (y : Yin.YinPitchDetector) (c : list num) (tau : nat) :
  Yin._absoluteThreshold y c = Some tau ->
  (2 <= tau < Yin.halfBuffer y)%nat
  /\ JS.get c tau <! Yin.threshold y = true
  /\ ((tau + 1 < Yin.halfBuffer y)%nat ->
      JS.get c (tau + 1) <! JS.get c tau = false).
Proof.
  intros Hs. pose proof Hs as Hs'. unfold Yin._absoluteThreshold in Hs'.
  apply scan_seq in Hs'. destruct Hs' as (tc & Hr & Hc & _ & E).
  destruct (absoluteThreshold_spec y c tau Hs)
    as (tc' & Hr' & _ & _ & _ & Hexit).
  split; [split; [lia|] |split].
  - rewrite E. apply descend_lt. lia.
  - rewrite E. now apply descend_below.
  - intros Hlt. apply andb_false_iff in Hexit.
    destruct Hexit as [Hb | Hv]; [|exact Hv].
    apply Nat.ltb_ge in Hb. lia.
Qed.

(** X2.  Step 3 returns -1 exactly when no lag from 2 up to halfBuffer - 1
    has a normalised difference under the threshold; NaN entries never
    count as under it. *)
Theorem absoluteThreshold_none_iff
    (y : Yin.YinPitchDetector) (c : list num) :
  Yin._absoluteThreshold y c = None
  <-> forall k, (2 <= k < Yin.halfBuffer y)%nat ->
                JS.get c k <! Yin.threshold y = false.
Proof.
  unfold Yin._absoluteThreshold. rewrite scan_none. split.
  - intros Hall k Hk. apply Hall. apply in_seq. lia.
  - intros Hall k Hk. apply in_seq in Hk. apply Hall. lia.
Qed.

End YinSearchClaims.

(** ** The shape of the normalised difference *)

Section YinShape.

Lemma square_sumOfSquares (d : num) : sumOfSquares (d *! d).
Proof.
  destruct d as [x| | |]; simpl; trivial. nra.
Qed.

Lemma add_sumOfSquares (a b : num) :
  sumOfSquares a -> sumOfSquares b -> sumOfSquares (a +! b).
Proof.
  destruct a, b; simpl; trivial; try contradiction. lra.
Qed.

Lemma differenceAt_sumOfSquares (H : nat) (buffer : list num) (tau : nat) :
  sumOfSquares (Yin.differenceAt H buffer tau).
Proof.
  unfold Yin.differenceAt.
  assert (G : forall l acc, sumOfSquares acc ->
            sumOfSquares
              (fold_left
                 (fun sum i =>
                    let delta :=
                      JS.get buffer i -! JS.get buffer (i + tau) in
                    sum +! delta *! delta) l acc)).
  { induction l as [|i l IH]; intros acc Hacc; cbn [fold_left]; [exact Hacc|].
    apply IH. apply add_sumOfSquares; [exact Hacc|].
    apply square_sumOfSquares. }
  apply G. simpl. lra.
Qed.

Lemma Forall_firstn_keep {A : Type} (P : A -> Prop) (n : nat) (l : list A) :
  Forall P l -> Forall P (firstn n l).
Proof.
  revert l. induction n as [|n IH]; intros l Hl; [constructor|].
  destruct Hl; cbn [firstn]; constructor; auto.
Qed.

Lemma difference_sumOfSquares (y : Yin.YinPitchDetector) (buffer : list num) :
  Forall sumOfSquares (Yin._difference y buffer).
Proof.
  unfold Yin._difference. apply Forall_firstn_keep. constructor.
  - simpl. lra.
  - apply Forall_forall. intros d Hd. apply in_map_iff in Hd.
    destruct Hd as (tau & <- & _). apply differenceAt_sumOfSquares.
Qed.

Lemma cumulativeLoop_shape (ds : list num) :
  Forall sumOfSquares ds ->
  forall (tau : nat) (runningSum : num),
    (1 <= tau)%nat -> sumOfSquares runningSum ->
    Forall nonNegativeOrNaN (Yin.cumulativeLoop tau runningSum ds).
Proof.
  induction 1 as [|d ds Hd _ IH]; intros tau rs Htau Hrs;
    cbn [Yin.cumulativeLoop]; constructor.
  - assert (Ht : 1 <= INR tau).
    { change 1 with (INR 1). apply le_INR. exact Htau. }
    unfold JS.ofNat. set (t := INR tau) in *. clearbody t.
    destruct rs as [r| | |], d as [x| | |]; simpl in Hrs, Hd;
      try contradiction; decide_reals; trivial.
    all: cbn [nonNegativeOrNaN]; try lra; try exact I.
    all: apply Rmult_le_pos; [nra|]; left; apply Rinv_0_lt_compat; lra.
  - apply IH; [lia|]. now apply add_sumOfSquares.
Qed.

(** Every entry of the normalised difference is a non-negative finite number
    or NaN, whatever the frame holds; so is a read past its end. *)
Lemma cumulativeMean_shape (y : Yin.YinPitchDetector) (buffer : list num)
    (i : nat) :
  nonNegativeOrNaN (JS.get (Yin.cumulativeMeanOf y buffer) i).
Proof.
  assert (Hall : Forall nonNegativeOrNaN (Yin.cumulativeMeanOf y buffer)).
  { unfold Yin.cumulativeMeanOf, Yin._cumulativeMeanNormalizedDifference.
    pose proof (difference_sumOfSquares y buffer) as Hd.
    destruct (Yin._difference y buffer) as [|d0 ds]; [constructor|].
    inversion Hd; subst. constructor; [simpl; lra|].
    apply cumulativeLoop_shape; trivial. simpl. lra. }
  unfold JS.get. destruct (nth_in_or_default i (Yin.cumulativeMeanOf y buffer) NaN)
    as [Hin | ->]; [|exact I].
  rewrite Forall_forall in Hall. now apply Hall.
Qed.

Lemma absoluteThreshold_below (y : Yin.YinPitchDetector) (c : list num)
    (tau : nat) :
  Yin._absoluteThreshold y c = Some tau ->
  JS.get c tau <! Yin.threshold y = true.
Proof.
  unfold Yin._absoluteThreshold. intros Hs. apply scan_seq in Hs.
  destruct Hs as (tc & _ & Hc & _ & ->). now apply descend_below.
Qed.

End YinShape.

Section YinProbability.

(** X3.  The probability of every estimate [getPitch] returns is a finite
    number, at most 1, above [1 - threshold], and not below the probability
    threshold; this holds for every frame, NaN and infinite samples
    included. *)
Theorem getPitch_probability_range
    (y : Yin.YinPitchDetector) (buffer : list num) (e : Yin.estimate) :
  Yin.getPitch y buffer = Some e ->
  exists p,
    Yin.probability e = Fin p
    /\ p <= 1
    /\ Fin 1 -! Yin.threshold y <! Yin.probability e = true
    /\ Yin.probability e <! Yin.probabilityThreshold y = false.
Proof.
  intros He. destruct (getPitch_inv y buffer e He) as (tau & Hs & Hp & _ & E).
  pose proof (absoluteThreshold_below y _ tau Hs) as Hb.
  pose proof (cumulativeMean_shape y buffer tau) as Hc.
  rewrite E in *.
  destruct (JS.get (Yin.cumulativeMeanOf y buffer) tau) as [v| | |];
    simpl in Hc; try contradiction; try discriminate.
  exists (1 + - v). split; [reflexivity|]. split; [lra|].
  split; [|exact Hp].
  destruct (Yin.threshold y) as [t| | |]; try discriminate; [|reflexivity].
  simpl in Hb |- *. apply ltR_spec in Hb. apply ltR_spec. lra.
Qed.

End YinProbability.

(** ** Frames without a period *)

Section YinConstantFrame.

Variable v : R.
Variable n : nat.

Lemma get_constant (i : nat) :
  JS.get (repeat (Fin v) n) i = Fin v \/ JS.get (repeat (Fin v) n) i = NaN.
Proof.
  unfold JS.get.
  destruct (nth_in_or_default i (repeat (Fin v) n) NaN) as [Hin | ->];
    [left | now right].
  exact (repeat_spec _ _ _ Hin).
Qed.

Lemma differenceAt_constant (H tau : nat) :
  zeroOrNaN (Yin.differenceAt H (repeat (Fin v) n) tau).
Proof.
  unfold Yin.differenceAt.
  assert (G : forall l acc, zeroOrNaN acc ->
            zeroOrNaN
              (fold_left
                 (fun sum i =>
                    let delta :=
                      JS.get (repeat (Fin v) n) i
                      -! JS.get (repeat (Fin v) n) (i + tau) in
                    sum +! delta *! delta) l acc)).
  { induction l as [|i l IH]; intros acc Hacc; cbn [fold_left]; [exact Hacc|].
    apply IH. cbv zeta.
    destruct (get_constant i) as [-> | ->],
             (get_constant (i + tau)) as [-> | ->];
      destruct acc; simpl in *; trivial; subst; lra. }
  apply G. reflexivity.
Qed.

Lemma cumulativeLoop_constant (ds : list num) :
  Forall zeroOrNaN ds ->
  forall (tau : nat) (runningSum : num),
    zeroOrNaN runningSum ->
    Forall oneOrNaN (Yin.cumulativeLoop tau runningSum ds).
Proof.
  induction 1 as [|d ds Hd _ IH]; intros tau rs Hrs;
    cbn [Yin.cumulativeLoop]; constructor.
  - destruct rs as [r| | |], d as [x| | |]; simpl in Hrs, Hd;
      try contradiction; subst; decide_reals; trivial.
  - apply IH. destruct rs, d; simpl in *; trivial; try contradiction.
    subst. lra.
Qed.

Lemma cumulativeMean_constant (y : Yin.YinPitchDetector) (i : nat) :
  oneOrNaN (JS.get (Yin.cumulativeMeanOf y (repeat (Fin v) n)) i).
Proof.
  assert (Hall : Forall oneOrNaN
                   (Yin.cumulativeMeanOf y (repeat (Fin v) n))).
  { unfold Yin.cumulativeMeanOf, Yin._cumulativeMeanNormalizedDifference.
    assert (Hd : Forall zeroOrNaN (Yin._difference y (repeat (Fin v) n))).
    { unfold Yin._difference. apply Forall_firstn_keep. constructor.
      - reflexivity.
      - apply Forall_forall. intros d Hin. apply in_map_iff in Hin.
        destruct Hin as (tau & <- & _). apply differenceAt_constant. }
    destruct (Yin._difference y (repeat (Fin v) n)) as [|d0 ds];
      [constructor|].
    inversion Hd; subst. constructor; [reflexivity|].
    apply cumulativeLoop_constant; trivial. reflexivity. }
  unfold JS.get.
  destruct (nth_in_or_default i (Yin.cumulativeMeanOf y (repeat (Fin v) n))
              NaN) as [Hin | ->]; [|exact I].
  rewrite Forall_forall in Hall. now apply Hall.
Qed.

(** X4.  A constant frame (silence or a pure DC level) of any length never
    yields a pitch, for any detector whose threshold is at most 1: every
    normalised difference is 1 (or NaN where the frame is too short). *)
Theorem getPitch_constant_frame (y : Yin.YinPitchDetector) :
  Yin.threshold y <=! Fin 1 = true ->
  Yin.getPitch y (repeat (Fin v) n) = None.
Proof.
  intros Hth. unfold Yin.getPitch.
  assert (Hnone : Yin._absoluteThreshold y
                    (Yin.cumulativeMeanOf y (repeat (Fin v) n)) = None).
  { unfold Yin._absoluteThreshold. apply scan_none. intros k _.
    pose proof (cumulativeMean_constant y k) as Hk.
    destruct (JS.get _ k) as [r| | |]; simpl in Hk; try contradiction;
      [|reflexivity].
    subst r. destruct (Yin.threshold y) as [t| | |]; try discriminate;
      simpl in Hth |- *; [|reflexivity].
    apply leR_spec in Hth. apply ltR_false. exact Hth. }
  rewrite Hnone. reflexivity.
Qed.

End YinConstantFrame.

Section YinConstantFrameWitness.

Lemma getPitch_constant_frame_witness :
  Yin.getPitch smallDetector (repeat (Fin (3 / 10)) 8) = None.
Proof.
  apply (getPitch_constant_frame (3 / 10) 8 smallDetector).
  cbn. apply leR_spec. lra.
Defined.

Lemma absoluteThreshold_lag_in_range_witness :
  (2 <= 2 < Yin.halfBuffer smallDetector)%nat
  /\ JS.get (Yin.cumulativeMeanOf smallDetector squareFrame) 2
       <! Yin.threshold smallDetector = true
  /\ ((2 + 1 < Yin.halfBuffer smallDetector)%nat ->
      JS.get (Yin.cumulativeMeanOf smallDetector squareFrame) (2 + 1)
        <! JS.get (Yin.cumulativeMeanOf smallDetector squareFrame) 2
      = false).
Proof.
  apply (absoluteThreshold_lag_in_range smallDetector
           (Yin.cumulativeMeanOf smallDetector squareFrame) 2).
  exact squareFrame_absoluteThreshold.
Defined.

Lemma getPitch_probability_range_witness :
  exists p,
    Yin.probability {| Yin.frequency := Fin (480000 / 19);
                       Yin.probability := Fin 1 |} = Fin p
    /\ p <= 1
    /\ Fin 1 -! Yin.threshold smallDetector
         <! Yin.probability {| Yin.frequency := Fin (480000 / 19);
                               Yin.probability := Fin 1 |} = true
    /\ Yin.probability {| Yin.frequency := Fin (480000 / 19);
                          Yin.probability := Fin 1 |}
         <! Yin.probabilityThreshold smallDetector = false.
Proof.
  apply (getPitch_probability_range smallDetector squareFrame).
  exact squareFrame_getPitch.
Defined.

End YinConstantFrameWitness.

(** ** How far the refinement moves the lag *)

Section YinRefinementRange.

Lemma parabola_vertex_upper (tau : R) (s0 s1 s2 : num) :
  s0 = NaN \/ s1 <! s0 = true ->
  s2 <! s1 = false ->
  match Fin tau +! (s2 -! s0) /! (Fin 2 *! (Fin 2 *! s1 -! s2 -! s0)) with
  | Fin r => r <= tau + / 2
  | _ => True
  end.
Proof.
  intros [-> | H10] H21.
  { destruct s1, s2; decide_reals; exact I. }
  destruct s0 as [a| | |], s1 as [b| | |], s2 as [d| | |];
    try discriminate; try (decide_reals; exact I).
  apply ltR_spec in H10. apply ltR_false in H21. js_simpl.
  set (D := 2 * (2 * b + - d + - a)).
  assert (HD : D < 0) by (unfold D; lra).
  assert (E : JS.eqR D 0 = false) by (apply eqR_false; lra).
  rewrite E. cbn [JS.add].
  assert (Hinv : / D < 0) by now apply Rinv_lt_0_compat.
  assert (Hid : D * / D = 1) by (apply Rinv_r; lra).
  unfold Rdiv.
  assert (Hk : (d + - a) * / D - / 2 = (2 * (d - b)) * / D).
  { replace (/ 2) with ((D * / D) * / 2) by (rewrite Hid; lra).
    unfold D. field. fold D. lra. }
  assert ((2 * (d - b)) * / D <= 0).
  { replace (2 * (d - b) * / D) with (- ((2 * (d - b)) * (- / D))) by ring.
    assert (0 <= (2 * (d - b)) * (- / D)) by (apply Rmult_le_pos; lra).
    lra. }
  lra.
Qed.

Variable y : Yin.YinPitchDetector.
Variable buffer : list num.

Let c : list num := Yin.cumulativeMeanOf y buffer.

(** The refined lag is a finite number within half a sample of the integer
    lag, and at most [halfBuffer - 1]. *)
Lemma refined_lag_near (tau : nat) :
  Yin.threshold y <=! Fin 1 = true
  \/ Fin 0 <! Yin.probabilityThreshold y = true ->
  Yin._absoluteThreshold y c = Some tau ->
  Fin 1 -! JS.get c tau <! Yin.probabilityThreshold y = false ->
  exists r,
    Yin._parabolicInterpolation y c tau = Fin r
    /\ INR tau - / 2 < r <= INR tau + / 2
    /\ r <= INR (Yin.halfBuffer y) - 1.
Proof.
  intros Hcfg Hs Hprob.
  destruct (absoluteThreshold_spec y c tau Hs)
    as (tc & Hr & Hc & Hbefore & Hleft & Hexit).
  assert (HtauH : (tau < Yin.halfBuffer y)%nat).
  { pose proof Hs as Hs'. unfold Yin._absoluteThreshold in Hs'.
    apply scan_seq in Hs'. destruct Hs' as (tc' & Hr' & _ & _ & ->).
    apply descend_lt. lia. }
  assert (HH : INR tau + 1 <= INR (Yin.halfBuffer y)).
  { rewrite <- S_INR. apply le_INR. lia. }
  unfold Yin._parabolicInterpolation.
  destruct ((tau <? 1)%nat || (Yin.halfBuffer y <=? tau + 1)%nat) eqn:Hedge.
  { exists (INR tau). split; [reflexivity | lra]. }
  apply orb_false_iff in Hedge. destruct Hedge as [_ Hedge].
  apply Nat.leb_gt in Hedge.
  assert (HH2 : INR tau + 2 <= INR (Yin.halfBuffer y)).
  { replace (INR tau + 2) with (INR (tau + 2)).
    - apply le_INR. lia.
    - rewrite plus_INR. simpl. lra. }
  assert (H21 : JS.get c (tau + 1) <! JS.get c tau = false).
  { apply andb_false_iff in Hexit. destruct Hexit as [E | E]; [|exact E].
    apply Nat.ltb_ge in E. lia. }
  assert (H10 : JS.get c (tau - 1) = NaN
                \/ JS.get c tau <! JS.get c (tau - 1) = true).
  { destruct Hleft as [-> | Hl]; [|auto].
    destruct (Nat.eq_dec tc 2) as [-> | Hne].
    - cbn [Nat.sub].
      destruct (cumulativeMean_at_1 (Yin._difference y buffer)) as [E | E];
        fold (Yin.cumulativeMeanOf y buffer) in E; fold c in E;
        rewrite E; [right | now left].
      destruct Hcfg as [Hth | Hpt].
      + exact (lt_le_trans _ _ _ Hc Hth).
      + exact (confident_below_one _ _ _ Hc Hpt Hprob).
    - apply (below_threshold_below_left _ _ _ Hc). apply Hbefore. lia. }
  pose proof (parabola_vertex (INR tau) _ _ _ H10 H21) as Hlo.
  pose proof (parabola_vertex_upper (INR tau) _ _ _ H10 H21) as Hhi.
  unfold JS.ofNat.
  destruct (Fin (INR tau) +! _) as [r| | |] eqn:Eb; cbn [JS.isFinite].
  - exists r. split; [reflexivity | lra].
  - exists (INR tau). split; [reflexivity | lra].
  - exists (INR tau). split; [reflexivity | lra].
  - exists (INR tau). split; [reflexivity | lra].
Qed.

End YinRefinementRange.

Section YinFrequencyRange.

(** X5.  For a positive sample rate, the refined lag of a returned estimate
    is within half a sample of the integer lag the search found, and the
    frequency, the sample rate over that lag, lies between
    [sampleRate / (halfBuffer - 1)] and [sampleRate / 1.5]. *)
Theorem getPitch_frequency_range
    (y : Yin.YinPitchDetector) (buffer : list num) (e : Yin.estimate)
    (sr : R) :
  Yin.sampleRate y = Fin sr ->
  0 < sr ->
  Yin.threshold y <=! Fin 1 = true
  \/ Fin 0 <! Yin.probabilityThreshold y = true ->
  Yin.getPitch y buffer = Some e ->
  exists (tau : nat) (r f : R),
    Yin._absoluteThreshold y (Yin.cumulativeMeanOf y buffer) = Some tau
    /\ Yin._parabolicInterpolation y (Yin.cumulativeMeanOf y buffer) tau
       = Fin r
    /\ INR tau - / 2 < r <= INR tau + / 2
    /\ Yin.frequency e = Fin f
    /\ f * r = sr
    /\ sr / (INR (Yin.halfBuffer y) - 1) <= f < sr / (3 / 2).
Proof.
  intros Hsr Hpos Hcfg He.
  destruct (getPitch_inv y buffer e He) as (tau & Hs & Hp & Hf & _).
  destruct (refined_lag_near y buffer tau Hcfg Hs Hp)
    as (r & Er & Hnear & Htop).
  destruct (absoluteThreshold_spec y _ tau Hs) as (tc & Htc & _).
  assert (Htau : 2 <= INR tau).
  { change 2 with (INR 2). apply le_INR. lia. }
  assert (Hr : 3 / 2 < r) by lra.
  exists tau, r, (sr / r). split; [exact Hs|]. split; [exact Er|].
  split; [exact Hnear|].
  rewrite Hf, Er, Hsr. cbn [JS.div].
  rewrite (proj2 (eqR_false r 0)) by lra.
  split; [reflexivity|]. split; [field; lra|].
  assert (Hir : 0 < / r) by (apply Rinv_0_lt_compat; lra).
  split.
  - unfold Rdiv. apply Rmult_le_compat_l; [lra|].
    apply Rinv_le_contravar; lra.
  - unfold Rdiv. apply Rmult_lt_compat_l; [lra|].
    apply Rinv_lt_contravar; [nra | lra].
Qed.

Lemma getPitch_frequency_range_witness :
  let e := {| Yin.frequency := Fin (480000 / 19);
              Yin.probability := Fin 1 |} in
  exists (tau : nat) (r f : R),
    Yin._absoluteThreshold smallDetector
      (Yin.cumulativeMeanOf smallDetector squareFrame) = Some tau
    /\ Yin._parabolicInterpolation smallDetector
         (Yin.cumulativeMeanOf smallDetector squareFrame) tau = Fin r
    /\ INR tau - / 2 < r <= INR tau + / 2
    /\ Yin.frequency e = Fin f
    /\ f * r = 48000
    /\ 48000 / (INR (Yin.halfBuffer smallDetector) - 1) <= f
       < 48000 / (3 / 2).
Proof.
  apply (getPitch_frequency_range smallDetector squareFrame _ 48000).
  - reflexivity.
  - lra.
  - left. cbn. apply leR_spec. lra.
  - exact squareFrame_getPitch.
Defined.

End YinFrequencyRange.

(* ================================================================= *)
(** ** The smoothing of the gain controller *)

Section AutoGainSmoothing.

Lemma decay_range (st now : R) (last : option num) :
  0 < st -> 0 <= decay st now last < 1.
Proof.
  intros Hst. unfold decay. destruct last as [[l| | |]|]; try lra.
  destruct (Rlt_dec l now) as [Hlt|]; [|lra].
  assert (Hx : - (now - l) / st < 0).
  { unfold Rdiv. assert (0 < / st) by now apply Rinv_0_lt_compat. nra. }
  pose proof (exp_pos (- (now - l) / st)).
  pose proof (exp_increasing _ _ Hx) as Hinc. rewrite exp_0 in Hinc. lra.
Qed.

(** What [update] computes as the smoothed RMS on a finite measurement, once
    a smoothed RMS is held. *)
Lemma update_smoothed_exact (c : AutoGain.AutoGainController)
    (now rms s st : R) :
  AutoGain.smoothedRms c = Some (Fin s) ->
  AutoGain.smoothingTime c = Fin st ->
  0 < st ->
  finiteOrNull (AutoGain.lastUpdateTime c) = true ->
  exists s',
    AutoGain.m_smoothedRms (fst (AutoGain.update c (Fin now) (Fin rms)))
    = Fin s'
    /\ s' = rms + decay st now (AutoGain.lastUpdateTime c) * (s - rms).
Proof.
  intros Hs Hst Hpos Hl. unfold AutoGain.update.
  cbn [JS.isFinite negb]. rewrite Hs, Hst.
  apply finiteOrNull_inv in Hl. destruct Hl as [-> | [l ->]];
    cbn [fst AutoGain.m_smoothedRms decay].
  - decide_reals. eexists; split; [reflexivity | lra].
  - destruct (Rlt_dec l now) as [Hlt | Hge].
    + js_simpl.
      rewrite (proj2 (ltR_spec 0 (now + - l))) by lra.
      rewrite (proj2 (ltR_spec 0 (now + - l))) by lra.
      cbn [JS.neg JS.div].
      rewrite (proj2 (eqR_false st 0)) by lra.
      cbn [JS.exp JS.neg JS.add JS.mul].
      eexists; split; [reflexivity|].
      replace (- (now + - l) / st) with (- (now - l) / st)
        by (unfold Rdiv; ring).
      ring.
    + js_simpl.
      rewrite (proj2 (ltR_false 0 (now + - l))) by lra.
      rewrite (proj2 (ltR_false 0 0)) by lra.
      cbn [JS.add JS.neg JS.mul].
      eexists; split; [reflexivity | lra].
Qed.

Lemma update_first_smoothed (c : AutoGain.AutoGainController)
    (now : num) (rms : R) :
  AutoGain.smoothedRms c = None ->
  AutoGain.m_smoothedRms (fst (AutoGain.update c now (Fin rms))) = Fin rms.
Proof.
  intros Hs. unfold AutoGain.update. rewrite Hs. reflexivity.
Qed.

End AutoGainSmoothing.

Section AutoGainSmoothingClaims.

Lemma update_stores_smoothed (c : AutoGain.AutoGainController)
    (now rms : num) :
  JS.isFinite rms = true ->
  let r := AutoGain.update c now rms in
  AutoGain.smoothedRms (snd r) = Some (AutoGain.m_smoothedRms (fst r))
  /\ AutoGain.lastUpdateTime (snd r) = Some now
  /\ AutoGain.smoothingTime (snd r) = AutoGain.smoothingTime c.
Proof.
  intros Hf. unfold AutoGain.update. rewrite Hf. cbn. auto.
Qed.

(** X8.  Where no smoothing happens.  On the first finite measurement, and
    on a finite measurement taken when the clock has not advanced since the
    last update (or has gone backwards), the smoothed RMS becomes the
    measurement itself: the old smoothed value has weight [1 - 1 = 0].  The
    controller stores it together with the clock value of the call. *)
Theorem update_without_elapsed_time (c : AutoGain.AutoGainController)
    (now rms : R) :
  AutoGain.smoothedRms c = None
  \/ (exists s last,
        AutoGain.smoothedRms c = Some (Fin s)
        /\ AutoGain.lastUpdateTime c = Some (Fin last)
        /\ now <= last) ->
  let r := AutoGain.update c (Fin now) (Fin rms) in
  AutoGain.m_smoothedRms (fst r) = Fin rms
  /\ AutoGain.smoothedRms (snd r) = Some (Fin rms)
  /\ AutoGain.lastUpdateTime (snd r) = Some (Fin now).
Proof.
  intros Hc r.
  destruct (update_stores_smoothed c (Fin now) (Fin rms) eq_refl)
    as (Estore & Etime & _).
  fold r in Estore, Etime.
  assert (E : AutoGain.m_smoothedRms (fst r) = Fin rms).
  { subst r. destruct Hc as [Hnone | (s & last & Hs & Hl & Hle)].
    - now apply update_first_smoothed.
    - unfold AutoGain.update. cbn [JS.isFinite negb]. rewrite Hs, Hl.
      cbn [fst AutoGain.m_smoothedRms]. js_simpl.
      rewrite (proj2 (ltR_false 0 (now + - last))) by lra.
      rewrite (proj2 (ltR_false 0 0)) by lra.
      cbn [JS.add JS.neg JS.mul]. f_equal. lra. }
  rewrite Estore, E. auto.
Qed.

End AutoGainSmoothingClaims.

Section AutoGainMonotone.

Lemma clamp_monotone (lo hi : num) (v1 v2 : R) :
  lo <=! hi = true -> v1 <= v2 ->
  JS.min hi (JS.max lo (Fin v1)) <=! JS.min hi (JS.max lo (Fin v2)) = true.
Proof.
  destruct lo, hi; simpl; try congruence; intros; decide_reals.
Qed.

(** The gain [update] returns is the clamp of the target over the smoothed
    RMS plus epsilon. *)
Lemma update_gain_formula (c : AutoGain.AutoGainController)
    (now rms s : R) :
  wellFormed c ->
  AutoGain.m_smoothedRms (fst (AutoGain.update c (Fin now) (Fin rms)))
  = Fin s ->
  AutoGain.m_gain (fst (AutoGain.update c (Fin now) (Fin rms)))
  = AutoGain._clamp c (AutoGain.targetRms c /! (Fin s +! AutoGain.epsilon c)).
Proof.
  intros Hwf. destruct (update_finite c now rms Hwf) as [s0 ->].
  cbn. intros [= ->]. reflexivity.
Qed.

(** X10.  A louder measurement never raises the gain: for a positive target
    and epsilon, of two non-negative finite measurements given to the same
    controller at the same clock value, the larger one yields the smaller
    (or equal) gain. *)
Theorem louder_input_never_raises_gain (c : AutoGain.AutoGainController)
    (now r1 r2 tg e st : R) :
  AutoGain.targetRms c = Fin tg -> 0 < tg ->
  AutoGain.epsilon c = Fin e -> 0 < e ->
  AutoGain.smoothingTime c = Fin st -> 0 < st ->
  AutoGain.smoothedRms c = None
  \/ (exists s, AutoGain.smoothedRms c = Some (Fin s) /\ 0 <= s) ->
  finiteOrNull (AutoGain.lastUpdateTime c) = true ->
  AutoGain.minGain c <=! AutoGain.maxGain c = true ->
  0 <= r1 <= r2 ->
  AutoGain.m_gain (fst (AutoGain.update c (Fin now) (Fin r2)))
  <=! AutoGain.m_gain (fst (AutoGain.update c (Fin now) (Fin r1))) = true.
Proof.
  intros Ht Htg He Hepos Hst Hstpos Hs Hl Hle Hr.
  assert (Hwf : wellFormed c).
  { unfold wellFormed. rewrite Ht, He, Hst, Hl. cbn.
    rewrite (proj2 (eqR_false tg 0)) by lra.
    repeat split. destruct Hs as [-> | (s & -> & _)]; reflexivity. }
  assert (Hsm : exists s1 s2,
             AutoGain.m_smoothedRms
               (fst (AutoGain.update c (Fin now) (Fin r1))) = Fin s1
             /\ AutoGain.m_smoothedRms
                  (fst (AutoGain.update c (Fin now) (Fin r2))) = Fin s2
             /\ 0 <= s1 <= s2).
  { destruct Hs as [Hnone | (s & Hsome & Hs0)].
    - exists r1, r2. rewrite !update_first_smoothed by exact Hnone.
      repeat split; lra.
    - destruct (update_smoothed_exact c now r1 s st Hsome Hst Hstpos Hl)
        as (s1 & E1 & Es1).
      destruct (update_smoothed_exact c now r2 s st Hsome Hst Hstpos Hl)
        as (s2 & E2 & Es2).
      pose proof (decay_range st now (AutoGain.lastUpdateTime c) Hstpos).
      exists s1, s2. split; [exact E1|]. split; [exact E2|].
      set (d := decay st now (AutoGain.lastUpdateTime c)) in *.
      split; nra. }
  destruct Hsm as (s1 & s2 & E1 & E2 & Hs12).
  rewrite (update_gain_formula c now r1 s1 Hwf E1).
  rewrite (update_gain_formula c now r2 s2 Hwf E2).
  rewrite Ht, He. cbn [JS.add JS.div].
  rewrite (proj2 (eqR_false (s1 + e) 0)) by lra.
  rewrite (proj2 (eqR_false (s2 + e) 0)) by lra.
  unfold AutoGain._clamp. apply clamp_monotone; [exact Hle|].
  unfold Rdiv. apply Rmult_le_compat_l; [lra|].
  apply Rinv_le_contravar; lra.
Qed.

End AutoGainMonotone.

Section AutoGainSmoothingWitnesses.

(** The controller of the examples is the default one after its first
    update. *)
Lemma heldController_reached :
  snd (AutoGain.update (AutoGain.new AutoGain.defaults) (Fin 0) (Fin 1))
  = heldController.
Proof.
  unfold AutoGain.update, AutoGain.new, AutoGain._clamp,
    AutoGain.setTargetAtTime, AutoGain.defaults, heldController.
  js_run. same_numbers.
Qed.

Lemma update_without_elapsed_time_witness :
  let r := AutoGain.update heldController (Fin 0) (Fin 2) in
  AutoGain.m_smoothedRms (fst r) = Fin 2
  /\ AutoGain.smoothedRms (snd r) = Some (Fin 2)
  /\ AutoGain.lastUpdateTime (snd r) = Some (Fin 0).
Proof.
  apply (update_without_elapsed_time heldController 0 2).
  right. exists 1, 0. split; [reflexivity|]. split; [reflexivity | lra].
Defined.

Lemma louder_input_never_raises_gain_witness :
  AutoGain.m_gain (fst (AutoGain.update heldController (Fin 3) (Fin 2)))
  <=! AutoGain.m_gain (fst (AutoGain.update heldController (Fin 3) (Fin 1)))
  = true.
Proof.
  apply (louder_input_never_raises_gain heldController 3 1 2
           (2 / 10) (1 / 1000000) (6 / 10)).
  - reflexivity.
  - lra.
  - reflexivity.
  - lra.
  - reflexivity.
  - lra.
  - right. exists 1. split; [reflexivity | lra].
  - reflexivity.
  - cbn. apply leR_spec. lra.
  - lra.
Defined.

End AutoGainSmoothingWitnesses.

(* ================================================================= *)
(** ** The amplitude analyser computes the mean square and the peak *)

Section AmplitudeExact.

Lemma sumSquares_nonneg (xs : list R) : 0 <= sumSquares xs.
Proof. induction xs as [|x xs IH]; cbn; nra. Qed.

Lemma amplitude_loop_exact (xs : list R) :
  forall s0 p0 : R,
    0 <= p0 ->
    exists s p,
      fold_left Pitch.amplitudeStep (map Fin xs) (Fin s0, Fin p0)
      = (Fin s, Fin p)
      /\ s = s0 + sumSquares xs
      /\ p = Rmax p0 (maxMagnitude xs).
Proof.
  induction xs as [|x xs IH]; intros s0 p0 Hp0; cbn [map fold_left].
  - exists s0, p0. split; [reflexivity|]. cbn. split; [lra|].
    rewrite Rmax_left; lra.
  - unfold Pitch.amplitudeStep at 2. js_simpl.
    pose proof (Rabs_pos x) as Ha.
    destruct (Rlt_dec p0 (Rabs x)) as [Hlt | Hge].
    + rewrite (proj2 (ltR_spec _ _) Hlt).
      destruct (IH (s0 + x * x) (Rabs x) Ha) as (s & p & E & Es & Ep).
      exists s, p. split; [exact E|]. cbn. split; [lra|].
      rewrite Ep, Rmax_assoc. f_equal. rewrite Rmax_right; lra.
    + rewrite (proj2 (ltR_false _ _)) by lra.
      destruct (IH (s0 + x * x) p0 Hp0) as (s & p & E & Es & Ep).
      exists s, p. split; [exact E|]. cbn. split; [lra|].
      rewrite Ep, Rmax_assoc. f_equal. rewrite Rmax_left; lra.
Qed.

Lemma sumSquares_zero (xs : list R) :
  sumSquares xs = 0 <-> Forall (fun x => x = 0) xs.
Proof.
  induction xs as [|x xs IH]; cbn.
  - split; [constructor | reflexivity].
  - pose proof (sumSquares_nonneg xs) as Hs. split.
    + intros H. assert (x * x = 0 /\ sumSquares xs = 0) as [Hx Hr] by nra.
      constructor; [nra | now apply IH].
    + intros H. inversion H; subst. apply IH in H3. nra.
Qed.

(** X12.  On a non-empty frame of finite samples the RMS is zero exactly
    when every sample is zero, and then the peak is zero too. *)
Theorem rms_zero_iff_silent (xs : list R) :
  xs <> [] ->
  (Pitch.a_rms (Pitch._analyseAmplitude (map Fin xs)) = Fin 0
   <-> Forall (fun x => x = 0) xs)
  /\ (Forall (fun x => x = 0) xs ->
      Pitch.a_peak (Pitch._analyseAmplitude (map Fin xs)) = Fin 0).
Proof.
  intros Hne.
  destruct (amplitude_loop_exact xs 0 0 (Rle_refl 0)) as (s & p & E & Es & Ep).
  unfold Pitch._analyseAmplitude. rewrite E, length_map. cbn [fst snd].
  unfold JS.ofNat. cbn [Pitch.a_rms Pitch.a_peak].
  assert (Hn : 0 < INR (List.length xs)).
  { apply lt_0_INR. destruct xs; [congruence | cbn; lia]. }
  cbn [JS.div]. rewrite (proj2 (eqR_false _ _)) by lra. cbn [JS.sqrt].
  pose proof (sumSquares_nonneg xs) as Hs.
  assert (Hi : 0 < / INR (List.length xs)) by now apply Rinv_0_lt_compat.
  assert (Hq : 0 <= s / INR (List.length xs)).
  { apply Rmult_le_pos; lra. }
  rewrite (proj2 (ltR_false _ _)) by lra.
  split; [split|].
  - intros [= H0]. apply sumSquares_zero.
    apply sqrt_eq_0 in H0; [|exact Hq]. unfold Rdiv in H0. nra.
  - intros Hall. apply sumSquares_zero in Hall. f_equal.
    replace s with 0 by lra. unfold Rdiv. rewrite Rmult_0_l. apply sqrt_0.
  - intros Hall. f_equal. rewrite Ep.
    assert (Hm : maxMagnitude xs = 0).
    { clear -Hall. induction Hall; cbn; [reflexivity|].
      subst. rewrite IHHall, Rabs_R0. apply Rmax_left. lra. }
    rewrite Hm. apply Rmax_left. lra.
Qed.

Lemma rms_zero_iff_silent_witness :
  (Pitch.a_rms (Pitch._analyseAmplitude (map Fin [0; 0])) = Fin 0
   <-> Forall (fun x => x = 0) [0; 0])
  /\ (Forall (fun x => x = 0) [0; 0] ->
      Pitch.a_peak (Pitch._analyseAmplitude (map Fin [0; 0])) = Fin 0).
Proof.
  apply (rms_zero_iff_silent [0; 0]). discriminate.
Defined.

End AmplitudeExact.

(* ================================================================= *)
(** ** The life cycle of the tracker *)

Section TrackerLifecycle.

Lemma getPitch_tracker_fields (t : Pitch.PitchTracker) (frame : list num)
    (currentTime now : num) :
  let t' := Pitch.res_tracker (Pitch.getPitch t frame currentTime now) in
  Pitch.initialized t' = Pitch.initialized t
  /\ Pitch.analyser t' = Pitch.analyser t
  /\ Pitch.yin t' = Pitch.yin t
  /\ (Pitch.autoGain t <> None -> Pitch.autoGain t' <> None).
Proof.
  unfold Pitch.getPitch.
  destruct (negb (Pitch.initialized t) || _ || _); [cbn; auto|].
  destruct (Pitch.autoGain t) as [g|] eqn:Eg.
  - destruct (AutoGain.update g currentTime _) as [m g'].
    destruct (_ <! Pitch.rmsThreshold t);
      [cbn; repeat split; congruence|].
    destruct (Pitch.yin t) as [y|] eqn:Ey;
      [|cbn; repeat split; congruence].
    destruct (Yin.getPitch y frame); cbn; repeat split; congruence.
  - destruct (_ <! Pitch.rmsThreshold t);
      [cbn; repeat split; congruence|].
    destruct (Pitch.yin t) as [y|] eqn:Ey;
      [|cbn; repeat split; congruence].
    destruct (Yin.getPitch y frame); cbn; repeat split; congruence.
Qed.

(** Every tracker of the life cycle is equipped. *)
Lemma lifecycle_equipped (t : Pitch.PitchTracker) :
  lifecycle t -> equipped t.
Proof.
  induction 1 as [| t ctx _ IH | t _ _ | t frame currentTime now _ IH];
    unfold equipped in *.
  - cbn. discriminate.
  - unfold Pitch.init. destruct (Pitch.initialized t) eqn:Ei.
    + intros _. apply IH. reflexivity.
    + cbn. intros _. repeat split; discriminate.
  - cbn. discriminate.
  - destruct (getPitch_tracker_fields t frame currentTime now)
      as (Ei & Ea & Ey & Eg).
    rewrite Ei, Ea, Ey. intros Hi. destruct (IH Hi) as (Ha & Hy & Hg).
    auto.
Qed.

(** X13.  However a tracker has been taken through [init], [stop] and
    [getPitch], a call of [getPitch] never throws: it reaches the
    detector only when the detector exists. *)
Theorem getPitch_never_throws (t : Pitch.PitchTracker) (frame : list num)
    (currentTime now : num) :
  lifecycle t ->
  Pitch.res_outcome (Pitch.getPitch t frame currentTime now) <> Pitch.Threw.
Proof.
  intros Hl. pose proof (lifecycle_equipped t Hl) as He.
  unfold Pitch.getPitch.
  destruct (Pitch.initialized t) eqn:Ei; [|cbn; discriminate].
  destruct (He Ei) as (_ & Hy & _).
  cbn [negb orb].
  destruct (match Pitch.analyser t with Some _ => false | None => true end
            || negb (Pitch.isRunning t)); [cbn; discriminate|].
  destruct (match Pitch.autoGain t with Some _ => _ | None => _ end)
    as [[m g'] calls].
  destruct (_ <! Pitch.rmsThreshold t); [cbn; discriminate|].
  destruct (Pitch.yin t) as [y|]; [|congruence].
  destruct (Yin.getPitch y frame); cbn; discriminate.
Qed.

Lemma getPitch_never_throws_witness :
  Pitch.res_outcome
    (Pitch.getPitch
       (Pitch.stop
          (Pitch.res_tracker
             (Pitch.getPitch smallTracker squareFrame (Fin 0) (Fin 20))))
       squareFrame (Fin 1) (Fin 40))
  <> Pitch.Threw.
Proof.
  apply getPitch_never_throws.
  apply lifecycle_stop, lifecycle_getPitch.
  unfold smallTracker. apply lifecycle_init, lifecycle_new.
Defined.

(** X14.  After [stop], [getPitch] returns [null], makes no call on the
    analyser, the gain controller or the detector, and leaves the tracker
    as [stop] left it; a tracker that was never initialised behaves the
    same. *)
Theorem getPitch_when_stopped (t : Pitch.PitchTracker) (frame : list num)
    (currentTime now : num) :
  Pitch.getPitch (Pitch.stop t) frame currentTime now
  = {| Pitch.res_outcome := Pitch.Returned None;
       Pitch.res_tracker := Pitch.stop t;
       Pitch.res_calls := [] |}
  /\ (Pitch.initialized t = false ->
      Pitch.getPitch t frame currentTime now
      = {| Pitch.res_outcome := Pitch.Returned None;
           Pitch.res_tracker := t;
           Pitch.res_calls := [] |}).
Proof.
  split; [reflexivity|].
  intros Hi. unfold Pitch.getPitch. rewrite Hi. reflexivity.
Qed.

Lemma getPitch_when_stopped_witness :
  Pitch.initialized Pitch.newDefault = false
  /\ Pitch.getPitch Pitch.newDefault squareFrame (Fin 0) (Fin 20)
     = {| Pitch.res_outcome := Pitch.Returned None;
          Pitch.res_tracker := Pitch.newDefault;
          Pitch.res_calls := [] |}.
Proof.
  split; [reflexivity|].
  apply (proj2 (getPitch_when_stopped Pitch.newDefault squareFrame
                  (Fin 0) (Fin 20))).
  reflexivity.
Defined.

(** [init] on an initialised tracker changes nothing: the gain
    controller keeps its state and the detector its sample rate, whatever
    context the second call is given. *)
Theorem init_twice (t : Pitch.PitchTracker) (ctx ctx' : Pitch.AudioContext) :
  Pitch.init (Pitch.init t ctx) ctx' = Pitch.init t ctx.
Proof.
  unfold Pitch.init at 1.
  assert (Hi : Pitch.initialized (Pitch.init t ctx) = true).
  { unfold Pitch.init. destruct (Pitch.initialized t) eqn:E; [exact E|].
    reflexivity. }
  now rewrite Hi.
Qed.

End TrackerLifecycle.

Section TrackerReadings.

(** X15.  What a returned reading holds.  Its [rms] and [peak] are the
    analyser's values for the frame; a null frequency comes with probability
    0; a frequency is present only when the RMS is not below [rmsThreshold]
    and is then, with the probability, exactly the detector's estimate for
    the frame. *)
Theorem reading_contents (t : Pitch.PitchTracker) (frame : list num)
    (currentTime now : num) (r : Pitch.reading) :
  Pitch.res_outcome (Pitch.getPitch t frame currentTime now)
  = Pitch.Returned (Some r) ->
  Pitch.rms r = Pitch.a_rms (Pitch._analyseAmplitude frame)
  /\ Pitch.peak r = Pitch.a_peak (Pitch._analyseAmplitude frame)
  /\ (Pitch.frequency r = None -> Pitch.probability r = Fin 0)
  /\ (forall f,
         Pitch.frequency r = Some f ->
         Pitch.rms r <! Pitch.rmsThreshold t = false
         /\ exists y e,
             Pitch.yin t = Some y
             /\ Yin.getPitch y frame = Some e
             /\ f = Yin.frequency e
             /\ Pitch.probability r = Yin.probability e).
Proof.
  unfold Pitch.getPitch.
  destruct (negb (Pitch.initialized t) || _ || _); [discriminate|].
  destruct (match Pitch.autoGain t with Some _ => _ | None => _ end)
    as [[m g'] calls].
  destruct (_ <! Pitch.rmsThreshold t) eqn:Egate.
  { cbn [Pitch.res_outcome]. intros [= <-].
    cbn [Pitch.rms Pitch.peak Pitch.frequency Pitch.probability].
    split; [reflexivity|]. split; [reflexivity|]. split; [reflexivity|].
    intros f Hf. discriminate. }
  destruct (Pitch.yin t) as [y|]; [|discriminate].
  destruct (Yin.getPitch y frame) as [e|] eqn:He;
    cbn [Pitch.res_outcome]; intros [= <-];
    cbn [Pitch.rms Pitch.peak Pitch.frequency Pitch.probability].
  - split; [reflexivity|]. split; [reflexivity|].
    split; [discriminate|].
    intros f [= <-]. split; [exact Egate|].
    exists y, e. auto.
  - split; [reflexivity|]. split; [reflexivity|]. split; [reflexivity|].
    intros f Hf. discriminate.
Qed.

Lemma reading_contents_witness :
  Pitch.rms squareReading = Pitch.a_rms (Pitch._analyseAmplitude squareFrame)
  /\ Pitch.peak squareReading
     = Pitch.a_peak (Pitch._analyseAmplitude squareFrame)
  /\ (Pitch.frequency squareReading = None ->
      Pitch.probability squareReading = Fin 0)
  /\ (forall f,
         Pitch.frequency squareReading = Some f ->
         Pitch.rms squareReading <! Pitch.rmsThreshold smallTracker = false
         /\ exists y e,
             Pitch.yin smallTracker = Some y
             /\ Yin.getPitch y squareFrame = Some e
             /\ f = Yin.frequency e
             /\ Pitch.probability squareReading = Yin.probability e).
Proof.
  apply (reading_contents smallTracker squareFrame (Fin 0) (Fin 20)).
  exact (proj1 smallTracker_getPitch).
Defined.

(** X16.  The gain controller is fed on every call that reaches the
    analyser, silent frames included: whatever the call returns, the
    tracker afterwards holds the controller updated with the frame's RMS,
    and the update is the call made right after reading the frame. *)
Theorem getPitch_always_feeds_gain (t : Pitch.PitchTracker)
    (frame : list num) (currentTime now : num)
    (g : AutoGain.AutoGainController) :
  Pitch.initialized t = true ->
  Pitch.analyser t <> None ->
  Pitch.isRunning t = true ->
  Pitch.autoGain t = Some g ->
  let rms := Pitch.a_rms (Pitch._analyseAmplitude frame) in
  let r := Pitch.getPitch t frame currentTime now in
  Pitch.autoGain (Pitch.res_tracker r)
  = Some (snd (AutoGain.update g currentTime rms))
  /\ exists rest,
      Pitch.res_calls r
      = Pitch.GetFloatTimeDomainData :: Pitch.AutoGainUpdate rms :: rest.
Proof.
  intros Hi Ha Hr Hg rms r. subst r rms. unfold Pitch.getPitch.
  rewrite Hi, Hr, Hg.
  destruct (Pitch.analyser t); [|congruence]. cbn [negb orb].
  destruct (AutoGain.update g currentTime _) as [m g'] eqn:Eu.
  cbn [snd].
  destruct (_ <! Pitch.rmsThreshold t); [cbn; eauto|].
  destruct (Pitch.yin t) as [y|]; [|cbn; eauto].
  destruct (Yin.getPitch y frame); cbn; eauto.
Qed.

Lemma getPitch_always_feeds_gain_witness :
  let rms := Pitch.a_rms (Pitch._analyseAmplitude (repeat (Fin 0) 8)) in
  let r := Pitch.getPitch smallTracker (repeat (Fin 0) 8) (Fin 0) (Fin 20) in
  Pitch.autoGain (Pitch.res_tracker r)
  = Some (snd (AutoGain.update
                 (AutoGain.new Pitch.defaultAutoGainOptions) (Fin 0) rms))
  /\ exists rest,
      Pitch.res_calls r
      = Pitch.GetFloatTimeDomainData :: Pitch.AutoGainUpdate rms :: rest.
Proof.
  apply (getPitch_always_feeds_gain smallTracker (repeat (Fin 0) 8)
           (Fin 0) (Fin 20) (AutoGain.new Pitch.defaultAutoGainOptions)).
  - reflexivity.
  - discriminate.
  - reflexivity.
  - reflexivity.
Defined.

End TrackerReadings.

(* ================================================================= *)
(** ** The note mapper on every input *)

Section NoteMapperGeneral.

Lemma ln2_pos : 0 < ln 2.
Proof. pose proof ln_lt_2. lra. Qed.

Lemma ln_Rpower2 (y : R) : ln (Rpower 2 y) = y * ln 2.
Proof. unfold Rpower. apply ln_exp. Qed.

Lemma Rpower2_pos (y : R) : 0 < Rpower 2 y.
Proof. unfold Rpower. apply exp_pos. Qed.

Lemma ln_quotient (a b : R) : 0 < a -> 0 < b -> ln (a / b) = ln a - ln b.
Proof.
  intros Ha Hb. unfold Rdiv.
  rewrite ln_mult; [|assumption | now apply Rinv_0_lt_compat].
  rewrite ln_Rinv by assumption. ring.
Qed.

(** The note data of a positive finite frequency, field by field. *)
Lemma frequencyToNoteData_positive (x : R) :
  0 < x ->
  let m := 69 + 12 * (ln (x / 440) / ln 2) in
  let n := Zfloor (m + / 2) in
  exists noteData c,
    Note.frequencyToNoteData (Fin x) = Some noteData
    /\ Note.frequency noteData = Fin x
    /\ Note.midi noteData = Fin m
    /\ Note.nearestMidi noteData = Fin (IZR n)
    /\ Note.equalFrequency noteData
       = Fin (440 * Rpower 2 ((IZR n + - (69)) / 12))
    /\ Note.cents noteData = Fin c
    /\ c = 100 * (m - IZR n)
    /\ Note.noteName noteData
       = ((match Note.nameAt (Note.noteIndexOf (Fin (IZR n))) with
           | Some name => name
           | None => "undefined"
           end)
          ++ Note.showInteger (JS.floor (Fin (IZR n) /! Fin 12) -! Fin 1))%string.
Proof.
  intros Hx m n. unfold Note.frequencyToNoteData.
  cbn [JS.truthy JS.le].
  rewrite (proj2 (eqR_false x 0)) by lra.
  rewrite (proj2 (leR_false x 0)) by lra.
  cbn [negb orb JS.div].
  rewrite (proj2 (eqR_false 440 0)) by lra.
  assert (Hq : 0 < x / 440) by (apply Rdiv_lt_0_compat; lra).
  cbn [JS.log2].
  rewrite (proj2 (ltR_false (x / 440) 0)) by lra.
  rewrite (proj2 (eqR_false (x / 440) 0)) by lra.
  cbn [JS.mul JS.add JS.round]. fold m. fold n.
  unfold JS.sub. cbn [JS.neg JS.add JS.div].
  rewrite (proj2 (eqR_false 12 0)) by lra.
  cbn [JS.pow2 JS.mul].
  set (eq := 440 * Rpower 2 ((IZR n + - (69)) / 12)).
  assert (Heq : 0 < eq).
  { unfold eq. apply Rmult_lt_0_compat; [lra | apply Rpower2_pos]. }
  rewrite (proj2 (eqR_false eq 0)) by lra.
  assert (Hxe : 0 < x / eq) by (apply Rdiv_lt_0_compat; lra).
  cbn [JS.log2].
  rewrite (proj2 (ltR_false (x / eq) 0)) by lra.
  rewrite (proj2 (eqR_false (x / eq) 0)) by lra.
  cbn [JS.mul].
  eexists. eexists. split; [reflexivity|].
  cbn [Note.frequency Note.midi Note.nearestMidi Note.equalFrequency
       Note.cents Note.noteName].
  repeat (split; [reflexivity|]). split; [|reflexivity].
  pose proof ln2_pos as Hl2.
  rewrite (ln_quotient x eq) by assumption.
  unfold eq. rewrite ln_mult by (lra || apply Rpower2_pos).
  rewrite ln_Rpower2. unfold m.
  rewrite (ln_quotient x 440) by lra.
  field. lra.
Qed.

(** X17.  The mapper returns [null] exactly for NaN and for numbers that
    are not above zero (zero, negative numbers, -Infinity).  For +Infinity
    it returns an object all the same: the nearest MIDI number is
    +Infinity, the cents are NaN and the note name is
    [undefinedInfinity]. *)
Theorem frequencyToNoteData_null_iff :
  (forall f : num,
      Note.frequencyToNoteData f = None
      <-> f = NaN \/ f <=! Fin 0 = true)
  /\ exists noteData,
      Note.frequencyToNoteData PInf = Some noteData
      /\ Note.nearestMidi noteData = PInf
      /\ Note.cents noteData = NaN
      /\ Note.noteName noteData = "undefinedInfinity"%string.
Proof.
  split.
  - intros f. unfold Note.frequencyToNoteData.
    destruct f as [x| | |]; cbn [JS.truthy JS.le negb orb].
    + destruct (Req_dec_T x 0) as [-> | Hne].
      * rewrite (proj2 (eqR_spec 0 0) eq_refl). cbn.
        split; [intros _; right; apply leR_spec; lra | reflexivity].
      * rewrite (proj2 (eqR_false x 0) Hne). cbn [negb orb].
        destruct (JS.leR x 0) eqn:E.
        -- split; [intros _; now right | reflexivity].
        -- split; [discriminate | intros [H | H]; discriminate].
    + split; [discriminate | intros [H | H]; discriminate].
    + split; [intros _; now right | reflexivity].
    + split; [intros _; now left | reflexivity].
  - unfold Note.frequencyToNoteData. cbn [JS.truthy JS.le negb orb JS.div].
    rewrite (proj2 (ltR_false 440 0)) by lra.
    cbn [JS.log2 JS.mul]. unfold JS.bySign.
    rewrite (proj2 (ltR_spec 0 12)) by lra.
    cbn [JS.add JS.round]. unfold JS.sub, Note.noteIndexOf.
    cbn [JS.neg JS.add JS.div JS.rem Note.nameAt JS.floor].
    rewrite (proj2 (ltR_false 12 0)) by lra.
    cbn [JS.floor JS.add JS.pow2 JS.mul]. unfold JS.bySign.
    rewrite (proj2 (ltR_spec 0 440)) by lra.
    cbn [JS.div JS.log2 JS.mul].
    eexists. split; [reflexivity|]. cbn. repeat split; reflexivity.
Qed.

End NoteMapperGeneral.

Section NoteNames.

Lemma nameAt_in_table (k : Z) :
  (0 <= k < 12)%Z ->
  Note.nameAt (Fin (IZR k))
  = Some (nth (Z.to_nat k) Note.NOTE_NAMES ""%string).
Proof.
  intros Hk. unfold Note.nameAt. rewrite ZfloorZ.
  rewrite (proj2 (eqR_spec _ _) eq_refl).
  rewrite (proj2 (Z.leb_le 0 k)) by lia. cbn [andb].
  apply nth_error_nth'. cbn. lia.
Qed.

Lemma octave_of_midi (n : Z) :
  JS.floor (Fin (IZR n) /! Fin 12) -! Fin 1 = Fin (IZR (n / 12 - 1)).
Proof.
  cbn [JS.div]. rewrite (proj2 (eqR_false 12 0)) by lra.
  cbn [JS.floor]. rewrite Zfloor_div12.
  unfold JS.sub. cbn [JS.neg JS.add]. f_equal.
  rewrite minus_IZR. lra.
Qed.

(** The note name is put together from the nearest MIDI number alone. *)
Lemma noteName_of_nearestMidi (f : num) (noteData : Note.NoteData) :
  Note.frequencyToNoteData f = Some noteData ->
  Note.noteName noteData
  = ((match Note.nameAt (Note.noteIndexOf (Note.nearestMidi noteData)) with
      | Some name => name
      | None => "undefined"
      end)
     ++ Note.showInteger
          (JS.floor (Note.nearestMidi noteData /! Fin 12) -! Fin 1))%string.
Proof.
  unfold Note.frequencyToNoteData.
  destruct (negb (JS.truthy f) || (f <=! Fin 0)); [discriminate|].
  intros [= <-]. reflexivity.
Qed.

(** X20.  Whenever the mapper returns note data whose nearest MIDI number
    is an integer [n] of at least -1200, the note name is the chromatic name
    at index [n mod 12] followed by the octave [n / 12 - 1] (floor
    division), so that [12 * (octave + 1) + index = n]. *)
Theorem noteName_is_name_and_octave (f : num) (noteData : Note.NoteData)
    (n : Z) :
  Note.frequencyToNoteData f = Some noteData ->
  Note.nearestMidi noteData = Fin (IZR n) ->
  (-1200 <= n)%Z ->
  Note.noteName noteData
  = (nth (Z.to_nat (n mod 12)) Note.NOTE_NAMES ""
     ++ NilZero.string_of_int (Z.to_int (n / 12 - 1)))%string
  /\ (12 * ((n / 12 - 1) + 1) + n mod 12 = n)%Z
  /\ (0 <= n mod 12 < 12)%Z.
Proof.
  intros E En Hn.
  destruct (noteIndexOf_from_minus_1200 n Hn) as (Ei & Hr & _).
  split; [|split; [|exact Hr]].
  - rewrite (noteName_of_nearestMidi f noteData E), En, Ei.
    rewrite (nameAt_in_table _ Hr), octave_of_midi.
    unfold Note.showInteger. rewrite ZfloorZ. reflexivity.
  - pose proof (Z.div_mod n 12 ltac:(lia)). lia.
Qed.

Lemma Zfloor_midi_440 : Zfloor (69 + 12 * (ln (440 / 440) / ln 2) + / 2) = 69%Z.
Proof.
  replace (440 / 440) with 1 by (field; lra).
  rewrite ln_1. apply Zfloor_eq. unfold Rdiv. rewrite Rmult_0_l. lra.
Qed.

Lemma noteName_is_name_and_octave_witness :
  exists noteData,
    Note.frequencyToNoteData (Fin 440) = Some noteData
    /\ Note.nearestMidi noteData = Fin 69
    /\ Note.noteName noteData = "A4"%string.
Proof.
  destruct (frequencyToNoteData_positive 440 ltac:(lra))
    as (nd & c & E & _ & _ & En & _).
  cbv zeta in En. rewrite Zfloor_midi_440 in En.
  exists nd. split; [exact E|]. split; [exact En|].
  apply (noteName_is_name_and_octave (Fin 440) nd 69 E En). lia.
Defined.

End NoteNames.

(* ================================================================= *)
(** ** What the stabilizer lets through *)

Section StabilizerOutput.

Lemma ln_4 : ln 4 = 2 * ln 2.
Proof.
  replace 4 with (2 * 2) by lra. rewrite ln_mult by lra. ring.
Qed.

(** The nearest MIDI number of a frequency in the valid range lies between
    45 (A2) and 93. *)
Lemma nearestMidi_of_valid (z : R) :
  110 <= z <= 1660 ->
  (45 <= Zfloor (69 + 12 * (ln (z / 440) / ln 2) + / 2) <= 93)%Z.
Proof.
  intros Hz. pose proof ln2_pos as Hl2.
  assert (Hlo : - 2 * ln 2 <= ln (z / 440)).
  { rewrite ln_quotient by lra.
    assert (H110 : ln 110 = ln 440 - 2 * ln 2).
    { replace 110 with (440 / 4) by lra. rewrite ln_quotient by lra.
      rewrite ln_4. ring. }
    destruct (Req_dec_T z 110) as [-> | Hne]; [lra|].
    assert (ln 110 < ln z) by (apply ln_increasing; lra). lra. }
  assert (Hhi : ln (z / 440) < 2 * ln 2).
  { rewrite ln_quotient by lra.
    assert (H1760 : ln 1760 = ln 440 + 2 * ln 2).
    { replace 1760 with (440 * 4) by lra. rewrite ln_mult by lra.
      rewrite ln_4. ring. }
    assert (ln z < ln 1760) by (apply ln_increasing; lra). lra. }
  assert (Hq : -2 <= ln (z / 440) / ln 2 < 2).
  { assert (Hi : 0 < / ln 2) by now apply Rinv_0_lt_compat.
    unfold Rdiv. assert (Hid : ln 2 * / ln 2 = 1) by (apply Rinv_r; lra).
    split; nra. }
  set (m := 69 + 12 * (ln (z / 440) / ln 2)) in *.
  pose proof (Zfloor_bound (m + / 2)) as Hb.
  assert (Hm : 45 <= m < 93) by (unfold m; lra).
  split.
  - apply Zfloor_lub. simpl. lra.
  - assert (IZR (Zfloor (m + / 2)) < IZR 94) by (simpl; lra).
    apply lt_IZR in H. lia.
Qed.

(** X21.  Whatever the state and the reading, a note is rendered only for
    a frequency clamped into [110, 1660] Hz, which becomes the last
    accepted frequency; its nearest MIDI number lies between 45 and 93, and
    the visualizer is sent that frequency with a note index in 0..11. *)
Theorem rendered_note_in_range (s : App.state) (timestamp : num)
    (e : option Pitch.reading) (noteData : Note.NoteData) :
  In (App.RenderReadouts noteData) (snd (App.pollTick s timestamp e)) ->
  exists (z : R) (n : Z),
    Note.frequencyToNoteData (Fin z) = Some noteData
    /\ 110 <= z <= 1660
    /\ App.lastFrequency (fst (App.pollTick s timestamp e)) = Some (Fin z)
    /\ Note.nearestMidi noteData = Fin (IZR n)
    /\ (45 <= n <= 93)%Z
    /\ (0 <= n mod 12 < 12)%Z
    /\ snd (App.pollTick s timestamp e)
       = [App.RenderReadouts noteData;
          App.VisualizerUpdate (Fin z) (Note.cents noteData)
            (Fin (IZR (n mod 12)))].
Proof.
  unfold App.pollTick.
  destruct (App.noPitch e) eqn:Hn.
  { cbn [snd]. destruct (_ =? _)%nat; cbn; intros H;
      repeat destruct H as [H | H]; try discriminate; contradiction. }
  destruct (App.frequencyOf e <=! Fin 0) eqn:Hp; [intros []|].
  fold (clampFrequency (App.frequencyOf e)).
  destruct (App.jumpRejected s timestamp _); [intros []|].
  destruct (noPitch_false_inv e Hn) as (x & Ex & _). rewrite Ex in *.
  destruct (clampFrequency_range x) as (z & Ez & Hz). rewrite Ez.
  assert (Hzpos : 0 < z) by lra.
  destruct (frequencyToNoteData_positive z Hzpos)
    as (nd & c & E & Ef & _ & En & _ & _ & _ & _).
  rewrite E. cbn [fst snd App.lastFrequency].
  intros [H | [H | []]]; [|discriminate]. injection H as <-.
  set (n := Zfloor (69 + 12 * (ln (z / 440) / ln 2) + / 2)) in *.
  pose proof (nearestMidi_of_valid z Hz) as Hrange. fold n in Hrange.
  destruct (noteIndexOf_from_minus_1200 n ltac:(lia)) as (Ei & Hr & _).
  exists z, n. split; [exact E|]. split; [exact Hz|].
  split; [reflexivity|]. split; [exact En|]. split; [exact Hrange|].
  split; [exact Hr|].
  rewrite Ef, En. fold (Note.noteIndexOf (Fin (IZR n))). rewrite Ei.
  reflexivity.
Qed.

Lemma rendered_note_in_range_witness :
  exists noteData (z : R) (n : Z),
    In (App.RenderReadouts noteData)
      (snd (App.pollTick App.initial (Fin 20) (Some squareReading)))
    /\ Note.frequencyToNoteData (Fin z) = Some noteData
    /\ 110 <= z <= 1660
    /\ App.lastFrequency
         (fst (App.pollTick App.initial (Fin 20) (Some squareReading)))
       = Some (Fin z)
    /\ Note.nearestMidi noteData = Fin (IZR n)
    /\ (45 <= n <= 93)%Z
    /\ (0 <= n mod 12 < 12)%Z
    /\ snd (App.pollTick App.initial (Fin 20) (Some squareReading))
       = [App.RenderReadouts noteData;
          App.VisualizerUpdate (Fin z) (Note.cents noteData)
            (Fin (IZR (n mod 12)))].
Proof.
  destruct (proj1 squareReading_accepted) as (nd & _ & _ & _ & _ & Hev).
  assert (Hin : In (App.RenderReadouts nd)
                  (snd (App.pollTick App.initial (Fin 20)
                          (Some squareReading)))).
  { rewrite Hev. now left. }
  destruct (rendered_note_in_range App.initial (Fin 20)
              (Some squareReading) nd Hin) as (z & n & H).
  exists nd, z, n. split; [exact Hin | exact H].
Defined.

Lemma pollTick_keeps_lastInRange (s : App.state) (timestamp : num)
    (e : option Pitch.reading) :
  lastInRange s -> lastInRange (fst (App.pollTick s timestamp e)).
Proof.
  intros Hs. unfold App.pollTick.
  destruct (App.noPitch e) eqn:Hn; [exact Hs|].
  destruct (App.frequencyOf e <=! Fin 0); [exact Hs|].
  fold (clampFrequency (App.frequencyOf e)).
  destruct (App.jumpRejected s timestamp _); [exact Hs|].
  destruct (noPitch_false_inv e Hn) as (x & Ex & _). rewrite Ex.
  destruct (clampFrequency_range x) as (z & Ez & Hz). rewrite Ez.
  destruct (Note.frequencyToNoteData (Fin z)); unfold lastInRange; cbn;
    eauto.
Qed.

(** X22.  Over every run of ticks from the initial state, whatever the
    readings and clock values, the last accepted frequency is either still
    null or a finite number within [110, 1660] Hz. *)
Theorem run_keeps_last_frequency_in_range
    (ticks : list (num * option Pitch.reading)) :
  lastInRange (fst (App.run App.initial ticks)).
Proof.
  assert (G : forall s, lastInRange s -> lastInRange (fst (App.run s ticks))).
  { induction ticks as [|[timestamp e] ticks IH]; intros s Hs;
      cbn [App.run]; [exact Hs|].
    pose proof (pollTick_keeps_lastInRange s timestamp e Hs) as Hs'.
    destruct (App.pollTick s timestamp e) as [s' evs]. cbn [fst] in Hs'.
    specialize (IH s' Hs'). destruct (App.run s' ticks) as [s'' evss].
    exact IH. }
  apply G. exact I.
Qed.

(** X23.  The stabilizer never accepts a jump: when a reading is accepted
    less than MAX_GAP_MS after the previous acceptance (made at a non-zero
    time), the new accepted frequency is not more than MAX_JUMP_HZ away
    from the previous one. *)
Theorem accepted_within_gap_is_no_jump (s : App.state) (timestamp : num)
    (e : option Pitch.reading) (last : num) :
  accepted s timestamp e ->
  App.lastFrequency s = Some last ->
  JS.neq (App.lastDetectionTime s) (Fin 0) = true ->
  timestamp -! App.lastDetectionTime s <! App.MAX_GAP_MS = true ->
  exists f,
    App.lastFrequency (fst (App.pollTick s timestamp e)) = Some f
    /\ JS.abs (f -! last) >! App.MAX_JUMP_HZ = false.
Proof.
  intros (nd & _ & Hf & _ & _ & Hev) Hl Ht Hgap.
  exists (clampFrequency (App.frequencyOf e)). split; [exact Hf|].
  destruct (JS.abs (clampFrequency (App.frequencyOf e) -! last)
              >! App.MAX_JUMP_HZ) eqn:Hj; [|reflexivity].
  exfalso. revert Hev. unfold App.pollTick.
  destruct (App.noPitch e).
  { cbn [snd]. destruct (_ =? _)%nat; discriminate. }
  destruct (App.frequencyOf e <=! Fin 0); [discriminate|].
  fold (clampFrequency (App.frequencyOf e)).
  unfold App.jumpRejected. rewrite Hl, Ht, Hgap, Hj. discriminate.
Qed.

Lemma accepted_within_gap_is_no_jump_witness :
  exists f,
    App.lastFrequency
      (fst (App.pollTick (lockedAt (Fin 1000) (Fin 440)) (Fin 1050)
              (readingAt (Some (Fin 450)))))
    = Some f
    /\ JS.abs (f -! Fin 440) >! App.MAX_JUMP_HZ = false.
Proof.
  apply (accepted_within_gap_is_no_jump
           (lockedAt (Fin 1000) (Fin 440)) (Fin 1050)
           (readingAt (Some (Fin 450))) (Fin 440)).
  - apply pollTick_passed.
    + apply reading_has_pitch. lra.
    + apply reading_positive. lra.
    + unfold App.jumpRejected, clampFrequency, App.MIN_VALID_FREQ,
        App.MAX_VALID_FREQ, App.MAX_JUMP_HZ, App.MAX_GAP_MS.
      cbn [lockedAt App.lastFrequency App.lastDetectionTime readingAt
           App.frequencyOf Pitch.frequency].
      js_run. rewrite Rabs_right by lra.
      settle_comparisons. reflexivity.
  - reflexivity.
  - unfold JS.neq. cbn. rewrite (proj2 (eqR_false 1000 0)) by lra.
    reflexivity.
  - cbn. apply ltR_spec. lra.
Defined.

End StabilizerOutput.

(* ================================================================= *)
(** ** The colour of a deviation *)

Section Colours.

(** The page script and the visualizer carry the same function. *)
Lemma colorForCents_same (cents : num) :
  Visualizer._colorForCents cents = App.colorForCents cents.
Proof. reflexivity. Qed.

(** X24.  [colorForCents] always returns a well-formed colour.  It is white
    for NaN, for an infinite deviation and for up to half a cent; beyond
    that it is [rgb(255, ch, ch)] for sharp and [rgb(ch, ch, 255)] for flat
    notes with one integer channel [ch] between 0 and 252, which is 0 from
    50 cents on. *)
Theorem colorForCents_well_formed (cents : num) :
  (JS.isFinite cents = false \/ JS.abs cents <=! Fin (5 / 10) = true ->
   App.colorForCents cents = "#ffffff"%string)
  /\ (forall c : R,
         cents = Fin c -> / 2 < Rabs c ->
         exists ch : Z,
           (0 <= ch <= 252)%Z
           /\ (50 <= Rabs c -> ch = 0%Z)
           /\ App.colorForCents cents
              = (if Rlt_dec 0 c
                 then "rgb(255, " ++ NilZero.string_of_int (Z.to_int ch)
                        ++ ", " ++ NilZero.string_of_int (Z.to_int ch) ++ ")"
                 else "rgb(" ++ NilZero.string_of_int (Z.to_int ch) ++ ", "
                        ++ NilZero.string_of_int (Z.to_int ch)
                        ++ ", 255)")%string).
Proof.
  split.
  - intros H. unfold App.colorForCents.
    destruct cents as [c| | |]; cbn [JS.abs JS.isFinite negb orb] in *;
      try reflexivity.
    destruct H as [H | H]; [discriminate|]. now rewrite H.
  - intros c -> Hc. unfold App.colorForCents.
    cbn [JS.abs JS.isFinite negb orb JS.le].
    rewrite (proj2 (leR_false (Rabs c) (5 / 10))) by lra.
    set (a := Rabs c) in *.
    assert (Hratio : exists r,
               JS.min (Fin a) (Fin 50) /! Fin 50 = Fin r
               /\ / 100 < r <= 1 /\ (50 <= a -> r = 1)).
    { cbn [JS.min JS.lt]. destruct (Rlt_dec 50 a) as [Hlt | Hge].
      - rewrite (proj2 (ltR_spec 50 a) Hlt). cbn [JS.div].
        rewrite (proj2 (eqR_false 50 0)) by lra.
        exists (50 / 50). split; [reflexivity|]. split; [lra|]. intros; lra.
      - rewrite (proj2 (ltR_false 50 a)) by lra. cbn [JS.div].
        rewrite (proj2 (eqR_false 50 0)) by lra.
        exists (a / 50). split; [reflexivity|]. split; [lra|]. intros; lra. }
    destruct Hratio as (r & -> & Hr & Hsat).
    unfold JS.sub. cbn [JS.neg JS.add JS.mul JS.round JS.gt JS.lt].
    set (ch := Zfloor (255 * (1 + - r) + / 2)).
    pose proof (Zfloor_bound (255 * (1 + - r) + / 2)) as Hb. fold ch in Hb.
    assert (Hch : (0 <= ch <= 252)%Z).
    { split.
      - apply Zfloor_lub. simpl. lra.
      - assert (IZR ch < IZR 253) by (simpl; lra).
        apply lt_IZR in H. lia. }
    exists ch. split; [exact Hch|]. split.
    + intros H50. rewrite (Hsat H50) in Hb.
      assert (IZR ch < IZR 1) by (simpl; lra).
      apply lt_IZR in H. lia.
    + unfold Note.showInteger. rewrite ZfloorZ.
      destruct (Rlt_dec 0 c) as [Hpos | Hneg].
      * rewrite (proj2 (ltR_spec 0 c) Hpos). reflexivity.
      * rewrite (proj2 (ltR_false 0 c)) by lra. reflexivity.
Qed.

Lemma colorForCents_well_formed_witness :
  exists ch : Z,
    (0 <= ch <= 252)%Z
    /\ (50 <= Rabs (-60) -> ch = 0%Z)
    /\ App.colorForCents (Fin (-60))
       = (if Rlt_dec 0 (-60)
          then "rgb(255, " ++ NilZero.string_of_int (Z.to_int ch)
                 ++ ", " ++ NilZero.string_of_int (Z.to_int ch) ++ ")"
          else "rgb(" ++ NilZero.string_of_int (Z.to_int ch) ++ ", "
                 ++ NilZero.string_of_int (Z.to_int ch) ++ ", 255)")%string.
Proof.
  apply (proj2 (colorForCents_well_formed (Fin (-60))) (-60) eq_refl).
  rewrite Rabs_left by lra. lra.
Defined.

End Colours.

(* ================================================================= *)
(** ** The visualizer's buffer of points *)

Section VisualizerTrim.

Lemma nondecreasing_tail (t : R) (ts : list R) :
  nondecreasing (t :: ts) -> nondecreasing ts.
Proof. intros [_ H]. exact H. Qed.

Lemma nondecreasing_head_least (t : R) (ts : list R) :
  nondecreasing (t :: ts) -> Forall (fun u => t <= u) ts.
Proof.
  revert t. induction ts as [|u ts IH]; intros t [Hle Hrest]; constructor.
  - exact Hle.
  - apply IH in Hrest. eapply Forall_impl; [|exact Hrest].
    cbn. intros; lra.
Qed.

(** What the loop of [_trim] does to any buffer: it removes a prefix of
    points older than the threshold and stops at the first point that is
    not. *)
Lemma trimLoop_prefix (threshold : num) (points : list Visualizer.point) :
  exists dropped,
    points = dropped ++ Visualizer.trimLoop threshold points
    /\ Forall (fun p => Visualizer.time p <! threshold = true) dropped
    /\ match Visualizer.trimLoop threshold points with
       | [] => True
       | first :: _ => Visualizer.time first <! threshold = false
       end.
Proof.
  induction points as [|p points IH]; cbn [Visualizer.trimLoop].
  - exists []. repeat split; constructor.
  - destruct (Visualizer.time p <! threshold) eqn:E.
    + destruct IH as (dropped & Eq & Hd & Hfirst).
      exists (p :: dropped). split; [cbn; now rewrite <- Eq|].
      split; [now constructor | exact Hfirst].
    + exists []. split; [reflexivity|]. split; [constructor | exact E].
Qed.

(** On time stamps in clock order the loop keeps exactly the points that
    are not older than the threshold. *)
Lemma trimLoop_sorted (th : R) (points : list Visualizer.point) :
  forall times,
    stampedWith points times -> nondecreasing times ->
    exists dropped kept,
      times = dropped ++ kept
      /\ stampedWith (Visualizer.trimLoop (Fin th) points) kept
      /\ Forall (fun t => t < th) dropped
      /\ Forall (fun t => th <= t) kept
      /\ nondecreasing kept.
Proof.
  unfold stampedWith.
  induction points as [|p points IH]; intros times Hst Hnd;
    destruct times as [|t times]; try discriminate;
    cbn [Visualizer.trimLoop].
  - exists [], []. repeat split; constructor.
  - cbn [map] in Hst. injection Hst as Ht Hst. rewrite Ht. cbn [JS.lt].
    destruct (Rlt_dec t th) as [Hlt | Hge].
    + rewrite (proj2 (ltR_spec t th) Hlt).
      destruct (IH times Hst (nondecreasing_tail _ _ Hnd))
        as (dropped & kept & Eq & Hk & Hd & Hkept & Hs).
      exists (t :: dropped), kept. rewrite Eq.
      split; [reflexivity|]. split; [exact Hk|].
      split; [now constructor|]. split; assumption.
    + rewrite (proj2 (ltR_false t th)) by lra.
      exists [], (t :: times). split; [reflexivity|].
      split; [cbn [map]; now rewrite Ht, Hst|].
      split; [constructor|]. split; [|exact Hnd].
      constructor; [lra|].
      pose proof (nondecreasing_head_least t times Hnd) as Hall.
      eapply Forall_impl; [|exact Hall]. cbn. intros; lra.
Qed.

End VisualizerTrim.

Section VisualizerClaims.

(** X25.  [_trim] removes a prefix of the buffer, every point of which is
    older than [now - timeWindow], and leaves the rest untouched with a
    first point that is not older; nothing else of the visualizer
    changes. *)
Theorem trim_removes_old_prefix (v : Visualizer.PitchVisualizer)
    (now : num) :
  let v' := Visualizer._trim v now in
  let threshold := now -! Visualizer.timeWindow v in
  (exists dropped,
      Visualizer.points v = dropped ++ Visualizer.points v'
      /\ Forall (fun p => Visualizer.time p <! threshold = true) dropped)
  /\ match Visualizer.points v' with
     | [] => True
     | first :: _ => Visualizer.time first <! threshold = false
     end
  /\ v' = Visualizer.withPoints v (Visualizer.points v').
Proof.
  cbv zeta. unfold Visualizer._trim. cbn [Visualizer.points Visualizer.withPoints].
  destruct (trimLoop_prefix (now -! Visualizer.timeWindow v)
              (Visualizer.points v)) as (dropped & Eq & Hd & Hfirst).
  split; [exists dropped; split; assumption|]. split; [exact Hfirst|].
  reflexivity.
Qed.

(** X26.  The buffer holds a sliding window.  If the points held carry
    finite time stamps in clock order, none later than [now], then after
    [update] with a sample at [now] (drawn at [drawNow >= now], with a
    finite time window) the buffer is what remains of the old points
    followed by the new sample once everything older than
    [drawNow - timeWindow] is dropped: its time stamps are still in clock
    order and all lie between [drawNow - timeWindow] and [now]. *)
Theorem update_keeps_sliding_window (v : Visualizer.PitchVisualizer)
    (p : Visualizer.sample) (times : list R) (w now drawNow : R) :
  Visualizer.timeWindow v = Fin w ->
  stampedWith (Visualizer.points v) times ->
  nondecreasing times ->
  Forall (fun t => t <= now) times ->
  now <= drawNow ->
  let v' := fst (Visualizer.update v (Some p) (Fin now) (Fin drawNow)) in
  exists dropped kept,
    times ++ [now] = dropped ++ kept
    /\ stampedWith (Visualizer.points v') kept
    /\ Forall (fun t => t < drawNow - w) dropped
    /\ Forall (fun t => drawNow - w <= t <= now) kept
    /\ nondecreasing kept.
Proof.
  intros Hw Hst Hnd Hle Hnow v'. subst v'.
  set (new := {| Visualizer.p_frequency := Visualizer.frequency p;
                 Visualizer.p_cents := Visualizer.cents p;
                 Visualizer.p_noteIndex := Visualizer.noteIndex p;
                 Visualizer.time := Fin now |}).
  assert (Hst1 : stampedWith (Visualizer.points v ++ [new]) (times ++ [now])).
  { unfold stampedWith in *. rewrite !map_app, Hst. reflexivity. }
  assert (Hnd1 : nondecreasing (times ++ [now])).
  { clear -Hnd Hle. induction times as [|t times IH]; cbn; [auto|].
    inversion Hle; subst. destruct Hnd as [Hhead Hrest]. split.
    - destruct times as [|u times]; cbn; [lra | exact Hhead].
    - apply IH; assumption. }
  assert (Hle1 : Forall (fun t => t <= now) (times ++ [now])).
  { apply Forall_app. split; [exact Hle|]. constructor; [lra | constructor]. }
  destruct (trimLoop_sorted (now - w) _ _ Hst1 Hnd1)
    as (d1 & k1 & E1 & Hk1 & Hd1 & Hkept1 & Hs1).
  destruct (trimLoop_sorted (drawNow - w) _ _ Hk1 Hs1)
    as (d2 & k2 & E2 & Hk2 & Hd2 & Hkept2 & Hs2).
  assert (Hpts : Visualizer.points
                   (fst (Visualizer.update v (Some p) (Fin now) (Fin drawNow)))
                 = Visualizer.trimLoop (Fin (drawNow - w))
                     (Visualizer.trimLoop (Fin (now - w))
                        (Visualizer.points v ++ [new]))).
  { unfold Visualizer.update, Visualizer.draw, Visualizer._trim.
    cbn [Visualizer.points Visualizer.withPoints Visualizer.timeWindow].
    rewrite Hw. unfold JS.sub. cbn [JS.neg JS.add]. fold new.
    destruct (Visualizer.trimLoop _ (Visualizer.trimLoop _ _)); reflexivity. }
  rewrite Hpts. exists (d1 ++ d2), k2.
  split; [rewrite E1, E2; now rewrite app_assoc|].
  split; [exact Hk2|]. split.
  - apply Forall_app. split; [|exact Hd2].
    eapply Forall_impl; [|exact Hd1]. cbn. intros; lra.
  - split; [|exact Hs2].
    assert (Hle2 : Forall (fun t => t <= now) k2).
    { rewrite E1, E2 in Hle1. apply Forall_app in Hle1.
      destruct Hle1 as [_ Hle1]. apply Forall_app in Hle1. tauto. }
    clear -Hkept2 Hle2. induction Hkept2; constructor;
      inversion Hle2; subst; auto.
Qed.

Lemma update_keeps_sliding_window_witness :
  let v := Visualizer.withPoints smallVisualizer
             [{| Visualizer.p_frequency := Fin 440;
                 Visualizer.p_cents := Fin 0;
                 Visualizer.p_noteIndex := Fin 9;
                 Visualizer.time := Fin 100 |}] in
  let p := {| Visualizer.frequency := Fin 441;
              Visualizer.cents := Fin 4;
              Visualizer.noteIndex := Fin 9 |} in
  let v' := fst (Visualizer.update v (Some p) (Fin 10200) (Fin 10201)) in
  exists dropped kept,
    [100; 10200] = dropped ++ kept
    /\ stampedWith (Visualizer.points v') kept
    /\ Forall (fun t => t < 10201 - 10000) dropped
    /\ Forall (fun t => 10201 - 10000 <= t <= 10200) kept
    /\ nondecreasing kept.
Proof.
  intros v p.
  apply (update_keeps_sliding_window v p [100] 10000 10200 10201).
  - reflexivity.
  - reflexivity.
  - cbn. auto.
  - repeat constructor. lra.
  - lra.
Defined.

End VisualizerClaims.

(* ================================================================= *)
(** ** Where the visualizer draws *)

Section VisualizerGeometry.

Lemma rem12_nonneg (j : Z) :
  (0 <= j)%Z -> JS.rem (Fin (IZR j)) (Fin 12) = Fin (IZR (j mod 12)).
Proof.
  intros Hj. cbn [JS.rem]. rewrite (proj2 (eqR_false 12 0)) by lra.
  f_equal.
  assert (Hq : 0 <= IZR j / 12).
  { apply Rmult_le_pos; [apply IZR_le; lia | lra]. }
  unfold JS.Ztrunc. rewrite (proj2 (ltR_false _ _)) by lra.
  rewrite Zfloor_div12.
  pose proof (Z.div_mod j 12 ltac:(lia)) as Hdm.
  replace (IZR (j mod 12)) with (IZR j - 12 * IZR (j / 12)); [reflexivity|].
  rewrite Hdm at 1. rewrite plus_IZR, mult_IZR. lra.
Qed.

Lemma rem12_negative (i : Z) :
  (i < 0)%Z ->
  JS.rem (Fin (IZR i)) (Fin 12) = Fin (IZR (- ((- i) mod 12))).
Proof.
  intros Hi. cbn [JS.rem]. rewrite (proj2 (eqR_false 12 0)) by lra.
  f_equal.
  assert (Hq : IZR i / 12 < 0).
  { assert (IZR i < 0) by (apply (IZR_lt i 0); lia). lra. }
  unfold JS.Ztrunc. rewrite (proj2 (ltR_spec _ _)) by lra.
  replace (- (IZR i / 12)) with (IZR (- i) / 12)
    by (rewrite opp_IZR; lra).
  rewrite Zfloor_div12.
  pose proof (Z.div_mod (- i) 12 ltac:(lia)) as Hdm.
  rewrite !opp_IZR.
  assert (E : IZR (- i) = 12 * IZR (- i / 12) + IZR ((- i) mod 12)).
  { rewrite Hdm at 1. rewrite plus_IZR, mult_IZR. reflexivity. }
  rewrite opp_IZR in E. lra.
Qed.

(** The visualizer's index formula is the residue modulo 12 for every
    integer, negative ones included. *)
Lemma clampedIndex_is_mod (i : Z) :
  JS.rem (JS.rem (Fin (IZR i)) Visualizer.NOTE_COUNT
          +! Visualizer.NOTE_COUNT) Visualizer.NOTE_COUNT
  = Fin (IZR (i mod 12)).
Proof.
  unfold Visualizer.NOTE_COUNT.
  destruct (Z_lt_le_dec i 0) as [Hneg | Hpos].
  - rewrite rem12_negative by exact Hneg. cbn [JS.add].
    change 12 with (IZR 12) at 1. rewrite <- plus_IZR.
    pose proof (Z.mod_pos_bound (- i) 12 ltac:(lia)) as Hb.
    rewrite rem12_nonneg by lia. f_equal. f_equal.
    Z.to_euclidean_division_equations. lia.
  - rewrite rem12_nonneg by exact Hpos. cbn [JS.add].
    change 12 with (IZR 12) at 1. rewrite <- plus_IZR.
    pose proof (Z.mod_pos_bound i 12 ltac:(lia)) as Hb.
    rewrite rem12_nonneg by lia. f_equal. f_equal.
    Z.to_euclidean_division_equations. lia.
Qed.

Lemma clampedCents_range (cents : num) :
  cents <> NaN ->
  exists cc,
    JS.max (JS.min cents Visualizer.CENTS_RANGE)
      (JS.neg Visualizer.CENTS_RANGE) = Fin cc
    /\ -50 <= cc <= 50.
Proof.
  unfold Visualizer.CENTS_RANGE.
  destruct cents as [c| | |]; try congruence; intros _; decide_reals;
    eexists; (split; [reflexivity | lra]).
Qed.

(** X27.  The trace of a note stays inside the row of that note.  For every
    integer note index, negative ones included, and every cents value that
    is a number (infinities included), with rows of a twelfth of the plot
    height, [_mapNoteToY] returns a finite [y] within 0.4 row heights of
    the centre of row [index mod 12], hence between 0 and the plot
    height. *)
Theorem mapNoteToY_inside_row (v : Visualizer.PitchVisualizer) (i : Z)
    (cents : num) (ph : R) :
  Visualizer.plotHeight v = Fin ph ->
  Visualizer.rowHeight v = Fin (ph / 12) ->
  0 <= ph ->
  cents <> NaN ->
  exists y,
    Visualizer._mapNoteToY v (Fin (IZR i)) cents = Fin y
    /\ ph - (IZR (i mod 12) + 9 / 10) * (ph / 12) <= y
       <= ph - (IZR (i mod 12) + 1 / 10) * (ph / 12)
    /\ 0 <= y <= ph.
Proof.
  intros Hph Hrh Hpos Hc. unfold Visualizer._mapNoteToY.
  rewrite clampedIndex_is_mod, Hph, Hrh.
  destruct (clampedCents_range cents Hc) as (cc & -> & Hcc).
  pose proof (Z.mod_pos_bound i 12 ltac:(lia)) as Hb.
  assert (Hk : 0 <= IZR (i mod 12) <= 11).
  { split; [apply (IZR_le 0) | apply (IZR_le _ 11)]; lia. }
  set (k := IZR (i mod 12)) in *.
  unfold Visualizer.CENTS_RANGE, JS.sub. cbn [JS.add JS.mul JS.neg JS.div].
  rewrite (proj2 (eqR_false 50 0)) by lra. cbn [JS.mul JS.neg JS.add].
  eexists. split; [reflexivity|].
  set (rh := ph / 12).
  assert (Hrhpos : 0 <= rh) by (unfold rh; lra).
  assert (Hoff : - (4 / 10) * rh <= cc / 50 * (rh * (4 / 10))
                 <= 4 / 10 * rh) by (split; nra).
  split; [split; nra|].
  assert (Hph12 : ph = 12 * rh) by (unfold rh; lra).
  split; nra.
Qed.

Lemma mapNoteToY_inside_row_witness :
  exists y,
    Visualizer._mapNoteToY smallVisualizer (Fin (IZR (-3))) PInf = Fin y
    /\ 330 - (IZR ((-3) mod 12) + 9 / 10) * (330 / 12) <= y
       <= 330 - (IZR ((-3) mod 12) + 1 / 10) * (330 / 12)
    /\ 0 <= y <= 330.
Proof.
  apply (mapNoteToY_inside_row smallVisualizer (-3) PInf 330).
  - reflexivity.
  - reflexivity.
  - lra.
  - discriminate.
Defined.

Lemma traceLoop_inside (v : Visualizer.PitchVisualizer)
    (now pixelsPerMs : num) (points : list Visualizer.point) :
  forall last,
    match last with
    | Some lp =>
        Visualizer.lp_x lp <! Fin 0 = false
        /\ Visualizer.lp_x lp >! Visualizer.plotWidth v = false
    | None => True
    end ->
    Forall (insidePlot v)
      (Visualizer.traceLoop v now pixelsPerMs points last).
Proof.
  induction points as [|p points IH]; intros last Hlast;
    cbn [Visualizer.traceLoop]; [constructor|].
  cbv zeta.
  set (x := Visualizer.plotWidth v
            -! (now -! Visualizer.time p) *! pixelsPerMs) in *.
  destruct ((x <! Fin 0) || (x >! Visualizer.plotWidth v)) eqn:Eout.
  { apply IH. exact I. }
  apply orb_false_iff in Eout. destruct Eout as [E0 E1].
  destruct last as [lp|].
  - destruct Hlast as [L0 L1].
    destruct ((_ <=! Fin 250) && _).
    + constructor; [repeat split; assumption|].
      apply IH. cbn. split; assumption.
    + apply IH. cbn. split; assumption.
  - apply IH. cbn. split; assumption.
Qed.

(** X28.  [draw] never strokes outside the plot horizontally: both ends of
    every line of the trace are neither left of 0 nor right of the plot
    width, whatever the points, the clock value and the geometry. *)
Theorem draw_strokes_inside_plot (v : Visualizer.PitchVisualizer)
    (now : num) :
  Forall (insidePlot (fst (Visualizer.draw v now)))
    (snd (Visualizer.draw v now)).
Proof.
  unfold Visualizer.draw.
  destruct (Visualizer.points (Visualizer._trim v now)) eqn:E;
    cbn [fst snd]; [constructor|].
  apply traceLoop_inside. exact I.
Qed.

(** X29.  After [resize] with finite canvas sizes and margins the plot is
    at least one pixel wide and high, the row height is a twelfth of the
    plot height, and the time window and the margins are unchanged; the
    points are the old ones trimmed at the clock value of the redraw. *)
Theorem resize_geometry (v : Visualizer.PitchVisualizer)
    (cw ch ml mr mt mb : R) (now : num) :
  Visualizer.axisMarginLeft v = Fin ml ->
  Visualizer.axisMarginRight v = Fin mr ->
  Visualizer.axisMarginTop v = Fin mt ->
  Visualizer.axisMarginBottom v = Fin mb ->
  let v' := fst (Visualizer.resize v (Fin cw) (Fin ch) now) in
  exists pw ph,
    Visualizer.plotWidth v' = Fin pw
    /\ Visualizer.plotHeight v' = Fin ph
    /\ Visualizer.rowHeight v' = Fin (ph / 12)
    /\ pw = Rmax 1 (cw - ml - mr)
    /\ ph = Rmax 1 (ch - mt - mb)
    /\ 1 <= pw /\ 1 <= ph
    /\ Visualizer.timeWindow v' = Visualizer.timeWindow v
    /\ Visualizer.points v'
       = Visualizer.trimLoop (now -! Visualizer.timeWindow v)
           (Visualizer.points v).
Proof.
  intros Hl Hr Ht Hb v'. subst v'.
  unfold Visualizer.resize. rewrite Hl, Hr, Ht, Hb.
  unfold Visualizer.draw, Visualizer._trim.
  cbn [Visualizer.points Visualizer.withPoints Visualizer.timeWindow].
  assert (Hmax : forall a, exists m,
             JS.max (Fin 1) (Fin a) = Fin m /\ m = Rmax 1 a /\ 1 <= m).
  { intros a. cbn [JS.max JS.lt]. destruct (Rlt_dec 1 a) as [Hlt | Hge].
    - rewrite (proj2 (ltR_spec 1 a) Hlt). exists a.
      split; [reflexivity|]. rewrite Rmax_right by lra. split; lra.
    - rewrite (proj2 (ltR_false 1 a)) by lra. exists 1.
      split; [reflexivity|]. rewrite Rmax_left by lra. split; lra. }
  unfold JS.sub. cbn [JS.neg JS.add].
  destruct (Hmax (cw + - ml + - mr)) as (pw & -> & Epw & Hpw).
  destruct (Hmax (ch + - mt + - mb)) as (ph & -> & Eph & Hph).
  unfold Visualizer.NOTE_COUNT. cbn [JS.div].
  rewrite (proj2 (eqR_false 12 0)) by lra.
  exists pw, ph.
  destruct (Visualizer.trimLoop _ (Visualizer.points v)) eqn:Etrim;
    cbn [fst Visualizer.plotWidth Visualizer.plotHeight Visualizer.rowHeight
         Visualizer.timeWindow Visualizer.points Visualizer.withPoints];
    repeat split; trivial.
Qed.

Lemma resize_geometry_witness :
  let v' := fst (Visualizer.resize smallVisualizer (Fin 50) (Fin 400)
                   (Fin 0)) in
  exists pw ph,
    Visualizer.plotWidth v' = Fin pw
    /\ Visualizer.plotHeight v' = Fin ph
    /\ Visualizer.rowHeight v' = Fin (ph / 12)
    /\ pw = Rmax 1 (50 - 64 - 12)
    /\ ph = Rmax 1 (400 - 12 - 18)
    /\ 1 <= pw /\ 1 <= ph
    /\ Visualizer.timeWindow v' = Visualizer.timeWindow smallVisualizer
    /\ Visualizer.points v'
       = Visualizer.trimLoop
           (Fin 0 -! Visualizer.timeWindow smallVisualizer)
           (Visualizer.points smallVisualizer).
Proof.
  apply (resize_geometry smallVisualizer 50 400 64 12 12 18 (Fin 0));
    reflexivity.
Defined.

End VisualizerGeometry.
